(** * Spatial query and classification engine of the flood-risk dashboard

    A shallow embedding of the query engine of [src/2025/project_c/app.js]:
    coordinate normalisation, bounding boxes, point-in-polygon containment,
    priority-ordered zone classification, nearest-shelter resolution,
    percentile ranking, quantile breaks and the premium formula.

    Conventions of the embedding.
    - A JavaScript number is an IEEE double.  Finite numbers are modelled
      as exact rationals ([Q]) and arithmetic on them is exact; the
      module [Double] evaluates the ring test on doubles, and shows where
      rounding changes its answer.  The non-finite values appear as the
      constructors [NaN], [PosInf], [NegInf] of [jsnum] wherever the
      source tests for them ([Number.isFinite], the [Infinity] seeds of
      [geometryBounds], [Number(x) || 0]).
    - Strings are sequences of characters with codes below 256;
      [toUpperCase] and [toLowerCase] map the ASCII letters.
    - A [TypeError] raised by the source (reading [.length] of
      [undefined]) is the outcome [Throws].
    - Library functions that are not part of the repository ([Math.sin],
      [proj4], the string-to-number conversion of [Number]) are taken as
      parameters. *)

From Stdlib Require Import QArith Qround Qminmax Lqa Lia ZArith List Sorted String Ascii Bool.
From Stdlib Require Floats.
From stdpp Require Import base option list strings gmap.
From Equations Require Import Equations.

Local Open Scope Q_scope.

(** ** JavaScript values *)

Module JS.

Inductive jsnum : Type :=
| Fin (q : Q)
| NaN
| PosInf
| NegInf.

(** Attribute values of a parsed GeoJSON [properties] object. *)
Inductive jsval : Type :=
| JUndefined
| JNull
| JBool (b : bool)
| JNum (n : jsnum)
| JStr (s : string).

(** Outcome of a call that may raise. *)
Inductive outcome (A : Type) : Type :=
| Returns (a : A)
| Throws.
Arguments Returns {A} a.
Arguments Throws {A}.

Definition Qltb (a b : Q) : bool := negb (Qle_bool b a).
Definition Qgtb (a b : Q) : bool := Qltb b a.
Definition Qleb (a b : Q) : bool := Qle_bool a b.
Definition Qgeb (a b : Q) : bool := Qle_bool b a.
Definition Qeqb (a b : Q) : bool := Qeq_bool a b.

(** [Number.isFinite] *)
Definition isFinite (n : jsnum) : bool :=
  match n with Fin _ => true | _ => false end.

(** [a < b] on numbers: false as soon as one side is [NaN]. *)
Definition num_ltb (a b : jsnum) : bool :=
  match a, b with
  | NaN, _ | _, NaN => false
  | Fin x, Fin y => Qltb x y
  | NegInf, NegInf => false
  | NegInf, _ => true
  | _, PosInf => match a with PosInf => false | _ => true end
  | _, _ => false
  end.

Definition num_gtb (a b : jsnum) : bool := num_ltb b a.

(** Truthiness of a number: [NaN] and zero are falsy. *)
Definition num_truthy (n : jsnum) : bool :=
  match n with
  | Fin q => negb (Qeqb q 0)
  | NaN => false
  | PosInf | NegInf => true
  end.

(** [n || 0] *)
Definition num_or_zero (n : jsnum) : jsnum :=
  if num_truthy n then n else Fin 0.

Definition num_add (a b : jsnum) : jsnum :=
  match a, b with
  | NaN, _ | _, NaN => NaN
  | Fin x, Fin y => Fin (x + y)
  | PosInf, NegInf | NegInf, PosInf => NaN
  | PosInf, _ | _, PosInf => PosInf
  | NegInf, _ | _, NegInf => NegInf
  end.

(** ASCII case mapping, and the white space that [trim] strips among
    the characters below 256: U+0009 to U+000D, U+0020 and U+00A0. *)
Definition upcase (c : ascii) : ascii :=
  let n := nat_of_ascii c in
  if (97 <=? n)%nat && (n <=? 122)%nat then ascii_of_nat (n - 32) else c.

Fixpoint toUpperCase (s : string) : string :=
  match s with
  | EmptyString => EmptyString
  | String c s' => String (upcase c) (toUpperCase s')
  end.

Definition isSpace (c : ascii) : bool :=
  let n := nat_of_ascii c in
  ((9 <=? n)%nat && (n <=? 13)%nat) || (n =? 32)%nat || (n =? 160)%nat.

Fixpoint trimStart (s : string) : string :=
  match s with
  | String c s' => if isSpace c then trimStart s' else s
  | EmptyString => EmptyString
  end.

Fixpoint rev_string (s acc : string) : string :=
  match s with
  | EmptyString => acc
  | String c s' => rev_string s' (String c acc)
  end.

Definition trim (s : string) : string :=
  rev_string (trimStart (rev_string (trimStart s) EmptyString)) EmptyString.

(** [s.includes(t)] *)
Fixpoint includes (s t : string) : bool :=
  String.prefix t s ||
  match s with
  | EmptyString => false
  | String _ s' => includes s' t
  end.

End JS.
Export JS.

(** ** Geometry (spec §3) *)

(** A position after normalisation: [[lon, lat]]. *)
Definition position : Type := (Q * Q)%type.
Definition ring : Type := list position.

(** A GeoJSON geometry over positions of type [P]; [OtherGeometry] is any
    object whose [type] is none of the six handled ones (or is missing). *)
Inductive Geometry (P : Type) : Type :=
| Point (c : P)
| MultiPoint (cs : list P)
| LineString (cs : list P)
| MultiLineString (ls : list (list P))
| Polygon (rings : list (list P))
| MultiPolygon (polys : list (list (list P)))
| OtherGeometry (type : option string).
Arguments Point {P} c.
Arguments MultiPoint {P} cs.
Arguments LineString {P} cs.
Arguments MultiLineString {P} ls.
Arguments Polygon {P} rings.
Arguments MultiPolygon {P} polys.
Arguments OtherGeometry {P} type.

(** [[minLon, minLat, maxLon, maxLat]] *)
Definition BoundingBox : Type := (Q * Q * Q * Q)%type.

(** A loaded feature: geometry (never null after the loaders' filter),
    attributes, and the derived fields the loaders store in
    [properties.__bounds] and [properties.__centroid]. *)
Record Feature : Type := mkFeature {
  geometry : Geometry position;
  properties : gmap string jsval;
  bounds : option BoundingBox;
  centroid : option position
}.

(** ** GeometryIndexer: [geometryBounds] *)

Record BoundsAcc : Type := mkAcc {
  minLon : jsnum; minLat : jsnum; maxLon : jsnum; maxLat : jsnum
}.

Definition boundsSeed : BoundsAcc := mkAcc PosInf PosInf NegInf NegInf.

(** The closure [update] on a finite position. *)
Definition boundsUpdate (acc : BoundsAcc) (c : position) : BoundsAcc :=
  let lon := Fin (fst c) in
  let lat := Fin (snd c) in
  mkAcc (if num_ltb lon (minLon acc) then lon else minLon acc)
        (if num_ltb lat (minLat acc) then lat else minLat acc)
        (if num_gtb lon (maxLon acc) then lon else maxLon acc)
        (if num_gtb lat (maxLat acc) then lat else maxLat acc).

(** The closure [walk], by nesting depth of the coordinate array. *)
Definition walk1 (acc : BoundsAcc) (cs : list position) : BoundsAcc :=
  fold_left boundsUpdate cs acc.
Definition walk2 (acc : BoundsAcc) (rs : list (list position)) : BoundsAcc :=
  fold_left walk1 rs acc.
Definition walk3 (acc : BoundsAcc) (ps : list (list (list position))) : BoundsAcc :=
  fold_left walk2 ps acc.

Definition geometryBounds (g : Geometry position) : option BoundingBox :=
  let walked :=
    match g with
    | Point c => Some (boundsUpdate boundsSeed c)
    | MultiPoint cs | LineString cs => Some (walk1 boundsSeed cs)
    | MultiLineString rs | Polygon rs => Some (walk2 boundsSeed rs)
    | MultiPolygon ps => Some (walk3 boundsSeed ps)
    | OtherGeometry _ => None
    end in
  match walked with
  | Some (mkAcc (Fin a) (Fin b) (Fin c) (Fin d)) => Some (a, b, c, d)
  | _ => None
  end.

(** What the zone loader attaches to a normalised feature. *)
Definition indexFeature (g : Geometry position) (props : gmap string jsval) : Feature :=
  mkFeature g props (geometryBounds g) None.

(** ** PointLocator *)

Definition pointWithinBounds (point : position) (b : BoundingBox) : bool :=
  let '(lon, lat) := point in
  let '(minLon, minLat, maxLon, maxLat) := b in
  Qgeb lon minLon && Qleb lon maxLon && Qgeb lat minLat && Qleb lat maxLat.

(** The edge test of [pointInRing]: vertex [i] is [cur], vertex [j] is
    [prev]. *)
Definition intersect (point cur prev : position) : bool :=
  let '(x, y) := point in
  let '(xi, yi) := cur in
  let '(xj, yj) := prev in
  negb (Bool.eqb (Qgtb yi y) (Qgtb yj y)) &&
  Qltb x (((xj - xi) * (y - yi)) / (yj - yi + 0) + xi).

(** The loop of [pointInRing] from index [i] on, [prev] being vertex [j]. *)
Fixpoint ringLoop (point prev : position) (rest : ring) (inside : bool) : bool :=
  match rest with
  | [] => inside
  | cur :: rest' =>
      ringLoop point cur rest' (if intersect point cur prev then negb inside else inside)
  end.

Definition pointInRing (point : position) (r : ring) : bool :=
  match r with
  | [] => false
  | v :: _ => ringLoop point (List.last r v) r false
  end.

(** [pointInRing(point, rings[0])]: reading [.length] of [undefined]
    raises. *)
Definition pointInRing0 (point : position) (rings : list ring) : outcome bool :=
  match rings with
  | [] => Throws
  | outer :: _ => Returns (pointInRing point outer)
  end.

(** The hole loop of the Polygon branch: leaves at the first hit. *)
Fixpoint outsideHoles (point : position) (holes : list ring) : bool :=
  match holes with
  | [] => true
  | h :: hs => if pointInRing point h then false else outsideHoles point hs
  end.

(** The hole loop of the MultiPolygon branch: sets [inHole], no early exit. *)
Definition inHoleLoop (point : position) (holes : list ring) : bool :=
  fold_left (fun inHole h => if pointInRing point h then true else inHole) holes false.

Fixpoint multiPolygonLoop (point : position) (polys : list (list ring)) : outcome bool :=
  match polys with
  | [] => Returns false
  | rings :: polys' =>
      match pointInRing0 point rings with
      | Throws => Throws
      | Returns false => multiPolygonLoop point polys'
      | Returns true =>
          if negb (inHoleLoop point (tl rings)) then Returns true
          else multiPolygonLoop point polys'
      end
  end.

Definition pointInPolygonGeom (point : position) (geom : Geometry position) : outcome bool :=
  match geom with
  | Polygon rings =>
      match pointInRing0 point rings with
      | Throws => Throws
      | Returns false => Returns false
      | Returns true => Returns (outsideHoles point (tl rings))
      end
  | MultiPolygon polys => multiPolygonLoop point polys
  | _ => Returns false
  end.

Definition pointInPolygon (point : position) (feature : Feature) : outcome bool :=
  pointInPolygonGeom point (geometry feature).

(** The guard [bounds && !pointWithinBounds(point, bounds)]. *)
Definition boundsReject (point : position) (feature : Feature) : bool :=
  match bounds feature with
  | Some b => negb (pointWithinBounds point b)
  | None => false
  end.

(** The containment test as the callers run it: pre-filter, then the
    exact test. *)
Definition contains (point : position) (feature : Feature) : outcome bool :=
  if boundsReject point feature then Returns false
  else pointInPolygon point feature.

(** ** ZoneClassifier: [findFloodZone] *)

Definition zonePriority : list string := ["VE"; "AE"; "AO"; "A"; "X"]%string.

(** [zoneFeatureMap.get(zoneId) || []] *)
Definition zoneFeatures (zoneFeatureMap : gmap string (list Feature)) (zoneId : string)
  : list Feature :=
  default [] (zoneFeatureMap !! zoneId).

(** The inner loop over the features of one layer. *)
Fixpoint scanFeatures (point : position) (features : list Feature)
  : outcome (option Feature) :=
  match features with
  | [] => Returns None
  | feature :: rest =>
      if boundsReject point feature then scanFeatures point rest
      else match pointInPolygon point feature with
           | Throws => Throws
           | Returns true => Returns (Some feature)
           | Returns false => scanFeatures point rest
           end
  end.

(** The outer loop over the zone ids. *)
Fixpoint scanZones (zoneFeatureMap : gmap string (list Feature)) (point : position)
    (zones : list string) : outcome (option (string * Feature)) :=
  match zones with
  | [] => Returns None
  | zoneId :: rest =>
      match scanFeatures point (zoneFeatures zoneFeatureMap zoneId) with
      | Throws => Throws
      | Returns (Some feature) => Returns (Some (zoneId, feature))
      | Returns None => scanZones zoneFeatureMap point rest
      end
  end.

(** The result object is [{zoneId, description, feature}]; [description]
    is a translated display string and is left out. *)
Definition findFloodZone (zoneFeatureMap : gmap string (list Feature)) (point : position)
  : outcome (option (string * Feature)) :=
  scanZones zoneFeatureMap point zonePriority.

(** ** StatisticsEngine *)

(** [values.filter(v => Number.isFinite(v))] *)
Definition finiteValues (values : list jsnum) : list Q :=
  omap (fun v => match v with Fin q => Some q | _ => None end) values.

(** [.sort((a, b) => a - b)]: ascending order. *)
Fixpoint insertAsc (x : Q) (l : list Q) : list Q :=
  match l with
  | [] => [x]
  | y :: l' => if Qleb x y then x :: l else y :: insertAsc x l'
  end.

Definition sortAsc (l : list Q) : list Q := fold_right insertAsc [] l.

(** [sorted[i]] for an index that is in range. *)
Definition at_index (sorted : list Q) (i : nat) : Q := nth i sorted 0.
Definition at_indexZ (sorted : list Q) (i : Z) : Q := at_index sorted (Z.to_nat i).

(** The binary search loop [while (low <= high)]; its value is the final
    [low]. *)
Equations? bsearchLow (sorted : list Q) (value : Q) (low high : Z) : Z
  by wf (Z.to_nat (high - low + 1)) lt :=
  bsearchLow sorted value low high with Z_le_gt_dec low high => {
    | left _ =>
        let mid := ((low + high) / 2)%Z in
        if Qltb (at_indexZ sorted mid) value
        then bsearchLow sorted value (mid + 1)%Z high
        else bsearchLow sorted value low (mid - 1)%Z
    | right _ => low
  }.
Proof.
  - assert (low <= (low + high) / 2 <= high)%Z
      by (split; [apply Z.div_le_lower_bound | apply Z.div_le_upper_bound]; lia).
    lia.
  - assert (low <= (low + high) / 2 <= high)%Z
      by (split; [apply Z.div_le_lower_bound | apply Z.div_le_upper_bound]; lia).
    lia.
Defined.

(** [while (firstIndex > 0 && sorted[firstIndex - 1] === value)] *)
Fixpoint walkBack (sorted : list Q) (value : Q) (firstIndex : nat) : nat :=
  match firstIndex with
  | O => O
  | S j => if Qeqb (at_index sorted j) value then walkBack sorted value j else firstIndex
  end.

(** Number of leading entries equal to [value]. *)
Fixpoint countEq (value : Q) (l : list Q) : nat :=
  match l with
  | x :: l' => if Qeqb x value then S (countEq value l') else O
  | [] => O
  end.

(** [while (lastEqual + 1 < sorted.length && sorted[lastEqual + 1] === value)] *)
Definition walkForward (sorted : list Q) (value : Q) (lastEqual : nat) : nat :=
  (lastEqual + countEq value (skipn (S lastEqual) sorted))%nat.

Definition natQ (n : nat) : Q := inject_Z (Z.of_nat n).

(** The ranker returned in the general case. *)
Definition rankGeneral (sorted : list Q) (value : jsnum) : option Q :=
  match value with
  | Fin v =>
      if Qleb v (at_index sorted 0) then Some 0
      else
        let lastIndex := (length sorted - 1)%nat in
        if Qgeb v (at_index sorted lastIndex) then Some 1
        else
          let low := bsearchLow sorted v 0 (Z.of_nat lastIndex) in
          let firstIndex := walkBack sorted v (Z.to_nat (Z.max 0 low)) in
          let lastEqual := walkForward sorted v firstIndex in
          if Qeqb (at_index sorted firstIndex) v then
            let meanIndex := (natQ firstIndex + natQ lastEqual) / 2 in
            Some (meanIndex / natQ lastIndex)
          else
            let prevValue := at_index sorted (firstIndex - 1) in
            let nextValue := at_index sorted firstIndex in
            let span := if Qeqb (nextValue - prevValue) 0 then 1 else nextValue - prevValue in
            let fractionalIndex := natQ firstIndex - 1 + (v - prevValue) / span in
            Some (fractionalIndex / natQ lastIndex)
  | _ => None
  end.

Definition rankConstant (value : jsnum) : option Q :=
  if isFinite value then Some (1 # 2) else None.

Definition createPercentileRanker (values : list jsnum) : jsnum -> option Q :=
  let sorted := sortAsc (finiteValues values) in
  match sorted with
  | [] => fun _ => None
  | [_] => rankConstant
  | first :: _ =>
      if Qeqb first (at_index sorted (length sorted - 1)) then rankConstant
      else rankGeneral sorted
  end.

(** Quantile breaks of the parcel layer ([loadParcelValues]). *)

(** The filter on [valuePerSqMeter] before sorting. *)
Definition plausible (v : jsnum) : option Q :=
  match v with
  | Fin q => if Qgtb q 0 && Qgeb q (1 # 10) && Qleb q 5000 then Some q else None
  | _ => None
  end.

Definition plausibleValues (perSqMeter : list jsnum) : list Q :=
  sortAsc (omap (fun v => plausible (num_or_zero v)) perSqMeter).

Definition quantiles : list Q := [2 # 10; 4 # 10; 6 # 10; 8 # 10].

Definition breakIndex (n : nat) (q : Q) : nat :=
  Z.to_nat (Z.min (Z.of_nat n - 1) (Qfloor (q * (natQ n - 1)))).

(** [parcelBreaks] for the sorted [values]. *)
Definition parcelBreaks (values : list Q) : list Q :=
  match values with
  | [] => []
  | _ => map (fun q => at_index values (breakIndex (length values) q)) quantiles
  end.

(** ** CoordinateNormalizer *)

Definition WGS84 : string := "EPSG:4326".

Definition isDigit (c : ascii) : bool :=
  let n := nat_of_ascii c in (48 <=? n)%nat && (n <=? 57)%nat.

Definition isSep (c : ascii) : bool :=
  Ascii.eqb c ":" || Ascii.eqb c "/".

Fixpoint skipSeps (s : string) : string :=
  match s with
  | String c s' => if isSep c then skipSeps s' else s
  | EmptyString => EmptyString
  end.

Fixpoint takeDigits (s : string) : string :=
  match s with
  | String c s' => if isDigit c then String c (takeDigits s') else EmptyString
  | EmptyString => EmptyString
  end.

(** A match of [/EPSG[:/]*(\d+)/i] starting at the head of [s]; the value
    is the captured group. *)
Definition matchEpsgAt (s : string) : option string :=
  match s with
  | String e (String p (String s1 (String g rest))) =>
      if String.eqb (toUpperCase (String e (String p (String s1 (String g EmptyString)))))
                    "EPSG"
      then
        let digits := takeDigits (skipSeps rest) in
        if String.eqb digits "" then None else Some digits
      else None
  | _ => None
  end.

(** [crs.match(/EPSG[:/]*(\d+)/i)]: the leftmost match. *)
Fixpoint matchEpsg (s : string) : option string :=
  match matchEpsgAt s with
  | Some digits => Some digits
  | None =>
      match s with
      | String _ s' => matchEpsg s'
      | EmptyString => None
      end
  end.

(** [parseCrs]; the argument is [geojson?.crs?.properties?.name]. *)
Definition parseCrs (crsName : option string) : string :=
  match crsName with
  | None => WGS84
  | Some crs =>
      if String.eqb crs "" then WGS84
      else match matchEpsg crs with
           | Some digits => ("EPSG:" ++ digits)%string
           | None =>
               if includes (toUpperCase crs) "CRS84"
                  || includes (toUpperCase crs) "OGC:1.3:CRS84"
               then "CRS:84"%string
               else WGS84
           end
  end.

(** The guard of [createTransformer]. *)
Definition keepsCoordinates (fromCode : string) : bool :=
  String.eqb fromCode "" || String.eqb fromCode WGS84
  || String.eqb fromCode "CRS:84" || String.eqb fromCode "EPSG:4326".

(** [coords.slice(0, 2)] *)
Definition slice02 (coords : list Q) : list Q := firstn 2 coords.

(** A feature as parsed, before normalisation: positions are arrays of
    numbers and the geometry may be null. *)
Record RawFeature : Type := mkRawFeature {
  raw_geometry : option (Geometry (list Q));
  raw_properties : gmap string jsval
}.

Record GeoJSON : Type := mkGeoJSON {
  crsName : option string;
  features : list RawFeature
}.

Definition transformGeometry (geom : option (Geometry (list Q)))
    (transform : list Q -> list Q) : option (Geometry (list Q)) :=
  match geom with
  | None => None
  | Some g =>
      Some match g with
           | Point c => Point (transform c)
           | MultiPoint cs => MultiPoint (map transform cs)
           | LineString cs => LineString (map transform cs)
           | MultiLineString ls => MultiLineString (map (map transform) ls)
           | Polygon rings => Polygon (map (map transform) rings)
           | MultiPolygon polys => MultiPolygon (map (map (map transform)) polys)
           | OtherGeometry t => OtherGeometry t
           end
  end.

(** All positions of a geometry, in array order. *)
Definition positionsOf {P : Type} (g : Geometry P) : list P :=
  match g with
  | Point c => [c]
  | MultiPoint cs | LineString cs => cs
  | MultiLineString ls | Polygon ls => concat ls
  | MultiPolygon polys => concat (concat polys)
  | OtherGeometry _ => []
  end.

(** ** Shelters and the numeric library *)

(** The functions of [Math] used by [haversine]. *)
Record MathLib : Type := mkMath {
  Math_sin : Q -> Q;
  Math_cos : Q -> Q;
  Math_sqrt : Q -> Q;
  Math_atan2 : Q -> Q -> Q;
  Math_PI : Q
}.

(** A shelter feature as [findNearestShelter] reads it:
    [properties.Name] and [geometry.coordinates].  The shelter layer holds
    Point and MultiPoint geometries: the coordinates are one position for
    the former and an array of positions for the latter. *)
Inductive ShelterGeometry : Type :=
  | ShelterPoint (c : position)
  | ShelterMultiPoint (cs : list position).

Record Shelter : Type := mkShelter {
  Name : option string;
  shelterGeometry : ShelterGeometry
}.

Definition WATER_ISLAND_TOKEN : string := "WATER ISLAND".
Definition WATER_ISLAND_SHELTER_NAME : string := "Water Island Station".
Definition ACRE_IN_SQ_METERS : Q := 40468564224 # 10000000.

(** [typeof legalDescription === "string" &&
     legalDescription.toUpperCase().includes(WATER_ISLAND_TOKEN)] *)
Definition isWaterIslandParcel (parcelFeature : option Feature) : bool :=
  match parcelFeature with
  | Some f =>
      match properties f !! "Tax_Legal_"%string with
      | Some (JStr legalDescription) =>
          includes (toUpperCase legalDescription) WATER_ISLAND_TOKEN
      | _ => false
      end
  | None => false
  end.

(** [(feature.properties?.Name || "").trim().toUpperCase() ===
     WATER_ISLAND_SHELTER_NAME.toUpperCase()] *)
Definition isWaterIslandStation (feature : Shelter) : bool :=
  String.eqb (toUpperCase (trim (default EmptyString (Name feature))))
             (toUpperCase WATER_ISLAND_SHELTER_NAME).

(** ** Risk valuation tables *)

(** [riskProfiles]: zone id to [premiumRate]. *)
Definition riskProfiles : gmap string Q :=
  list_to_map
    [("VE", 18 # 1000); ("AE", 15 # 1000); ("AO", 12 # 1000);
     ("A", 12 # 1000); ("X", 6 # 1000); ("none", 4 # 1000)]%string.

(** [riskProfiles[zoneId] ?? riskProfiles.none] *)
Definition premiumRate (zoneId : string) : Q :=
  default (4 # 1000) (riskProfiles !! zoneId).

(** Lines 2138-2139: the premium and the recommended coverage. *)
Definition estimatedPremium (zoneId : string) (propertyValue : Q) : Q :=
  Qmin (Qmax (propertyValue * premiumRate zoneId) 450) 7200.

Definition recommendedCoverage (propertyValue : Q) : Q :=
  Qmin propertyValue 250000.

(** Whether [geometryCentroid] raises on a geometry: its Polygon branch
    reads [geometry.coordinates[0].filter], which is a property of
    [undefined] when the Polygon has no ring. *)
Definition centroidRaises {P : Type} (g : Geometry P) : bool :=
  match g with
  | Polygon [] => true
  | _ => false
  end.

Section Engine.

(** Functions of the platform and of the [proj4] library. *)
Variable M : MathLib.
Variable StringToNumber : string -> jsnum.
Variable proj4Forward : string -> list Q -> list Q.

(** [createTransformer]: identity on the first two components for the
    canonical systems, the [proj4] closure otherwise. *)
Definition createTransformer (fromCode : string) : list Q -> list Q :=
  if keepsCoordinates fromCode then slice02 else proj4Forward fromCode.

Definition normalizeFeatures (geojson : GeoJSON) : list RawFeature :=
  let fromCode := parseCrs (crsName geojson) in
  let transformer := createTransformer fromCode in
  map (fun feature =>
         mkRawFeature (transformGeometry (raw_geometry feature) transformer)
                      (raw_properties feature))
      (features geojson).

(** [haversine] *)
Definition toRad (d : Q) : Q := (d * Math_PI M) / 180.

Definition haversine (lon1 lat1 lon2 lat2 : Q) : Q :=
  let R := 6371 in
  let dLat := toRad (lat2 - lat1) in
  let dLon := toRad (lon2 - lon1) in
  let a :=
    Math_sin M (dLat / 2) ^ 2 +
    Math_cos M (toRad lat1) * Math_cos M (toRad lat2) * Math_sin M (dLon / 2) ^ 2 in
  let c := 2 * Math_atan2 M (Math_sqrt M a) (Math_sqrt M (1 - a)) in
  R * c.

(** [const [lon, lat] = feature.geometry.coordinates;
     haversine(point[0], point[1], lon, lat)].
    For a Point the two numbers are the position.  For a MultiPoint the
    destructuring binds [lon] and [lat] to the first two positions (arrays,
    or [undefined] when absent); [lat2 - lat1] and [lon2 - lon1] are then
    NaN, and so is the distance. *)
Definition shelterDistance (point : position) (feature : Shelter) : jsnum :=
  match shelterGeometry feature with
  | ShelterPoint (lon, lat) => Fin (haversine (fst point) (snd point) lon lat)
  | ShelterMultiPoint _ => NaN
  end.

(** One iteration of the loop of [findNearestShelter]; the state is
    [(waterIslandShelter, closest)]. *)
Definition shelterStep (isWaterIsland : bool) (point : position)
    (st : option Shelter * option (Shelter * jsnum)) (feature : Shelter)
  : option Shelter * option (Shelter * jsnum) :=
  let '(waterIslandShelter, closest) := st in
  let station := isWaterIslandStation feature in
  let waterIslandShelter' := if station then Some feature else waterIslandShelter in
  if station && negb isWaterIsland then (waterIslandShelter', closest)
  else
    let distanceKm := shelterDistance point feature in
    let closest' :=
      match closest with
      | None => Some (feature, distanceKm)
      | Some (_, closestKm) =>
          if num_ltb distanceKm closestKm then Some (feature, distanceKm) else closest
      end in
    (waterIslandShelter', closest').

(** [findNearestShelter].  After the loop the source has three guarded
    returns; the second one ([!closest && isWaterIslandParcel &&
    waterIslandShelter]) repeats the condition of the first and is never
    reached. *)
Definition findNearestShelter (shelterFeatures : list Shelter) (point : position)
    (parcelFeature : option Feature) : option (Shelter * jsnum) :=
  match shelterFeatures with
  | [] => None
  | _ =>
      let isWaterIsland := isWaterIslandParcel parcelFeature in
      let '(waterIslandShelter, closest) :=
        fold_left (shelterStep isWaterIsland point) shelterFeatures (None, None) in
      match isWaterIsland, waterIslandShelter, closest with
      | true, Some station, _ => Some (station, shelterDistance point station)
      | false, Some _, None => None
      | _, _, _ => closest
      end
  end.

(** [findParcelAtPoint]; the value is [(feature, distanceKm)]. *)
Fixpoint scanParcels (point : position) (parcels : list Feature)
  : outcome (option (Feature * Q)) :=
  match parcels with
  | [] => Returns None
  | feature :: rest =>
      if boundsReject point feature then scanParcels point rest
      else match pointInPolygon point feature with
           | Throws => Throws
           | Returns true =>
               let distanceKm :=
                 match centroid feature with
                 | Some c => haversine (fst point) (snd point) (fst c) (snd c)
                 | None => 0
                 end in
               Returns (Some (feature, distanceKm))
           | Returns false => scanParcels point rest
           end
  end.

Definition findParcelAtPoint (parcelCollection : option (list Feature)) (point : position)
  : outcome (option (Feature * Q)) :=
  match parcelCollection with
  | None => Returns None
  | Some parcels => scanParcels point parcels
  end.

(** [Number(v)] on an attribute value. *)
Definition ToNumber (v : option jsval) : jsnum :=
  match v with
  | None | Some JUndefined => NaN
  | Some JNull => Fin 0
  | Some (JBool b) => Fin (if b then 1 else 0)
  | Some (JNum n) => n
  | Some (JStr s) => StringToNumber s
  end.

(** The value metrics computed per parcel in [loadParcelValues]. *)
Record ParcelMetrics : Type := mkMetrics {
  landValue : jsnum;
  improvementValue : jsnum;
  totalValue : jsnum;
  valuePerSqMeter : jsnum;
  valuePerAcre : jsnum
}.

Definition num_div (a b : jsnum) : jsnum :=
  match a, b with
  | NaN, _ | _, NaN => NaN
  | Fin x, Fin y =>
      if Qeqb y 0 then
        if Qeqb x 0 then NaN else if Qltb x 0 then NegInf else PosInf
      else Fin (x / y)
  | Fin _, _ => Fin 0
  | PosInf, Fin y => if Qltb y 0 then NegInf else PosInf
  | NegInf, Fin y => if Qltb y 0 then PosInf else NegInf
  | _, _ => NaN
  end.

Definition parcelMetrics (props : gmap string jsval) : ParcelMetrics :=
  let landValue := num_or_zero (ToNumber (props !! "Land_Value"%string)) in
  let improvementValue := num_or_zero (ToNumber (props !! "Improved_V"%string)) in
  let totalValue := num_add landValue improvementValue in
  let areaSqMeters := num_or_zero (ToNumber (props !! "SHAPE_Area"%string)) in
  let valuePerSqMeter :=
    if num_gtb areaSqMeters (Fin 0) then num_div totalValue areaSqMeters else Fin 0 in
  let acres :=
    if num_gtb areaSqMeters (Fin 0) then num_div areaSqMeters (Fin ACRE_IN_SQ_METERS)
    else Fin 0 in
  let valuePerAcre :=
    if num_gtb acres (Fin 0) then num_div totalValue acres else Fin 0 in
  mkMetrics landValue improvementValue totalValue valuePerSqMeter valuePerAcre.

(** [normalizeFeatures(geojson).filter(f => f.geometry)] *)
Definition loadedFeatures (geojson : GeoJSON) : list RawFeature :=
  filter (fun f => is_Some (raw_geometry f)) (normalizeFeatures geojson).

Record MetricDistributions : Type := mkDistributions {
  dist_totalValue : list jsnum;
  dist_improvementValue : list jsnum;
  dist_valuePerAcre : list jsnum
}.

(** The [map] callback of [loadParcelValues] as far as the
    distributions go.  It calls [geometryCentroid(feature.geometry)]
    before it pushes the three figures: the call raises on a Polygon
    without rings (see [centroidRaises]), and the exception leaves
    [loadParcelValues] through its [catch].  A feature without geometry
    pushes nothing. *)
Fixpoint pushMetrics (normalized : list RawFeature) (pushed : list ParcelMetrics)
  : outcome (list ParcelMetrics) :=
  match normalized with
  | [] => Returns pushed
  | feature :: rest =>
      match raw_geometry feature with
      | None => pushMetrics rest pushed
      | Some g =>
          if centroidRaises g then Throws
          else pushMetrics rest (pushed ++ [parcelMetrics (raw_properties feature)])
      end
  end.

(** The three arrays of [metricDistributions] once the [map] over the
    parcels has run: one [push] per parcel and metric. *)
Definition metricDistributions (geojson : GeoJSON) : outcome MetricDistributions :=
  match pushMetrics (loadedFeatures geojson) [] with
  | Throws => Throws
  | Returns metrics =>
      Returns (mkDistributions (map totalValue metrics)
                               (map improvementValue metrics)
                               (map valuePerAcre metrics))
  end.

(** [percentileRankers]: built at the end of [loadParcelValues], when
    the [map] has not raised.  The calls into the map library and the
    page that lie in between are not modelled. *)
Definition percentileRankers (geojson : GeoJSON)
  : outcome ((jsnum -> option Q) * (jsnum -> option Q) * (jsnum -> option Q)) :=
  match metricDistributions geojson with
  | Throws => Throws
  | Returns d =>
      Returns (createPercentileRanker (dist_totalValue d),
               createPercentileRanker (dist_improvementValue d),
               createPercentileRanker (dist_valuePerAcre d))
  end.

(** [renderInsuranceInfo]: [None] when the placeholder is rendered,
    otherwise [(estimatedPremium, recommendedCoverage)].  The second
    argument is [parcelResult?.feature]. *)
Definition renderInsuranceInfo (zoneResult : option (string * Feature))
    (parcelFeature : option Feature) : option (Q * Q) :=
  let zoneId := match zoneResult with Some (z, _) => z | None => "none"%string end in
  match parcelFeature with
  | None => None
  | Some f =>
      match ToNumber (properties f !! "totalValue"%string) with
      | Fin rawPropertyValue =>
          if Qleb rawPropertyValue 0 then None
          else Some (estimatedPremium zoneId rawPropertyValue,
                     recommendedCoverage rawPropertyValue)
      | _ => None
      end
  end.

End Engine.

(** ** Specification vocabulary *)

Definition polygonal (g : Geometry position) : bool :=
  match g with Polygon _ | MultiPolygon _ => true | _ => false end.

(** Every polygon of the geometry has a ring at index 0. *)
Definition hasOuterRing (g : Geometry position) : bool :=
  match g with
  | Polygon rings => match rings with [] => false | _ => true end
  | MultiPolygon polys =>
      forallb (fun rings : list ring => match rings with [] => false | _ => true end) polys
  | _ => true
  end.

Definition layerWellFormed (fs : list Feature) : Prop :=
  Forall (fun f => hasOuterRing (geometry f) = true) fs.

(** [f] is the first feature of [fs], in stored order, that contains the
    point. *)
Definition firstContaining (p : position) (fs : list Feature) (f : Feature) : Prop :=
  exists k, fs !! k = Some f /\ contains p f = Returns true /\
    forall j g, (j < k)%nat -> fs !! j = Some g -> contains p g = Returns false.

(** Some feature of layer [z] contains the point. *)
Definition layerContains (zoneFeatureMap : gmap string (list Feature)) (p : position)
    (z : string) : Prop :=
  exists f, f ∈ zoneFeatures zoneFeatureMap z /\ contains p f = Returns true.

(** A square with a square hole, used in the examples. *)
Definition squareRing : ring := [(0, 0); (4, 0); (4, 4); (0, 4); (0, 0)].
Definition holeRing : ring := [(1, 1); (1, 2); (2, 2); (2, 1); (1, 1)].
Definition squareFeature : Feature := indexFeature (Polygon [squareRing]) ∅.
Definition exampleZones : gmap string (list Feature) :=
  {[ "AE"%string := [squareFeature]; "X"%string := [squareFeature] ]}.

(** A Polygon without any ring. *)
Definition emptyPolygonFeature : Feature := indexFeature (Polygon []) ∅.

(** Features whose geometry is not polygonal, used in the examples. *)
Definition pointFeature : Feature := indexFeature (Point (1, 1)) ∅.
Definition lineFeature : Feature :=
  indexFeature (LineString [(0, 0); (4, 0); (4, 4); (0, 0)]) ∅.
Definition untypedFeature : Feature := indexFeature (OtherGeometry None) ∅.

(** A stand-in for the platform's [Math], used only to evaluate examples
    whose result does not depend on it. *)
Definition exampleMath : MathLib :=
  mkMath (fun x => x) (fun _ => 1) (fun x => x) (fun y _ => y) (314159 # 100000).

(** The rate table and the clamp of spec §4.7, in the spec's words. *)
Definition zoneRate : list (string * Q) :=
  [("VE", 18 # 1000); ("AE", 15 # 1000); ("AO", 12 # 1000);
   ("A", 12 # 1000); ("X", 6 # 1000); ("none", 4 # 1000)]%string.

Definition clamp (x lo hi : Q) : Q :=
  if Qltb x lo then lo else if Qltb hi x then hi else x.

(** The classifier result that yields zone id [zoneId]: a match tagged
    [zoneId], or no match for ["none"]. *)
Definition zoneResultFor (zoneId : string) (f : Feature) : option (string * Feature) :=
  if String.eqb zoneId "none" then None else Some (zoneId, f).

(** A parcel whose derived [totalValue] is 1,000,000. *)
Definition millionParcel : Feature :=
  mkFeature (Polygon [squareRing]) {[ "totalValue"%string := JNum (Fin 1000000) ]} None None.

(** Every position of the feature has at most two components. *)
Definition planar (f : RawFeature) : Prop :=
  match raw_geometry f with
  | Some g => Forall (fun c : list Q => (length c <= 2)%nat) (positionsOf g)
  | None => True
  end.

(** A collection without a declared reference system whose only feature
    is a point with an elevation. *)
Definition elevatedPoint : GeoJSON :=
  mkGeoJSON None [mkRawFeature (Some (Point [1; 2; 3])) ∅].


(** Stand-ins for the platform's string-to-number conversion and for
    [proj4], used only to evaluate examples that do not reach them. *)
Definition exampleStringToNumber : string -> jsnum := fun _ => NaN.
Definition exampleProj4 : string -> list Q -> list Q := fun _ c => c.

(** The attribute is absent or does not convert to a number. *)
Definition notNumeric (StringToNumber : string -> jsnum) (props : gmap string jsval)
    (key : string) : Prop :=
  props !! key = None \/ ToNumber StringToNumber (props !! key) = NaN.

(** A parcel collection whose only parcel carries no value attribute. *)
Definition bareParcel : GeoJSON :=
  mkGeoJSON None
    [mkRawFeature (Some (Polygon [[[0; 0]; [4; 0]; [4; 4]; [0; 0]]])) ∅].

(** The comparison step of the scan in [findNearestShelter]:
    [!closest || distanceKm < closest.distanceKm]. *)
Definition keepCloser (M : MathLib) (point : position)
    (closest : option (Shelter * jsnum)) (feature : Shelter)
  : option (Shelter * jsnum) :=
  let distanceKm := shelterDistance M point feature in
  match closest with
  | None => Some (feature, distanceKm)
  | Some (_, closestKm) =>
      if num_ltb distanceKm closestKm then Some (feature, distanceKm) else closest
  end.

(** A facility with a single coordinate (spec §3, FacilityRecord). *)
Definition singleCoordinate (s : Shelter) : Prop :=
  exists c, shelterGeometry s = ShelterPoint c.

(** Whether the scan compares the distance of a shelter: the designated
    station is skipped unless the parcel lies in its region. *)
Definition compared (isWaterIsland : bool) (s : Shelter) : bool :=
  negb (isWaterIslandStation s && negb isWaterIsland).

(** Shelters and parcels used in the examples. *)
Definition shelterA : Shelter :=
  mkShelter (Some "Charlotte Amalie High School"%string) (ShelterPoint (1, 1)).
Definition shelterB : Shelter :=
  mkShelter (Some "Lockhart Elementary"%string) (ShelterPoint (3, 3)).
Definition shelterW : Shelter :=
  mkShelter (Some " water island station "%string) (ShelterPoint (9, 9)).
Definition shelterM : Shelter :=
  mkShelter (Some "Bertha C. Boschulte"%string) (ShelterMultiPoint [(7, 7)]).
Definition waterIslandParcel : Feature :=
  mkFeature (Polygon [squareRing]) {[ "Tax_Legal_"%string := JStr "Lot 12 Water Island" ]}
            None None.
Definition mainlandParcel : Feature :=
  mkFeature (Polygon [squareRing]) {[ "Tax_Legal_"%string := JStr "Estate Thomas" ]}
            None None.

(** Vocabulary of the percentile rules (spec §4.6). *)

(** Positional indices, counted from [i], of the entries equal to [v]. *)
Fixpoint matchingFrom (i : nat) (l : list Q) (v : Q) : list nat :=
  match l with
  | [] => []
  | x :: l' =>
      if Qeqb x v then i :: matchingFrom (S i) l' v else matchingFrom (S i) l' v
  end.

Definition matchingIndices (sorted : list Q) (v : Q) : list nat :=
  matchingFrom 0 sorted v.

Definition sumQ (l : list Q) : Q := fold_right Qplus 0 l.

(** Mean of a list of positional indices. *)
Definition meanIndex (indices : list nat) : Q :=
  sumQ (map natQ indices) / natQ (length indices).

(** The distribution holds at least two distinct finite values. *)
Definition twoDistinct (values : list jsnum) : Prop :=
  exists a b, In (Fin a) values /\ In (Fin b) values /\ ~ a == b.

Definition exampleDistribution : list jsnum := [Fin 10; Fin 20; Fin 20; Fin 30].
Definition tiedMinimum : list jsnum := [Fin 10; Fin 10; Fin 20; Fin 30].

(** Vocabulary of the containment test (spec §4.3). *)

(** The edges a ring presents to the loop of [pointInRing], as pairs
    (vertex [j], vertex [i]): the closing edge first, then the consecutive
    ones. *)
Fixpoint edgesFrom (prev : position) (rest : ring) : list (position * position) :=
  match rest with
  | [] => []
  | cur :: rest' => (prev, cur) :: edgesFrom cur rest'
  end.

Definition edges (r : ring) : list (position * position) :=
  match r with
  | [] => []
  | v :: _ => edgesFrom (List.last r v) r
  end.

(** The horizontal ray from the point towards larger x crosses the edge. *)
Definition crossesRay (p : position) (e : position * position) : bool :=
  intersect p (snd e) (fst e).

Definition parity (l : list bool) : bool := fold_right xorb false l.

(** Ray-casting parity test: the ray crosses an odd number of edges. *)
Definition rayParity (p : position) (r : ring) : bool :=
  Nat.odd (length (List.filter (crossesRay p) (edges r))).

(** Containment in one polygon: inside ring 0, inside no later ring. *)
Definition insidePolygon (p : position) (rings : list ring) : bool :=
  match rings with
  | [] => false
  | outer :: holes => rayParity p outer && forallb (fun h => negb (rayParity p h)) holes
  end.

(** The position lies in the closed box. *)
Definition withinBox (b : BoundingBox) (c : position) : Prop :=
  let '(minLon, minLat, maxLon, maxLat) := b in
  minLon <= fst c /\ fst c <= maxLon /\ minLat <= snd c /\ snd c <= maxLat.

(** The vertex lies strictly above the horizontal line through [y]. *)
Definition above (y : Q) (v : position) : bool := Qgtb (snd v) y.

(** Abscissa at height [y] of the line through [cur] and [prev], as
    [pointInRing] computes it. *)
Definition abscissaAt (y : Q) (cur prev : position) : Q :=
  ((fst prev - fst cur) * (y - snd cur)) / (snd prev - snd cur + 0) + fst cur.

(** Invariants of the accumulators of [geometryBounds]. *)
Definition minCovers (m : jsnum) (x : Q) : Prop :=
  match m with Fin a => a <= x | _ => False end.

Definition maxCovers (m : jsnum) (x : Q) : Prop :=
  match m with Fin a => x <= a | _ => False end.

Definition accCovers (acc : BoundsAcc) (c : position) : Prop :=
  minCovers (minLon acc) (fst c) /\ minCovers (minLat acc) (snd c) /\
  maxCovers (maxLon acc) (fst c) /\ maxCovers (maxLat acc) (snd c).

(** A minimum is still [Infinity] or finite, a maximum still [-Infinity]
    or finite. *)
Definition accSound (acc : BoundsAcc) : Prop :=
  match minLon acc, minLat acc, maxLon acc, maxLat acc with
  | (Fin _ | PosInf), (Fin _ | PosInf), (Fin _ | NegInf), (Fin _ | NegInf) => True
  | _, _, _, _ => False
  end.

(** A feature whose polygon has a hole, and a point in the hole. *)
Definition holedFeature : Feature := indexFeature (Polygon [squareRing; holeRing]) ∅.

(** Vocabulary of convex polygons (spec §8, property 1). *)

(** Twice the signed area of the triangle [a b c]: positive when [c] lies
    strictly to the left of the directed line from [a] to [b]. *)
Definition cross (a b c : position) : Q :=
  (fst b - fst a) * (snd c - snd a) - (snd b - snd a) * (fst c - fst a).

(** The same point of the plane. *)
Definition samePoint (u v : position) : Prop :=
  fst u == fst v /\ snd u == snd v.

(** [v] lies on the closed segment from [a] to [b]. *)
Definition onSegment (a b v : position) : Prop :=
  cross a b v == 0 /\
  (fst a - fst v) * (fst b - fst v) + (snd a - snd v) * (snd b - snd v) <= 0.

(** A convex polygon given by its vertices in counter-clockwise order
    (without repeating the first vertex): at least three vertices, every
    vertex in the closed left half-plane of every edge, the vertices
    pairwise distinct, and no vertex on an edge other than as one of its
    end points. *)
Definition convexCCW (vs : list position) : Prop :=
  (3 <= length vs)%nat /\
  (forall a b v, In (a, b) (edges vs) -> In v vs -> 0 <= cross a b v) /\
  (forall i j u v, vs !! i = Some u -> vs !! j = Some v -> samePoint u v -> i = j) /\
  (forall a b v, In (a, b) (edges vs) -> In v vs -> onSegment a b v ->
     samePoint v a \/ samePoint v b).

(** Strictly inside: strictly left of every edge.  Strictly outside:
    strictly right of some edge. *)
Definition leftOfAllEdges (p : position) (vs : list position) : Prop :=
  forall a b, In (a, b) (edges vs) -> 0 < cross a b p.

Definition rightOfSomeEdge (p : position) (vs : list position) : Prop :=
  exists a b, In (a, b) (edges vs) /\ cross a b p < 0.

(** The same for a polygon given in either orientation. *)
Definition strictlyInside (p : position) (vs : list position) : Prop :=
  (convexCCW vs /\ leftOfAllEdges p vs) \/
  (convexCCW (rev vs) /\ leftOfAllEdges p (rev vs)).

Definition strictlyOutside (p : position) (vs : list position) : Prop :=
  (convexCCW vs /\ rightOfSomeEdge p vs) \/
  (convexCCW (rev vs) /\ rightOfSomeEdge p (rev vs)).

(** The ring that stores the polygon: its vertices, optionally closed by
    repeating the first one (as GeoJSON rings are). *)
Definition ringOfVertices (vs : list position) (r : ring) : Prop :=
  r = vs \/ exists v rest, vs = v :: rest /\ r = vs ++ [v].

(** The edge goes up, respectively down, through the height [y]. *)
Definition upEdge (y : Q) (e : position * position) : bool :=
  negb (above y (fst e)) && above y (snd e).

Definition downEdge (y : Q) (e : position * position) : bool :=
  above y (fst e) && negb (above y (snd e)).

Definition triangle : list position := [(0, 0); (4, 0); (0, 4)].

(** Auxiliary notions of the proofs about convex polygons. *)

(** The flag [h] is off at the start of the edge and on at its end. *)
Definition rise (h : position -> bool) (e : position * position) : bool :=
  negb (h (fst e)) && h (snd e).

(** Cotangent of the direction from [p] to [v]. *)
Definition slopeFrom (p v : position) : Q :=
  (fst v - fst p) / (snd v - snd p).

Definition swapEdge (e : position * position) : position * position := (snd e, fst e).

(** The consecutive pairs of a list, without the closing pair. *)
Definition chain (l : list position) : list (position * position) :=
  match l with
  | [] => []
  | x :: l' => edgesFrom x l'
  end.

(** Vocabulary of scans that stop at the first decisive element. *)

(** A scan that stops at the first element whose test does not return
    false: element [a], at index [i], is the first one, and its test gives
    [o]. *)
Definition decidesAt {A : Type} (test : A -> outcome bool) (l : list A)
    (i : nat) (a : A) (o : outcome bool) : Prop :=
  l !! i = Some a /\ test a = o /\
  forall j b, (j < i)%nat -> l !! j = Some b -> test b = Returns false.

(** The value of such a scan. *)
Fixpoint firstDecisive {A : Type} (test : A -> outcome bool) (l : list A)
  : outcome (option A) :=
  match l with
  | [] => Returns None
  | a :: l' =>
      match test a with
      | Throws => Throws
      | Returns true => Returns (Some a)
      | Returns false => firstDecisive test l'
      end
  end.

(** The features of the layers [zones], each with the id of its layer, in
    the order in which the classifier visits them. *)
Definition visitOrder (zoneFeatureMap : gmap string (list Feature)) (zones : list string)
  : list (string * Feature) :=
  flat_map (fun z => map (pair z) (zoneFeatures zoneFeatureMap z)) zones.

(** The test of one polygon: inside ring 0 and inside no later ring; it
    raises without a ring 0. *)
Definition polygonTest (p : position) (rings : list ring) : outcome bool :=
  match rings with
  | [] => Throws
  | _ => Returns (insidePolygon p rings)
  end.

(** A MultiPolygon whose second polygon has no ring. *)
Definition twoPartFeature : Feature := indexFeature (MultiPolygon [[squareRing]; []]) ∅.

(** The values per square metre that the loader keeps for the breaks:
    the finite ones from 0.1 to 5000. *)
Definition inPlausibleRange (v : jsnum) : option Q :=
  match v with
  | Fin q => if Qleb (1 # 10) q && Qleb q 5000 then Some q else None
  | _ => None
  end.

(** * Further functions of the engine *)

(** ** GeometryIndexer: [geometryCentroid] *)

(** The closure [accumulate]: the component sums, starting from
    [[0, 0]]. *)
Definition accumulate (coords : list position) : position :=
  fold_left (fun acc pair => (fst acc + fst pair, snd acc + snd pair)) coords (0, 0).

(** [[sum[0] / clean.length, sum[1] / clean.length]] behind the guard
    [if (!clean.length) return null]. *)
Definition vertexMean (clean : list position) : option position :=
  match clean with
  | [] => None
  | _ =>
      let sum := accumulate clean in
      Some (fst sum / natQ (length clean), snd sum / natQ (length clean))
  end.

Definition finitePosition (c : position) : jsnum * jsnum := (Fin (fst c), Fin (snd c)).

(** [geometryCentroid] on a geometry that is not null.  The MultiPoint
    branch divides without a guard; the Polygon branch reads
    [coordinates[0].filter] and raises when there is no ring; the
    MultiPolygon branch takes [poly[0] || []] and drops the polygons
    without a vertex mean. *)
Definition geometryCentroid (g : Geometry position) : outcome (option (jsnum * jsnum)) :=
  match g with
  | Point c => Returns (Some (finitePosition c))
  | MultiPoint cs =>
      let sum := accumulate cs in
      let n := Fin (natQ (length cs)) in
      Returns (Some (num_div (Fin (fst sum)) n, num_div (Fin (snd sum)) n))
  | LineString cs => Returns (finitePosition <$> vertexMean cs)
  | Polygon rings =>
      match rings with
      | [] => Throws
      | outer :: _ => Returns (finitePosition <$> vertexMean outer)
      end
  | MultiPolygon polys =>
      let centroids :=
        omap (fun poly : list ring =>
                vertexMean (match poly with [] => [] | outer :: _ => outer end))
             polys in
      Returns (finitePosition <$> vertexMean centroids)
  | MultiLineString _ | OtherGeometry _ => Returns None
  end.

(** Each bound of the box is a coordinate of one of the positions. *)
Definition boxAttained (b : BoundingBox) (cs : list position) : Prop :=
  let '(minLon, minLat, maxLon, maxLat) := b in
  (exists c, In c cs /\ fst c = minLon) /\ (exists c, In c cs /\ snd c = minLat) /\
  (exists c, In c cs /\ fst c = maxLon) /\ (exists c, In c cs /\ snd c = maxLat).

(** The value of [geometryBounds] once the walk has ended. *)
Definition boundsResult (acc : BoundsAcc) : option BoundingBox :=
  match acc with
  | mkAcc (Fin a) (Fin b) (Fin c) (Fin d) => Some (a, b, c, d)
  | _ => None
  end.

(** A triangle given as a MultiPolygon with a second, empty polygon. *)
Definition triangleMulti : Geometry position :=
  MultiPolygon [[[(0, 0); (6, 0); (0, 3)]]; []].

(** The distance reported with a located parcel: to its stored centroid,
    or zero without one. *)
Definition parcelDistance (M : MathLib) (point : position) (feature : Feature) : Q :=
  match centroid feature with
  | Some c => haversine M (fst point) (snd point) (fst c) (snd c)
  | None => 0
  end.

(** Two overlapping parcels, the second with a stored centroid. *)
Definition overlappingParcels : list Feature :=
  [indexFeature (Polygon [squareRing]) {[ "Name"%string := JStr "Lot 1" ]};
   mkFeature (Polygon [squareRing]) {[ "Name"%string := JStr "Lot 2" ]} None (Some (2, 2))].

(** ** Reference-system codes *)

(** A non-empty run of decimal digits. *)
Fixpoint digitsOnly (s : string) : bool :=
  match s with
  | EmptyString => true
  | String c s' => isDigit c && digitsOnly s'
  end.

Definition epsgNumber (s : string) : Prop := s <> ""%string /\ digitsOnly s = true.

(** ** Normalisation of feature collections *)

(** The action of a position function on a geometry. *)
Definition mapGeometry {P R : Type} (f : P -> R) (g : Geometry P) : Geometry R :=
  match g with
  | Point c => Point (f c)
  | MultiPoint cs => MultiPoint (map f cs)
  | LineString cs => LineString (map f cs)
  | MultiLineString ls => MultiLineString (map (map f) ls)
  | Polygon rings => Polygon (map (map f) rings)
  | MultiPolygon polys => MultiPolygon (map (map (map f)) polys)
  | OtherGeometry t => OtherGeometry t
  end.

(** The type of a geometry and the nesting and lengths of its coordinate
    arrays, the positions themselves forgotten. *)
Definition shapeOf {P : Type} (g : Geometry P) : Geometry unit :=
  mapGeometry (fun _ => tt) g.

(** A collection with a feature without geometry and a projected code. *)
Definition mixedCollection : GeoJSON :=
  mkGeoJSON (Some "urn:ogc:def:crs:EPSG::32161"%string)
    [mkRawFeature None {[ "Name"%string := JStr "no shape" ]};
     mkRawFeature (Some (LineString [[1; 2; 3]; [4; 5; 6]])) {[ "Name"%string := JStr "line" ]}].

(** ** Parcel values *)

(** The zone ids in the order of the classifier, followed by the id used
    when no zone matches. *)
Definition zoneIdsByPriority : list string := zonePriority ++ ["none"%string].

(** ** Meters and map styling *)

(** [clampPercent]; [None] stands for an argument that is [null] or
    [undefined], for which [Number.isFinite] is false as well. *)
Definition clampPercent (value : option jsnum) : option Q :=
  match value with
  | Some (Fin v) => Some (Qmin 1 (Qmax 0 v))
  | _ => None
  end.

Definition markerPosition (percent : option jsnum) : option Q :=
  match clampPercent percent with
  | None => None
  | Some clamped => Some (Qmin (985 # 10) (Qmax (15 # 10) (clamped * 100)))
  end.

(** The marker of [createGradientMeter]:
    [markerPosition(clampPercent(percent))]; the card is empty when it is
    null. *)
Definition gradientMarker (percent : option jsnum) : option Q :=
  markerPosition (Fin <$> clampPercent percent).

Definition parcelColorRamp : list string :=
  ["#f7fbff"; "#c6dbef"; "#6baed6"; "#3182bd"; "#08519c"]%string.

(** The loop of [getParcelColor] from index [i] on: the first index whose
    break is not below the value. *)
Fixpoint colorLoop (value : Q) (breaks : list Q) (i : nat) : option nat :=
  match breaks with
  | [] => None
  | b :: rest => if Qleb value b then Some i else colorLoop value rest (S i)
  end.

(** [getParcelColor] for the current [parcelBreaks]; [None] stands for
    [undefined], an index past the ramp. *)
Definition getParcelColor (parcelBreaks : list Q) (value : jsnum) : option string :=
  match value, parcelBreaks with
  | Fin v, _ :: _ =>
      match colorLoop v parcelBreaks 0 with
      | Some i => parcelColorRamp !! i
      | None => parcelColorRamp !! (length parcelColorRamp - 1)%nat
      end
  | _, _ =>
      Some (default "#3182bd"%string (parcelColorRamp !! (length parcelColorRamp / 2)%nat))
  end.

(** [getParcelStrokeWidth]; the argument is [map.getZoom()]. *)
Definition getParcelStrokeWidth (zoom : jsnum) : Q :=
  match zoom with
  | Fin z =>
      if Qleb z 10 then 4 # 100
      else if Qgeb z 18 then 6 # 10
      else (4 # 100) + ((z - 10) / 8) * (56 # 100)
  | _ => 6 # 10
  end.

(** Number of breaks strictly below a value: the colour class. *)
Definition colorClass (breaks : list Q) (value : Q) : nat :=
  length (List.filter (fun b => Qltb b value) breaks).

(** ** Parcel search by name: [findParcelByName] *)

Definition downcase (c : ascii) : ascii :=
  let n := nat_of_ascii c in
  if (65 <=? n)%nat && (n <=? 90)%nat then ascii_of_nat (n + 32) else c.

Fixpoint toLowerCase (s : string) : string :=
  match s with
  | EmptyString => EmptyString
  | String c s' => String (downcase c) (toLowerCase s')
  end.

(** [s.indexOf(t)]; [None] stands for -1. *)
Fixpoint indexOf (s t : string) : option nat :=
  if String.prefix t s then Some 0%nat
  else match s with
       | EmptyString => None
       | String _ s' => S <$> indexOf s' t
       end.

(** [(feature.properties?.displayName || "").trim()]: a value that is
    truthy and not a string has no [trim], and the call raises. *)
Definition displayNameOf (feature : Feature) : outcome string :=
  match properties feature !! "displayName"%string with
  | None | Some JUndefined | Some JNull | Some (JBool false) => Returns ""%string
  | Some (JStr s) => Returns (trim s)
  | Some (JNum n) => if num_truthy n then Throws else Returns ""%string
  | Some (JBool true) => Throws
  end.

Record Candidate : Type := mkCandidate {
  cand_feature : Feature;
  cand_rank : Z;
  cand_length : nat
}.

(** The body of the loop for one feature whose trimmed name is [name]:
    the candidate pushed, if any. *)
Definition candidateOf (normalizedQuery : string) (feature : Feature) (name : string)
  : option Candidate :=
  if String.eqb name "" then None
  else
    let lowerName := toLowerCase name in
    match indexOf lowerName normalizedQuery with
    | None => None
    | Some index =>
        let rank :=
          if String.eqb lowerName normalizedQuery then (-2)%Z
          else if (index =? 0)%nat then (-1)%Z
          else Z.of_nat index in
        Some (mkCandidate feature rank (String.length name))
    end.

Fixpoint collectCandidates (normalizedQuery : string) (features : list Feature)
  : outcome (list Candidate) :=
  match features with
  | [] => Returns []
  | feature :: rest =>
      match displayNameOf feature with
      | Throws => Throws
      | Returns name =>
          match collectCandidates normalizedQuery rest with
          | Throws => Throws
          | Returns candidates =>
              Returns (match candidateOf normalizedQuery feature name with
                       | Some c => c :: candidates
                       | None => candidates
                       end)
          end
      end
  end.

(** The comparator handed to [sort]. *)
Definition compareCandidates (a b : Candidate) : Z :=
  if negb (Z.eqb (cand_rank a) (cand_rank b)) then cand_rank a - cand_rank b
  else Z.of_nat (cand_length a) - Z.of_nat (cand_length b).

(** [candidates.sort(...)]: the sort is stable; insertion from the right
    keeps the stored order among candidates that compare equal. *)
Fixpoint insertCandidate (x : Candidate) (l : list Candidate) : list Candidate :=
  match l with
  | [] => [x]
  | y :: l' =>
      if (compareCandidates x y <=? 0)%Z then x :: l else y :: insertCandidate x l'
  end.

Definition sortCandidates (l : list Candidate) : list Candidate :=
  fold_right insertCandidate [] l.

Definition findParcelByName (parcelCollection : option (list Feature)) (query : string)
  : outcome (option Feature) :=
  if String.eqb query "" then Returns None
  else
    match parcelCollection with
    | None => Returns None
    | Some features =>
        let normalizedQuery := toLowerCase (trim query) in
        if String.eqb normalizedQuery "" then Returns None
        else
          match collectCandidates normalizedQuery features with
          | Throws => Throws
          | Returns candidates => Returns (cand_feature <$> head (sortCandidates candidates))
          end
    end.

(** The sort key of a feature for a query: rank and name length, when its
    name holds the query. *)
Definition searchKey (normalizedQuery : string) (feature : Feature) : option (Z * nat) :=
  match displayNameOf feature with
  | Returns name =>
      (fun c => (cand_rank c, cand_length c)) <$> candidateOf normalizedQuery feature name
  | Throws => None
  end.

Definition candKey (c : Candidate) : Z * nat := (cand_rank c, cand_length c).

(** The order of the comparator on keys, and its strict part. *)
Definition keyLe (a b : Z * nat) : Prop :=
  (fst a < fst b)%Z \/ (fst a = fst b /\ (snd a <= snd b)%nat).

Definition keyLt (a b : Z * nat) : Prop :=
  (fst a < fst b)%Z \/ (fst a = fst b /\ (snd a < snd b)%nat).

(** [g] is the first feature, in stored order, with the least key. *)
Definition firstBestMatch (normalizedQuery : string) (features : list Feature) (g : Feature)
  : Prop :=
  exists k kg, features !! k = Some g /\ searchKey normalizedQuery g = Some kg /\
    (forall f kf, f ∈ features -> searchKey normalizedQuery f = Some kf -> keyLe kg kf) /\
    (forall j h kh, (j < k)%nat -> features !! j = Some h ->
       searchKey normalizedQuery h = Some kh -> keyLt kg kh).

Definition namedParcel (name : string) : Feature :=
  mkFeature (Polygon [squareRing]) {[ "displayName"%string := JStr name ]} None None.

Definition searchParcels : list Feature :=
  [namedParcel "Estate Bovoni 12"; namedParcel "Bovoni"; namedParcel "bovoni";
   namedParcel "Bovoni Bay"].

(** ** Shelter scan *)

(** The shelters whose distance the scan of [findNearestShelter]
    compares, in stored order. *)
Definition scanned (isWaterIsland : bool) (shelterFeatures : list Shelter) : list Shelter :=
  List.filter (compared isWaterIsland) shelterFeatures.

(** [getShelterLonLat]: the position of a Point, the first position of a
    MultiPoint. *)
Definition getShelterLonLat (feature : Shelter) : option position :=
  match shelterGeometry feature with
  | ShelterPoint c => Some c
  | ShelterMultiPoint (c :: _) => Some c
  | ShelterMultiPoint [] => None
  end.

(** Two shelters at the same place. *)
Definition shelterTwin : Shelter :=
  mkShelter (Some "Ivanna Eudora Kean High School"%string) (ShelterPoint (1, 1)).

(** ** Parcel loader *)

(** A pair of numbers as a position, when both are finite. *)
Definition finitePair (c : jsnum * jsnum) : option position :=
  match c with
  | (Fin x, Fin y) => Some (x, y)
  | _ => None
  end.

(** [[Number(properties.LONGITUDE), Number(properties.LATITUDE)]], when
    both are finite. *)
Definition fallbackLonLat (StringToNumber : string -> jsnum) (props : gmap string jsval)
  : option position :=
  finitePair (ToNumber StringToNumber (props !! "LONGITUDE"%string),
              ToNumber StringToNumber (props !! "LATITUDE"%string)).

(** [centroidCoords] of [loadParcelValues]: the geometry's centroid when
    finite, else the attribute pair, else null. *)
Definition centroidCoords (StringToNumber : string -> jsnum) (g : Geometry position)
    (props : gmap string jsval) : outcome (option position) :=
  match geometryCentroid g with
  | Throws => Throws
  | Returns computed =>
      Returns (match computed ≫= finitePair with
               | Some c => Some c
               | None => fallbackLonLat StringToNumber props
               end)
  end.

(** Truthiness of an attribute value. *)
Definition js_truthy (v : option jsval) : bool :=
  match v with
  | None | Some JUndefined | Some JNull => false
  | Some (JBool b) => b
  | Some (JNum n) => num_truthy n
  | Some (JStr s) => negb (String.eqb s "")
  end.

(** [feature.properties?.Name || "Unnamed Parcel"] *)
Definition displayNameValue (props : gmap string jsval) : jsval :=
  if js_truthy (props !! "Name"%string) then default JUndefined (props !! "Name"%string)
  else JStr "Unnamed Parcel".

(** The parcel record built by the [map] callback of [loadParcelValues]
    for a normalised feature with geometry [g]: the attributes with the
    derived figures added, [__bounds] and [__centroid]. *)
Definition loadParcel (StringToNumber : string -> jsnum) (g : Geometry position)
    (props : gmap string jsval) : outcome Feature :=
  match centroidCoords StringToNumber g props with
  | Throws => Throws
  | Returns stored =>
      let m := parcelMetrics StringToNumber props in
      Returns
        (mkFeature g
           (<["displayName"%string := displayNameValue props]>
              (<["valuePerAcre"%string := JNum (valuePerAcre m)]>
                 (<["valuePerSqMeter"%string := JNum (valuePerSqMeter m)]>
                    (<["totalValue"%string := JNum (totalValue m)]>
                       (<["improvementValue"%string := JNum (improvementValue m)]>
                          (<["landValue"%string := JNum (landValue m)]> props))))))
           (geometryBounds g) stored)
  end.

(** [getParcelLonLat]: the stored centroid, else the attribute pair, else
    the centroid of the geometry. *)
Definition getParcelLonLat (StringToNumber : string -> jsnum) (parcelFeature : option Feature)
  : outcome (option position) :=
  match parcelFeature with
  | None => Returns None
  | Some f =>
      match centroid f with
      | Some c => Returns (Some c)
      | None =>
          match fallbackLonLat StringToNumber (properties f) with
          | Some c => Returns (Some c)
          | None =>
              match geometryCentroid (geometry f) with
              | Throws => Throws
              | Returns computed => Returns (computed ≫= finitePair)
              end
          end
      end
  end.

(** A triangle parcel with fallback coordinates that differ from its
    centroid. *)
Definition surveyedParcel : gmap string jsval :=
  {[ "Land_Value"%string := JNum (Fin 30000);
     "Improved_V"%string := JNum (Fin 50000);
     "LONGITUDE"%string := JNum (Fin 9);
     "LATITUDE"%string := JNum (Fin 9) ]}.

(** ** Assumptions on the numeric library *)

(** The functions of [Math] respect equality of rationals, the sine is
    odd, the square root fixes 0 and 1, and the arctangent of 0 over a
    positive number is 0. *)
Record MathLaws (M : MathLib) : Prop := mkMathLaws {
  sin_compat : forall x y, x == y -> Math_sin M x == Math_sin M y;
  cos_compat : forall x y, x == y -> Math_cos M x == Math_cos M y;
  sqrt_compat : forall x y, x == y -> Math_sqrt M x == Math_sqrt M y;
  atan2_compat : forall x y x' y', x == x' -> y == y' ->
    Math_atan2 M x y == Math_atan2 M x' y';
  sin_odd : forall x, Math_sin M (- x) == - Math_sin M x;
  sqrt_zero : Math_sqrt M 0 == 0;
  sqrt_one : Math_sqrt M 1 == 1;
  atan2_zero : forall y, 0 < y -> Math_atan2 M 0 y == 0
}.

(** ** Legend of the parcel layer *)

(** [[stats.min, ...parcelBreaks, stats.max]] of [updateParcelLegend],
    for the sorted plausible [values] when there are any: [parcelStats]
    holds [values[0]] and [values[values.length - 1]]. *)
Definition legendStops (values : list Q) : option (list Q) :=
  match values with
  | [] => None
  | _ =>
      Some (at_index values 0 :: parcelBreaks values
              ++ [at_index values (length values - 1)])
  end.

(** ** The ring loop with the edge test left open *)

(** The loop of [pointInRing] for an edge test [crosses cur prev] (vertex
    [i] is [cur], vertex [j] is [prev]) over vertices of any type. *)
Section RingScan.

Context {P : Type} (crosses : P -> P -> bool).

Fixpoint ringScanFrom (prev : P) (rest : list P) (inside : bool) : bool :=
  match rest with
  | [] => inside
  | cur :: rest' =>
      ringScanFrom cur rest' (if crosses cur prev then negb inside else inside)
  end.

Definition ringScan (r : list P) : bool :=
  match r with
  | [] => false
  | v :: _ => ringScanFrom (List.last r v) r false
  end.

(** The values of the edge test along the loop. *)
Fixpoint crossingsFrom (prev : P) (rest : list P) : list bool :=
  match rest with
  | [] => []
  | cur :: rest' => crosses cur prev :: crossingsFrom cur rest'
  end.

Definition crossings (r : list P) : list bool :=
  match r with
  | [] => []
  | v :: _ => crossingsFrom (List.last r v) r
  end.

End RingScan.

(** ** The ring test in double precision *)

(** [pointInRing] on IEEE doubles: the same loop, with the edge test
    evaluated in binary64 arithmetic (round to nearest, ties to even). *)
Module Double.

Import PrimFloat.

Definition position : Type := (float * float)%type.

Definition intersect (point cur prev : position) : bool :=
  let '(x, y) := point in
  let '(xi, yi) := cur in
  let '(xj, yj) := prev in
  negb (Bool.eqb (ltb y yi) (ltb y yj)) &&
  ltb x (add (div (mul (sub xj xi) (sub y yi)) (add (sub yj yi) zero)) xi).

Definition pointInRing (point : position) (r : list position) : bool :=
  ringScan (intersect point) r.

(** The rational number that a finite double denotes. *)
Definition valueOf (f : float) : Q :=
  match FloatOps.Prim2SF f with
  | SpecFloat.S754_finite s m e =>
      (if s then -1 else 1) * inject_Z (Zpos m) * Qpower 2 e
  | _ => 0
  end.

Definition exact (c : position) : Q * Q := (valueOf (fst c), valueOf (snd c)).

(** A ring, and a point to the west of all its vertices. *)
Definition sliverRing : list position :=
  [(-0x1.ccccccccccccdp-1, -0x1.999999999999ap-1)%float;
   (-0x1.3333333333333p-1, 0x1.999999999999ap-4)%float;
   (-0x1.999999999999ap-1, -0x1.ccccccccccccdp-1)%float;
   (-0x1.ccccccccccccdp-1, -0x1.999999999999ap-1)%float].
Definition westOfSliver : position :=
  (-0x1.ccccccccccccep-1, -0x1.999999999999ap-1)%float.

(** A triangle in counter-clockwise order, and a point strictly inside. *)
Definition leanTriangle : list position :=
  [(-0x1.3333333333333p-1, 0x1.3333333333333p-1)%float;
   (-0x1.6666666666666p-1, -0x1.999999999999ap-4)%float;
   (-0x1.0000000000000p-1, 0x1.ccccccccccccdp-1)%float].
Definition insideLean : position :=
  (-0x1.360ac637a8dc3p-1, 0x1.7d2ddb6d00ffap-2)%float.

(** A triangle, and a point strictly outside. *)
Definition flatTriangle : list position :=
  [(0, 0x1.ccccccccccccdp-1)%float;
   (0x1.3333333333333p-1, 0x1.6666666666666p-1)%float;
   (0x1.3333333333333p-2, 0x1.ccccccccccccdp-1)%float].
Definition outsideFlat : position :=
  (0x1.270d2bf90adc8p-2, 0x1.9b9ff0234afd6p-1)%float.

End Double.

(** * Theorems *)

(** ** Comparisons and sorting *)

(** Boolean comparisons on [Q]. *)
Lemma Qltb_lt a b : Qltb a b = true <-> a < b.
Proof.
  unfold Qltb. rewrite negb_true_iff, <- not_true_iff_false, Qle_bool_iff.
  split; [apply Qnot_le_lt | apply Qlt_not_le].
Qed.

Lemma Qltb_ge a b : Qltb a b = false <-> b <= a.
Proof.
  unfold Qltb. rewrite negb_false_iff. apply Qle_bool_iff.
Qed.

Lemma Qleb_le a b : Qleb a b = true <-> a <= b.
Proof. apply Qle_bool_iff. Qed.

Lemma Qleb_gt a b : Qleb a b = false <-> b < a.
Proof.
  unfold Qleb. rewrite <- not_true_iff_false, Qle_bool_iff.
  split; [apply Qnot_le_lt | apply Qlt_not_le].
Qed.

Lemma Qgtb_gt a b : Qgtb a b = true <-> b < a.
Proof. apply Qltb_lt. Qed.

Lemma Qgtb_le a b : Qgtb a b = false <-> a <= b.
Proof. apply Qltb_ge. Qed.

Lemma Qgeb_ge a b : Qgeb a b = true <-> b <= a.
Proof. apply Qle_bool_iff. Qed.

Lemma Qgeb_lt a b : Qgeb a b = false <-> a < b.
Proof. apply Qleb_gt. Qed.

Lemma Qeqb_eq a b : Qeqb a b = true <-> a == b.
Proof. apply Qeq_bool_iff. Qed.

Lemma Qeqb_neq a b : Qeqb a b = false <-> ~ a == b.
Proof. unfold Qeqb. rewrite <- not_true_iff_false, Qeq_bool_iff. tauto. Qed.

(** [sortAsc] sorts. *)
Lemma insertAsc_perm x l : insertAsc x l ≡ₚ x :: l.
Proof.
  induction l as [|y l IH]; simpl; [done|].
  destruct (Qleb x y); [done|]. rewrite IH. apply Permutation_swap.
Qed.

Lemma sortAsc_perm l : sortAsc l ≡ₚ l.
Proof.
  induction l as [|x l IH]; simpl; [done|].
  by rewrite insertAsc_perm, IH.
Qed.

Lemma insertAsc_sorted x l :
  StronglySorted Qle l -> StronglySorted Qle (insertAsc x l).
Proof.
  induction 1 as [|y l Hs IH Hall]; simpl.
  - repeat constructor.
  - destruct (Qleb x y) eqn:E.
    + apply Qleb_le in E. constructor; [by constructor|].
      constructor; [done|]. eapply Forall_impl; [exact Hall|].
      intros z Hz. simpl in Hz. lra.
    + apply Qleb_gt in E. constructor; [done|].
      rewrite insertAsc_perm. constructor; [lra|done].
Qed.

Lemma sortAsc_sorted l : StronglySorted Qle (sortAsc l).
Proof.
  induction l as [|x l IH]; simpl; [constructor|by apply insertAsc_sorted].
Qed.

Lemma sortAsc_length l : length (sortAsc l) = length l.
Proof. apply Permutation_length, sortAsc_perm. Qed.

Lemma at_index_In (l : list Q) i : (i < length l)%nat -> In (at_index l i) l.
Proof. intros H. unfold at_index. by apply nth_In. Qed.

Lemma sorted_at_index_le (l : list Q) i j :
  StronglySorted Qle l -> (i <= j)%nat -> (j < length l)%nat ->
  at_index l i <= at_index l j.
Proof.
  unfold at_index. intros Hs. revert i j.
  induction Hs as [|x l Hs IH Hall]; intros i j Hij Hj; simpl in Hj; [lia|].
  destruct i as [|i], j as [|j]; simpl; try lia.
  - lra.
  - rewrite Forall_forall in Hall. apply Hall, list_elem_of_In, nth_In. lia.
  - apply IH; lia.
Qed.


(** ** ZoneClassifier *)

Lemma multiPolygonLoop_total p polys :
  forallb (fun rings : list ring => match rings with [] => false | _ => true end) polys = true ->
  exists b, multiPolygonLoop p polys = Returns b.
Proof.
  induction polys as [|rings polys IH]; simpl; intros H; [eauto|].
  apply andb_true_iff in H as [H1 H2].
  destruct rings as [|outer holes]; [discriminate|]. simpl.
  destruct (pointInRing p outer); [|auto].
  destruct (negb _); eauto.
Qed.

Lemma contains_total p f :
  hasOuterRing (geometry f) = true -> exists b, contains p f = Returns b.
Proof.
  unfold contains, pointInPolygon. intros H.
  destruct (boundsReject p f); [eauto|].
  destruct (geometry f) as [| | | |rings|polys|]; simpl in *; eauto.
  - destruct rings; [discriminate|]. simpl. destruct (pointInRing _ _); eauto.
  - by apply multiPolygonLoop_total.
Qed.

Lemma scanFeatures_cons p f rest :
  scanFeatures p (f :: rest) =
  match contains p f with
  | Throws => Throws
  | Returns true => Returns (Some f)
  | Returns false => scanFeatures p rest
  end.
Proof. simpl. unfold contains. by destruct (boundsReject p f). Qed.

Lemma scanFeatures_total p fs :
  layerWellFormed fs -> exists r, scanFeatures p fs = Returns r.
Proof.
  induction 1 as [|f fs Hf _ IH]; [simpl; eauto|].
  rewrite scanFeatures_cons.
  destruct (contains_total p f Hf) as [[] ->]; eauto.
Qed.

Lemma scanFeatures_None p fs :
  layerWellFormed fs ->
  scanFeatures p fs = Returns None <->
  forall f, f ∈ fs -> contains p f <> Returns true.
Proof.
  induction 1 as [|f fs Hf _ IH].
  - simpl. split; [|done]. intros _ f Hin. by apply not_elem_of_nil in Hin.
  - rewrite scanFeatures_cons.
    destruct (contains_total p f Hf) as [[] Hc]; rewrite Hc.
    + split; [done|]. intros H. exfalso. apply (H f); [left|done].
    + rewrite IH. split.
      * intros H g Hg. apply elem_of_cons in Hg as [->|Hg]; [by rewrite Hc|by apply H].
      * intros H g Hg. apply H. by right.
Qed.

Lemma scanFeatures_Some p fs f :
  layerWellFormed fs ->
  scanFeatures p fs = Returns (Some f) <-> firstContaining p fs f.
Proof.
  induction 1 as [|g fs Hg _ IH].
  - simpl. split; [done|]. intros (k & Hk & _). by rewrite lookup_nil in Hk.
  - rewrite scanFeatures_cons.
    destruct (contains_total p g Hg) as [[] Hc]; rewrite Hc.
    + split.
      * intros [= <-]. exists 0%nat. split; [done|]. split; [done|]. intros; lia.
      * intros (k & Hk & Hf & Hbefore). destruct k as [|k].
        -- simpl in Hk. by inversion Hk.
        -- specialize (Hbefore 0%nat g ltac:(lia) eq_refl). congruence.
    + rewrite IH. split.
      * intros (k & Hk & Hf & Hbefore). exists (S k). split; [done|]. split; [done|].
        intros [|j] h Hj Hh; simpl in Hh; [by inversion Hh; subst|].
        apply (Hbefore j); [lia|done].
      * intros (k & Hk & Hf & Hbefore). destruct k as [|k].
        -- simpl in Hk. inversion Hk; subst. congruence.
        -- exists k. split; [done|]. split; [done|].
           intros j h Hj Hh. apply (Hbefore (S j)); [lia|done].
Qed.

(** A scan that stops at the first decisive element: its three
    outcomes. *)
Lemma firstDecisive_Some {A} (test : A -> outcome bool) l a :
  firstDecisive test l = Returns (Some a) <-> exists i, decidesAt test l i a (Returns true).
Proof.
  induction l as [|b l IH]; simpl.
  - split; [done|]. intros (i & Hi & _). by rewrite lookup_nil in Hi.
  - destruct (test b) as [[]|] eqn:Eb.
    + split.
      * intros [= <-]. exists 0%nat. split; [done|]. split; [done|]. intros; lia.
      * intros ([|i] & Hi & Ha & Hbefore).
        -- simpl in Hi. by inversion Hi.
        -- specialize (Hbefore 0%nat b ltac:(lia) eq_refl). congruence.
    + rewrite IH. split.
      * intros (i & Hi & Ha & Hbefore). exists (S i). split; [done|]. split; [done|].
        intros [|j] c Hj Hc; simpl in Hc; [by inversion Hc; subst|].
        apply (Hbefore j); [lia|done].
      * intros ([|i] & Hi & Ha & Hbefore).
        -- simpl in Hi. inversion Hi; subst. congruence.
        -- exists i. split; [done|]. split; [done|].
           intros j c Hj Hc. apply (Hbefore (S j)); [lia|done].
    + split; [done|].
      intros ([|i] & Hi & Ha & Hbefore).
      * simpl in Hi. inversion Hi; subst. congruence.
      * specialize (Hbefore 0%nat b ltac:(lia) eq_refl). congruence.
Qed.

Lemma firstDecisive_Throws {A} (test : A -> outcome bool) l :
  firstDecisive test l = Throws <-> exists i a, decidesAt test l i a Throws.
Proof.
  induction l as [|b l IH]; simpl.
  - split; [done|]. intros (i & a & Hi & _). by rewrite lookup_nil in Hi.
  - destruct (test b) as [[]|] eqn:Eb.
    + split; [done|].
      intros ([|i] & a & Hi & Ha & Hbefore).
      * simpl in Hi. inversion Hi; subst. congruence.
      * specialize (Hbefore 0%nat b ltac:(lia) eq_refl). congruence.
    + rewrite IH. split.
      * intros (i & a & Hi & Ha & Hbefore). exists (S i), a. split; [done|]. split; [done|].
        intros [|j] c Hj Hc; simpl in Hc; [by inversion Hc; subst|].
        apply (Hbefore j); [lia|done].
      * intros ([|i] & a & Hi & Ha & Hbefore).
        -- simpl in Hi. inversion Hi; subst. congruence.
        -- exists i, a. split; [done|]. split; [done|].
           intros j c Hj Hc. apply (Hbefore (S j)); [lia|done].
    + split; [|done]. intros _. exists 0%nat, b. split; [done|]. split; [done|]. intros; lia.
Qed.

Lemma firstDecisive_None {A} (test : A -> outcome bool) l :
  firstDecisive test l = Returns None <-> forall a, a ∈ l -> test a = Returns false.
Proof.
  induction l as [|b l IH]; simpl.
  - split; [|done]. intros _ a Ha. by apply not_elem_of_nil in Ha.
  - destruct (test b) as [[]|] eqn:Eb.
    + split; [done|]. intros H. specialize (H b ltac:(left)). congruence.
    + rewrite IH. split.
      * intros H a Ha. apply elem_of_cons in Ha as [->|Ha]; [done|by apply H].
      * intros H a Ha. apply H. by right.
    + split; [done|]. intros H. specialize (H b ltac:(left)). congruence.
Qed.

Lemma firstDecisive_app {A} (test : A -> outcome bool) l1 l2 :
  firstDecisive test (l1 ++ l2) =
  match firstDecisive test l1 with
  | Returns None => firstDecisive test l2
  | r => r
  end.
Proof.
  induction l1 as [|a l1 IH]; simpl; [by destruct (firstDecisive test l2) as [[]|]|].
  destruct (test a) as [[]|]; try done.
Qed.

Lemma scanFeatures_firstDecisive (p : position) (z : string) (fs : list Feature) :
  firstDecisive (fun zf : string * Feature => contains p (snd zf)) (map (pair z) fs) =
  match scanFeatures p fs with
  | Throws => Throws
  | Returns (Some f) => Returns (Some (z, f))
  | Returns None => Returns None
  end.
Proof.
  induction fs as [|f fs IH]; [done|].
  cbn [map firstDecisive snd]. rewrite scanFeatures_cons.
  destruct (contains p f) as [[]|]; try done.
Qed.

Lemma scanZones_firstDecisive zm p zs :
  scanZones zm p zs =
  firstDecisive (fun zf : string * Feature => contains p (snd zf)) (visitOrder zm zs).
Proof.
  induction zs as [|z zs IH]; [done|].
  unfold visitOrder. cbn [flat_map scanZones]. rewrite firstDecisive_app.
  rewrite scanFeatures_firstDecisive.
  destruct (scanFeatures p (zoneFeatures zm z)) as [[f|]|]; try done.
Qed.

(** C1: [findFloodZone] visits the layers in the order VE, AE, AO, A, X
    and the features of a layer in stored order, and stops at the first
    feature whose containment test does not return false: it returns
    that feature tagged with its layer's id when the test is true, and
    raises when the test raises; it returns none exactly when every test
    returns false.  So a point in an AE feature is classified AE whatever
    the X layer holds, provided the VE features return false.  On a layer
    that holds a Polygon without rings the test raises: for the snapshot
    whose only feature is such a polygon no layer contains the point, and
    the classifier raises instead of returning none. *)
Theorem C1_findFloodZone_priority (zm : gmap string (list Feature)) (p : position) :
  let visited := visitOrder zm ["VE"; "AE"; "AO"; "A"; "X"]%string in
  let test := fun zf : string * Feature => contains p (snd zf) in
  zonePriority = ["VE"; "AE"; "AO"; "A"; "X"]%string /\
  (forall z f, findFloodZone zm p = Returns (Some (z, f)) <->
     exists i, decidesAt test visited i (z, f) (Returns true)) /\
  (findFloodZone zm p = Returns None <->
     forall zf, zf ∈ visited -> test zf = Returns false) /\
  (findFloodZone zm p = Throws <-> exists i zf, decidesAt test visited i zf Throws) /\
  (forall f, (forall g, g ∈ zoneFeatures zm "VE" -> contains p g = Returns false) ->
     firstContaining p (zoneFeatures zm "AE") f ->
     findFloodZone zm p = Returns (Some ("AE"%string, f))) /\
  (let snapshot : gmap string (list Feature) := {[ "VE"%string := [emptyPolygonFeature] ]} in
   bounds emptyPolygonFeature = geometryBounds (geometry emptyPolygonFeature) /\
   (forall z, ~ layerContains snapshot p z) /\
   findFloodZone snapshot p = Throws).
Proof.
  intros visited test.
  assert (Hscan : findFloodZone zm p = firstDecisive test visited)
    by apply scanZones_firstDecisive.
  split; [reflexivity|].
  split; [intros z f; rewrite Hscan; apply firstDecisive_Some|].
  split; [rewrite Hscan; apply firstDecisive_None|].
  split; [rewrite Hscan; apply firstDecisive_Throws|].
  split.
  - intros f HVE (k & Hk & Hc & Hbefore).
    rewrite Hscan. unfold test, visited, visitOrder. cbn [flat_map].
    rewrite !firstDecisive_app, !scanFeatures_firstDecisive.
    assert (scanFeatures p (zoneFeatures zm "VE") = Returns None) as ->.
    { clear -HVE. induction (zoneFeatures zm "VE") as [|g gs IH]; [done|].
      rewrite scanFeatures_cons, (HVE g) by (by left).
      apply IH. intros h Hh. apply HVE. by right. }
    assert (scanFeatures p (zoneFeatures zm "AE") = Returns (Some f)) as ->; [|done].
    clear -Hk Hc Hbefore. revert k Hk Hbefore.
    induction (zoneFeatures zm "AE") as [|g gs IH]; intros k Hk Hbefore.
    + by rewrite lookup_nil in Hk.
    + rewrite scanFeatures_cons. destruct k as [|k].
      * simpl in Hk. inversion Hk; subst. by rewrite Hc.
      * rewrite (Hbefore 0%nat g) by (done || lia).
        apply (IH k); [done|]. intros j h Hj Hh. apply (Hbefore (S j)); [lia|done].
  - split; [reflexivity|]. split; [|reflexivity].
    intros z (f & Hin & Hc). unfold zoneFeatures in Hin.
    destruct (decide (z = "VE"%string)) as [->|Hne].
    + rewrite lookup_singleton in Hin. simpl in Hin.
      apply list_elem_of_singleton in Hin as ->. discriminate Hc.
    + rewrite lookup_singleton_ne in Hin by done. simpl in Hin.
      by apply not_elem_of_nil in Hin.
Qed.

Lemma C1_findFloodZone_priority_witness :
  findFloodZone exampleZones (1, 1) = Returns (Some ("AE"%string, squareFeature)).
Proof.
  destruct (C1_findFloodZone_priority exampleZones (1, 1)) as (_ & _ & _ & _ & HAE & _).
  apply HAE.
  - intros g Hg. vm_compute in Hg. by apply not_elem_of_nil in Hg.
  - exists 0%nat. split; [reflexivity|]. split; [reflexivity|]. intros; lia.
Defined.

(** A Polygon without rings carries no bounding box, passes the
    pre-filter, and makes the classifier raise where it meets it. *)
Lemma findFloodZone_empty_polygon :
  bounds emptyPolygonFeature = None /\
  findFloodZone {[ "VE"%string := [emptyPolygonFeature] ]} (1, 1) = Throws /\
  findFloodZone {[ "VE"%string := [squareFeature; emptyPolygonFeature] ]} (1, 1)
    = Returns (Some ("VE"%string, squareFeature)).
Proof. repeat split; vm_compute; reflexivity. Qed.

(** ** Geometries that are not polygons *)

Lemma pointInPolygon_not_polygonal p f :
  polygonal (geometry f) = false -> pointInPolygon p f = Returns false.
Proof.
  unfold pointInPolygon. by destruct (geometry f).
Qed.

Lemma contains_not_polygonal p f :
  polygonal (geometry f) = false -> contains p f = Returns false.
Proof.
  intros H. unfold contains. rewrite pointInPolygon_not_polygonal by done.
  by destruct (boundsReject p f).
Qed.

Lemma scanFeatures_not_polygonal p fs :
  Forall (fun f => polygonal (geometry f) = false) fs ->
  scanFeatures p fs = Returns None.
Proof.
  induction 1 as [|f fs Hf _ IH]; [done|].
  rewrite scanFeatures_cons, contains_not_polygonal by done. exact IH.
Qed.

Lemma scanZones_not_polygonal zm p zs :
  (forall z f, f ∈ zoneFeatures zm z -> polygonal (geometry f) = false) ->
  scanZones zm p zs = Returns None.
Proof.
  intros H. induction zs as [|z zs IH]; [done|].
  simpl. rewrite scanFeatures_not_polygonal; [exact IH|].
  apply Forall_forall. intros f Hf. by apply (H z).
Qed.

Lemma scanParcels_not_polygonal M p parcels :
  Forall (fun f => polygonal (geometry f) = false) parcels ->
  scanParcels M p parcels = Returns None.
Proof.
  induction 1 as [|f fs Hf _ IH]; [done|].
  simpl. rewrite pointInPolygon_not_polygonal by done.
  by destruct (boundsReject p f).
Qed.

(** C10: for a feature whose geometry type is neither Polygon nor
    MultiPolygon (Point, MultiPoint, LineString, MultiLineString, another
    or a missing type) [pointInPolygon] and the pre-filtered containment
    test return false; so [findFloodZone] over layers of such features
    and [findParcelAtPoint] over such parcels return no match. *)
Theorem C10_non_polygon_never_matches (M : MathLib) (p : position) :
  (forall f, polygonal (geometry f) = false ->
     pointInPolygon p f = Returns false /\ contains p f = Returns false) /\
  (forall zm : gmap string (list Feature),
     (forall z f, f ∈ zoneFeatures zm z -> polygonal (geometry f) = false) ->
     findFloodZone zm p = Returns None) /\
  (forall parcels : list Feature,
     Forall (fun f => polygonal (geometry f) = false) parcels ->
     findParcelAtPoint M (Some parcels) p = Returns None).
Proof.
  split; [|split].
  - intros f Hf. split;
      [by apply pointInPolygon_not_polygonal | by apply contains_not_polygonal].
  - intros zm H. by apply scanZones_not_polygonal.
  - intros parcels H. by apply scanParcels_not_polygonal.
Qed.

Lemma C10_non_polygon_never_matches_witness :
  pointInPolygon (1, 1) lineFeature = Returns false /\
  findFloodZone {[ "VE"%string := [pointFeature; untypedFeature] ]} (1, 1) = Returns None /\
  findParcelAtPoint exampleMath (Some [lineFeature; pointFeature]) (1, 1) = Returns None.
Proof.
  destruct (C10_non_polygon_never_matches exampleMath (1, 1)) as (H1 & H2 & H3).
  split; [|split].
  - apply H1. reflexivity.
  - apply H2. intros z f Hf.
    destruct (decide (z = "VE"%string)) as [->|Hne].
    + vm_compute in Hf.
      repeat (apply elem_of_cons in Hf as [->|Hf]); try reflexivity.
      by apply not_elem_of_nil in Hf.
    + unfold zoneFeatures in Hf. rewrite lookup_singleton_ne in Hf by done.
      by apply not_elem_of_nil in Hf.
  - apply H3. repeat constructor.
Defined.

(** ** Quantile breaks *)

Lemma natQ_nonneg n : 0 <= natQ n.
Proof. unfold natQ. change 0 with (inject_Z 0). rewrite <- Zle_Qle. lia. Qed.

Lemma natQ_S n : natQ (S n) == natQ n + 1.
Proof. unfold natQ. rewrite Nat2Z.inj_succ. unfold Z.succ. rewrite inject_Z_plus. reflexivity. Qed.

Lemma Qfloor_fraction_bounds (q : Q) (n : nat) :
  0 <= q -> q <= 1 -> (0 < n)%nat ->
  (0 <= Qfloor (q * (natQ n - 1)) <= Z.of_nat n - 1)%Z.
Proof.
  intros Hq0 Hq1 Hn.
  assert (Hn1 : natQ n - 1 == inject_Z (Z.of_nat n - 1)).
  { unfold natQ, Z.sub. rewrite inject_Z_plus. reflexivity. }
  assert (Hnn : 0 <= inject_Z (Z.of_nat n - 1)).
  { change 0 with (inject_Z 0). rewrite <- Zle_Qle. lia. }
  split.
  - change 0%Z with (Qfloor 0). apply Qfloor_resp_le. rewrite Hn1. nra.
  - rewrite <- (Qfloor_Z (Z.of_nat n - 1)). apply Qfloor_resp_le. rewrite Hn1. nra.
Qed.

Lemma breakIndex_floor q n :
  0 <= q -> q <= 1 -> (0 < n)%nat ->
  breakIndex n q = Z.to_nat (Qfloor (q * (natQ n - 1))) /\ (breakIndex n q < n)%nat.
Proof.
  intros Hq0 Hq1 Hn. unfold breakIndex.
  pose proof (Qfloor_fraction_bounds q n Hq0 Hq1 Hn). split; [f_equal|]; lia.
Qed.

Lemma breakIndex_mono q1 q2 n :
  0 <= q1 -> q1 <= q2 -> q2 <= 1 -> (0 < n)%nat ->
  (breakIndex n q1 <= breakIndex n q2)%nat.
Proof.
  intros H0 H12 H1 Hn.
  destruct (breakIndex_floor q1 n) as [-> _]; [lra..|done|].
  destruct (breakIndex_floor q2 n) as [-> _]; [lra..|done|].
  apply Z2Nat.inj_le.
  - apply Qfloor_fraction_bounds; [lra..|done].
  - apply Qfloor_fraction_bounds; [lra..|done].
  - apply Qfloor_resp_le.
    assert (0 <= natQ n - 1).
    { destruct n; [lia|]. rewrite natQ_S. pose proof (natQ_nonneg n). lra. }
    nra.
Qed.

(** For a non-empty list of [n] values the break computation works on
    the ascending sort of the values; for the fractions 0.2, 0.4, 0.6,
    0.8 it selects the value at index floor(fraction * (n-1)); the result
    has exactly 4 thresholds, is non-decreasing, and every threshold is
    an element of the list. *)
Lemma parcelBreaks_sortAsc (dist : list Q) :
  dist <> [] ->
  let values := sortAsc dist in
  let n := length dist in
  StronglySorted Qle values /\ values ≡ₚ dist /\
  Forall2 Qeq quantiles [1 / 5; 2 / 5; 3 / 5; 4 / 5] /\
  parcelBreaks values =
    map (fun q => at_index values (Z.to_nat (Qfloor (q * (natQ n - 1))))) quantiles /\
  length (parcelBreaks values) = 4%nat /\
  StronglySorted Qle (parcelBreaks values) /\
  Forall (fun t => In t dist) (parcelBreaks values).
Proof.
  intros Hne values n.
  assert (Hlen : length values = n) by apply sortAsc_length.
  assert (Hn : (0 < n)%nat) by (subst n; destruct dist; [done|simpl; lia]).
  assert (Hs : StronglySorted Qle values) by apply sortAsc_sorted.
  assert (Hbreaks : parcelBreaks values =
            map (fun q => at_index values (breakIndex n q)) quantiles).
  { unfold parcelBreaks. rewrite Hlen. destruct values; [simpl in Hlen; lia|done]. }
  assert (Hq : Forall (fun q => 0 <= q /\ q <= 1) quantiles).
  { unfold quantiles. repeat constructor; unfold Qle; simpl; lia. }
  split; [done|]. split; [apply sortAsc_perm|].
  split; [repeat constructor|].
  split.
  { rewrite Hbreaks. apply map_ext_in. intros q Hin.
    rewrite Forall_forall in Hq. destruct (Hq q) as [H0 H1]; [by apply list_elem_of_In|].
    by destruct (breakIndex_floor q n H0 H1 Hn) as [-> _]. }
  split; [by rewrite Hbreaks|].
  split.
  { rewrite Hbreaks. unfold quantiles. simpl.
    assert (Hle : forall q1 q2, 0 <= q1 -> q1 <= q2 -> q2 <= 1 ->
              at_index values (breakIndex n q1) <= at_index values (breakIndex n q2)).
    { intros q1 q2 H0 H12 H1. apply sorted_at_index_le; [done| |].
      - by apply breakIndex_mono.
      - rewrite Hlen. apply breakIndex_floor; [lra..|done]. }
    repeat (constructor; [|repeat constructor; apply Hle; unfold Qle; simpl; lia]).
    constructor. }
  { rewrite Hbreaks. apply Forall_forall. intros t Ht.
    apply list_elem_of_In, in_map_iff in Ht as (q & <- & Hin).
    rewrite Forall_forall in Hq. destruct (Hq q) as [H0 H1]; [by apply list_elem_of_In|].
    apply (Permutation_in _ (sortAsc_perm dist)). fold values.
    apply at_index_In. rewrite Hlen. by apply breakIndex_floor. }
Qed.

Lemma plausible_inPlausibleRange v : plausible (num_or_zero v) = inPlausibleRange v.
Proof.
  destruct v as [q| | |]; try reflexivity.
  unfold num_or_zero, num_truthy. destruct (Qeqb q 0) eqn:E0; cbn [negb].
  - apply Qeqb_eq in E0. cbn [plausible inPlausibleRange].
    assert (Qgtb 0 0 = false) as -> by reflexivity. cbn [andb].
    destruct (Qleb (1 # 10) q) eqn:E1; [|done].
    apply Qleb_le in E1. lra.
  - apply Qeqb_neq in E0. cbn [plausible inPlausibleRange].
    change (Qgeb q (1 # 10)) with (Qleb (1 # 10) q).
    destruct (Qleb (1 # 10) q) eqn:E1; [|by rewrite andb_false_r].
    apply Qleb_le in E1.
    assert (Qgtb q 0 = true) as -> by (apply Qgtb_gt; lra). done.
Qed.

Lemma plausibleValues_perm perSqMeter :
  plausibleValues perSqMeter ≡ₚ omap inPlausibleRange perSqMeter.
Proof.
  unfold plausibleValues. rewrite sortAsc_perm.
  assert (omap (fun v => plausible (num_or_zero v)) perSqMeter
          = omap inPlausibleRange perSqMeter) as ->; [|done].
  induction perSqMeter as [|v l IH]; [done|].
  cbn [omap list_omap]. by rewrite plausible_inPlausibleRange, IH.
Qed.

Lemma inPlausibleRange_Some v q :
  inPlausibleRange v = Some q <-> v = Fin q /\ 1 # 10 <= q /\ q <= 5000.
Proof.
  destruct v as [q'| | |]; cbn [inPlausibleRange]; try (split; [done|by intros [? _]]).
  destruct (Qleb (1 # 10) q' && Qleb q' 5000) eqn:E.
  - apply andb_true_iff in E as [E1 E2]. apply Qleb_le in E1, E2. split.
    + by intros [= <-].
    + by intros [[= <-] _].
  - split; [done|]. intros [[= ->] [H1 H2]].
    apply andb_false_iff in E as [E|E]; apply Qleb_gt in E; lra.
Qed.

Lemma plausibleValues_In perSqMeter q :
  In q (plausibleValues perSqMeter) <->
  In (Fin q) perSqMeter /\ 1 # 10 <= q /\ q <= 5000.
Proof.
  rewrite <- !list_elem_of_In, plausibleValues_perm, list_elem_of_omap. split.
  - intros (v & Hv & Hq). apply inPlausibleRange_Some in Hq as [-> Hr]. done.
  - intros [Hin Hr]. exists (Fin q). split; [done|]. by apply inPlausibleRange_Some.
Qed.

(** C7: the loader's distribution is made of the values per square
    metre that are finite and lie between 0.1 and 5000; the break
    computation works on their ascending sort.  When the distribution has
    [n] >= 1 values, the thresholds are the values at the indices
    floor(fraction * (n-1)) for the fractions 0.2, 0.4, 0.6, 0.8: exactly
    4 thresholds, non-decreasing, each an element of the distribution.
    An empty distribution has no threshold. *)
Theorem C7_quantile_breaks (perSqMeter : list jsnum) :
  let values := plausibleValues perSqMeter in
  let n := length values in
  let breaks := parcelBreaks values in
  StronglySorted Qle values /\
  values ≡ₚ omap inPlausibleRange perSqMeter /\
  (forall q, In q values <-> In (Fin q) perSqMeter /\ 1 # 10 <= q /\ q <= 5000) /\
  Forall2 Qeq quantiles [1 / 5; 2 / 5; 3 / 5; 4 / 5] /\
  ((exists q, In (Fin q) perSqMeter /\ 1 # 10 <= q /\ q <= 5000) ->
     (1 <= n)%nat /\
     breaks =
       map (fun q => at_index values (Z.to_nat (Qfloor (q * (natQ n - 1))))) quantiles /\
     length breaks = 4%nat /\
     StronglySorted Qle breaks /\
     Forall (fun t => In t values) breaks) /\
  ((forall q, In (Fin q) perSqMeter -> ~ (1 # 10 <= q /\ q <= 5000)) -> breaks = []).
Proof.
  intros values n breaks.
  split; [apply sortAsc_sorted|].
  split; [apply plausibleValues_perm|].
  split; [apply plausibleValues_In|].
  split; [repeat constructor|].
  split.
  - intros (q & Hq). apply plausibleValues_In in Hq. fold values in Hq.
    set (dist := omap (fun v => plausible (num_or_zero v)) perSqMeter).
    assert (Hne : dist <> []).
    { intros Hnil. unfold values, plausibleValues in Hq. fold dist in Hq.
      by rewrite Hnil in Hq. }
    destruct (parcelBreaks_sortAsc dist Hne) as (_ & Hperm & _ & Hidx & Hlen & Hsorted & Hmem).
    assert (Hn : n = length dist).
    { unfold n, values, plausibleValues. fold dist. apply sortAsc_length. }
    split; [rewrite Hn; destruct dist; [done|simpl; lia]|].
    split; [unfold breaks, values, plausibleValues; fold dist; by rewrite Hn|].
    split; [exact Hlen|]. split; [exact Hsorted|].
    eapply Forall_impl; [exact Hmem|]. intros t Ht. cbn beta in Ht.
    unfold values, plausibleValues. fold dist.
    apply (Permutation_in _ (Permutation_sym (sortAsc_perm dist))). exact Ht.
  - intros Hnone. unfold breaks.
    assert (values = []) as ->; [|done].
    destruct values as [|q l] eqn:E; [done|]. exfalso.
    assert (Hq : In q (plausibleValues perSqMeter)) by (fold values; rewrite E; by left).
    apply plausibleValues_In in Hq as [Hin Hr]. by apply (Hnone q).
Qed.

Lemma C7_quantile_breaks_witness :
  parcelBreaks (plausibleValues [Fin 3; NaN; Fin 1; Fin 2; Fin 9000; Fin 10; Fin 9; Fin 8;
                                 Fin 0; Fin 7; Fin 6; Fin 5; Fin 4])
    = [2; 4; 6; 8].
Proof.
  destruct (C7_quantile_breaks [Fin 3; NaN; Fin 1; Fin 2; Fin 9000; Fin 10; Fin 9; Fin 8;
                                Fin 0; Fin 7; Fin 6; Fin 5; Fin 4])
    as (_ & _ & _ & _ & Hbreaks & _).
  destruct Hbreaks as (_ & Hidx & _).
  - exists 3. split; [left; reflexivity|]. split; unfold Qle; simpl; lia.
  - rewrite Hidx. reflexivity.
Defined.

(** ** Risk valuation *)

Lemma premiumRate_table zoneId rate :
  In (zoneId, rate) zoneRate -> premiumRate zoneId = rate.
Proof.
  unfold zoneRate. simpl.
  intros H. repeat (destruct H as [[= <- <-]|H]; [reflexivity|]). done.
Qed.

Lemma min_max_clamp x lo hi : lo <= hi -> Qmin (Qmax x lo) hi == clamp x lo hi.
Proof.
  intros Hle. unfold clamp.
  destruct (Qltb x lo) eqn:E1.
  - apply Qltb_lt in E1. rewrite Q.max_r by lra. by apply Q.min_l.
  - apply Qltb_ge in E1. rewrite Q.max_l by done.
    destruct (Qltb hi x) eqn:E2.
    + apply Qltb_lt in E2. apply Q.min_r. lra.
    + apply Qltb_ge in E2. by apply Q.min_l.
Qed.

(** C5: for a zone id of the rate table (VE 0.018, AE 0.015, AO 0.012,
    A 0.012, X 0.006, none 0.004) and a positive finite total value the
    premium is clamp(totalValue * rate, 450, 7200) and the recommended
    coverage is min(totalValue, 250000); zone AE with total value
    1,000,000 gives premium 7200 and coverage 250,000. *)
Theorem C5_premium_estimate (StringToNumber : string -> jsnum)
    (zoneId : string) (rate v : Q) (zoneFeature parcel : Feature) :
  In (zoneId, rate) zoneRate ->
  0 < v ->
  properties parcel !! "totalValue"%string = Some (JNum (Fin v)) ->
  exists premium coverage,
    renderInsuranceInfo StringToNumber (zoneResultFor zoneId zoneFeature) (Some parcel)
      = Some (premium, coverage) /\
    premium == clamp (v * rate) 450 7200 /\
    450 <= premium <= 7200 /\
    coverage == Qmin v 250000 /\
    (zoneId = "AE"%string -> v == 1000000 -> premium == 7200 /\ coverage == 250000).
Proof.
  intros Hrate Hv Hprop.
  exists (estimatedPremium zoneId v), (recommendedCoverage v).
  assert (Hz : match zoneResultFor zoneId zoneFeature with
               | Some (z, _) => z | None => "none"%string end = zoneId).
  { unfold zoneResultFor. destruct (String.eqb zoneId "none") eqn:E; [|done].
    by apply String.eqb_eq in E. }
  assert (Hclamp : estimatedPremium zoneId v == clamp (v * rate) 450 7200).
  { unfold estimatedPremium. rewrite (premiumRate_table zoneId rate Hrate).
    apply min_max_clamp. unfold Qle; simpl; lia. }
  split.
  { unfold renderInsuranceInfo. rewrite Hz, Hprop. simpl.
    destruct (Qleb v 0) eqn:E; [apply Qleb_le in E; lra|done]. }
  split; [exact Hclamp|].
  split.
  { unfold estimatedPremium. split.
    - apply Q.min_glb; [apply Q.le_max_r | unfold Qle; simpl; lia].
    - apply Q.le_min_r. }
  split; [reflexivity|].
  intros -> Hv1.
  split.
  - rewrite Hclamp. apply premiumRate_table in Hrate.
    assert (rate = 15 # 1000) as -> by (rewrite <- Hrate; reflexivity).
    unfold clamp.
    destruct (Qltb (v * (15 # 1000)) 450) eqn:E1; [apply Qltb_lt in E1; lra|].
    destruct (Qltb 7200 (v * (15 # 1000))) eqn:E2; [reflexivity|apply Qltb_ge in E2; lra].
  - unfold recommendedCoverage. apply Q.min_r. lra.
Qed.

Lemma C5_premium_estimate_witness :
  exists premium coverage,
    renderInsuranceInfo (fun _ => NaN) (Some ("AE"%string, squareFeature)) (Some millionParcel)
      = Some (premium, coverage) /\
    premium == 7200 /\ coverage == 250000.
Proof.
  destruct (C5_premium_estimate (fun _ => NaN) "AE" (15 # 1000) 1000000
              squareFeature millionParcel)
    as (premium & coverage & Hr & _ & _ & _ & Hex).
  - right; left; reflexivity.
  - reflexivity.
  - reflexivity.
  - exists premium, coverage. split; [exact Hr|]. apply Hex; reflexivity.
Defined.

(** ** Coordinate normalisation *)

Lemma slice02_planar (c : list Q) : (length c <= 2)%nat -> slice02 c = c.
Proof. intros H. unfold slice02. by apply firstn_all2. Qed.

Lemma map_slice02_planar (cs : list (list Q)) :
  Forall (fun c : list Q => (length c <= 2)%nat) cs -> map slice02 cs = cs.
Proof.
  induction 1 as [|c cs Hc _ IH]; simpl; [done|].
  by rewrite slice02_planar, IH.
Qed.

Lemma map2_slice02_planar (ls : list (list (list Q))) :
  Forall (fun c : list Q => (length c <= 2)%nat) (concat ls) ->
  map (map slice02) ls = ls.
Proof.
  induction ls as [|l ls IH]; simpl; [done|].
  intros H. apply Forall_app in H as [H1 H2].
  by rewrite map_slice02_planar, IH.
Qed.

Lemma map3_slice02_planar (ps : list (list (list (list Q)))) :
  Forall (fun c : list Q => (length c <= 2)%nat) (concat (concat ps)) ->
  map (map (map slice02)) ps = ps.
Proof.
  induction ps as [|p ps IH]; simpl; [done|].
  intros H. rewrite concat_app in H. apply Forall_app in H as [H1 H2].
  by rewrite map2_slice02_planar, IH.
Qed.

Lemma transformGeometry_planar (f : RawFeature) :
  planar f ->
  mkRawFeature (transformGeometry (raw_geometry f) slice02) (raw_properties f) = f.
Proof.
  destruct f as [[g|] props]; unfold planar; simpl; [|done].
  intros H. do 2 f_equal.
  destruct g; simpl in *; f_equal;
    auto using map_slice02_planar, map2_slice02_planar, map3_slice02_planar.
  inversion H; subst. by apply slice02_planar.
Qed.

Lemma positionsOf_transform (g : Geometry (list Q)) (t : list Q -> list Q) :
  forall g', transformGeometry (Some g) t = Some g' ->
  positionsOf g' = map t (positionsOf g).
Proof.
  intros g' [= <-].
  destruct g; simpl; try done.
  - by rewrite concat_map.
  - by rewrite concat_map.
  - by rewrite !concat_map.
Qed.




(** ** Parcel value distributions *)

Lemma num_or_zero_NaN : num_or_zero NaN = Fin 0.
Proof. reflexivity. Qed.

Lemma notNumeric_NaN S2N props key :
  notNumeric S2N props key -> ToNumber S2N (props !! key) = NaN.
Proof. by intros [-> | ->]. Qed.

Lemma centroidRaises_iff {P : Type} (g : Geometry P) :
  centroidRaises g = true <-> g = Polygon [].
Proof.
  destruct g as [c|cs|cs|ls|rings|polys|t]; try (split; discriminate).
  destruct rings; split; try done; discriminate.
Qed.

Lemma geometryCentroid_raises (g : Geometry position) :
  geometryCentroid g = Throws <-> centroidRaises g = true.
Proof.
  destruct g as [c|cs|cs|ls|rings|polys|t]; try (split; discriminate).
  destruct rings; split; try done; discriminate.
Qed.

Lemma loadedFeatures_geometry proj4Forward geojson f :
  f ∈ loadedFeatures proj4Forward geojson -> is_Some (raw_geometry f).
Proof.
  unfold loadedFeatures. intros Hf. by apply list_elem_of_filter in Hf as [Hf _].
Qed.

Lemma pushMetrics_spec S2N (l : list RawFeature) : forall pushed,
  Forall (fun f => is_Some (raw_geometry f)) l ->
  (pushMetrics S2N l pushed = Throws <->
     exists f, f ∈ l /\ raw_geometry f = Some (Polygon [])) /\
  ((forall f, f ∈ l -> raw_geometry f <> Some (Polygon [])) ->
     pushMetrics S2N l pushed =
       Returns (pushed ++ map (fun f => parcelMetrics S2N (raw_properties f)) l)).
Proof.
  induction l as [|f l IH]; intros pushed Hall.
  - cbn [pushMetrics map]. rewrite app_nil_r. split; [|done].
    split; [done|]. intros (f & Hf & _). by apply not_elem_of_nil in Hf.
  - apply Forall_cons in Hall as [[g Hg] Hall]. cbn [pushMetrics]. rewrite Hg.
    destruct (centroidRaises g) eqn:E.
    + apply centroidRaises_iff in E as ->. split.
      * split; [intros _|done]. exists f. split; [left|done].
      * intros Hno. exfalso. apply (Hno f); [left|done].
    + destruct (IH (pushed ++ [parcelMetrics S2N (raw_properties f)]) Hall) as [IHt IHr].
      split.
      * rewrite IHt. split.
        -- intros (f' & Hf' & Hr). exists f'. split; [by right|done].
        -- intros (f' & Hf' & Hr). apply elem_of_cons in Hf' as [->|Hf'].
           ++ rewrite Hg in Hr. injection Hr as ->. discriminate E.
           ++ by exists f'.
      * intros Hno. rewrite IHr by (intros f' Hf'; apply Hno; by right).
        cbn [map]. by rewrite <- app_assoc.
Qed.

(** C9 (as amended): the loader calls [geometryCentroid] on every loaded
    parcel before it records the parcel's figures, and the call raises
    exactly on a Polygon without rings; the load is then abandoned and no
    distribution is built.  Otherwise every loaded parcel contributes
    exactly one entry to each of the three distributions; an absent or
    non-numeric [Land_Value] or [Improved_V] is replaced by 0, and the
    parcel enters the distributions with that 0 (its total value is the
    sum of the two defaulted values); any other finite value of either
    attribute, a sentinel-like one included, is used as it is. *)
Theorem C9_invalid_values_enter_as_zero (StringToNumber : string -> jsnum)
    (proj4Forward : string -> list Q -> list Q) (geojson : GeoJSON) :
  let loaded := loadedFeatures proj4Forward geojson in
  let load := metricDistributions StringToNumber proj4Forward geojson in
  (forall g : Geometry position, geometryCentroid g = Throws <-> centroidRaises g = true) /\
  (forall g : Geometry (list Q), centroidRaises g = true <-> g = Polygon []) /\
  (load = Throws <-> exists f, f ∈ loaded /\ raw_geometry f = Some (Polygon [])) /\
  ((forall f, f ∈ loaded -> raw_geometry f <> Some (Polygon [])) ->
   exists d, load = Returns d /\
     length (dist_totalValue d) = length loaded /\
     length (dist_improvementValue d) = length loaded /\
     length (dist_valuePerAcre d) = length loaded /\
     forall i f, loaded !! i = Some f ->
       let props := raw_properties f in
       let m := parcelMetrics StringToNumber props in
       dist_totalValue d !! i = Some (totalValue m) /\
       dist_improvementValue d !! i = Some (improvementValue m) /\
       dist_valuePerAcre d !! i = Some (valuePerAcre m) /\
       totalValue m = num_add (landValue m) (improvementValue m) /\
       (notNumeric StringToNumber props "Land_Value" -> landValue m = Fin 0) /\
       (notNumeric StringToNumber props "Improved_V" -> improvementValue m = Fin 0) /\
       (notNumeric StringToNumber props "Land_Value" ->
        notNumeric StringToNumber props "Improved_V" -> totalValue m = Fin 0) /\
       (forall q, ~ q == 0 -> props !! "Land_Value"%string = Some (JNum (Fin q)) ->
          landValue m = Fin q) /\
       (forall q, ~ q == 0 -> props !! "Improved_V"%string = Some (JNum (Fin q)) ->
          improvementValue m = Fin q)).
Proof.
  intros loaded load.
  assert (Hgeom : Forall (fun f => is_Some (raw_geometry f)) loaded).
  { apply Forall_forall. intros f. apply loadedFeatures_geometry. }
  destruct (pushMetrics_spec StringToNumber loaded [] Hgeom) as [Hthrows Hreturns].
  split; [apply geometryCentroid_raises|]. split; [apply centroidRaises_iff|].
  split.
  { rewrite <- Hthrows. unfold load, metricDistributions. fold loaded.
    by destruct (pushMetrics StringToNumber loaded []). }
  intros Hno. specialize (Hreturns Hno). cbn [app] in Hreturns.
  unfold load, metricDistributions. fold loaded. rewrite Hreturns.
  eexists. split; [reflexivity|]. simpl.
  rewrite !length_map. split; [done|]. split; [done|]. split; [done|].
  intros i f Hf. rewrite !list_lookup_fmap, Hf. simpl.
  split; [done|]. split; [done|]. split; [done|]. split; [done|].
  unfold parcelMetrics. simpl.
  split; [|split; [|split; [|split]]].
  - intros Hl. by rewrite (notNumeric_NaN _ _ _ Hl).
  - intros Hi. by rewrite (notNumeric_NaN _ _ _ Hi).
  - intros Hl Hi. by rewrite (notNumeric_NaN _ _ _ Hl), (notNumeric_NaN _ _ _ Hi).
  - intros q Hq Hval. rewrite Hval. simpl. unfold num_or_zero, num_truthy.
    apply Qeqb_neq in Hq. by rewrite Hq.
  - intros q Hq Hval. rewrite Hval. simpl. unfold num_or_zero, num_truthy.
    apply Qeqb_neq in Hq. by rewrite Hq.
Qed.

Lemma C9_invalid_values_enter_as_zero_witness :
  exists d, metricDistributions exampleStringToNumber exampleProj4 bareParcel = Returns d /\
            dist_totalValue d !! 0%nat = Some (Fin 0).
Proof.
  destruct (C9_invalid_values_enter_as_zero exampleStringToNumber exampleProj4 bareParcel)
    as (_ & _ & _ & H).
  destruct H as (d & Hd & _ & _ & _ & H).
  - intros f Hf. apply list_elem_of_singleton in Hf as ->. discriminate.
  - exists d. split; [exact Hd|].
    destruct (H 0%nat (mkRawFeature (Some (Polygon [[[0; 0]; [4; 0]; [4; 4]; [0; 0]]])) ∅)
                eq_refl) as (Ht & _ & _ & _ & _ & _ & Hzero & _).
    rewrite Ht, Hzero; [reflexivity | left; reflexivity | left; reflexivity].
Defined.

(** A parcel without [Land_Value] and [Improved_V] is not left out: it
    enters all three distributions as 0 and is ranked by the rankers
    built from them. *)
Lemma C9_counterexample_zero_in_distributions :
  raw_properties <$> features bareParcel = [∅] /\
  metricDistributions exampleStringToNumber exampleProj4 bareParcel
    = Returns (mkDistributions [Fin 0] [Fin 0] [Fin 0]) /\
  exists rankTotal rankImprovement rankPerAcre,
    percentileRankers exampleStringToNumber exampleProj4 bareParcel
      = Returns (rankTotal, rankImprovement, rankPerAcre) /\
    rankTotal (Fin 0) = Some (1 # 2) /\ rankImprovement (Fin 0) = Some (1 # 2) /\
    rankPerAcre (Fin 0) = Some (1 # 2).
Proof.
  split; [reflexivity|]. split; [reflexivity|].
  eexists _, _, _. split; [reflexivity|]. repeat split; reflexivity.
Qed.

(** A parcel that is a Polygon without rings ends the load: no
    distribution and no ranker is built, whatever the other parcels
    are. *)
Lemma metricDistributions_ringless :
  metricDistributions exampleStringToNumber exampleProj4
    (mkGeoJSON None (features bareParcel ++ [mkRawFeature (Some (Polygon [])) ∅])) = Throws /\
  percentileRankers exampleStringToNumber exampleProj4
    (mkGeoJSON None (features bareParcel ++ [mkRawFeature (Some (Polygon [])) ∅])) = Throws.
Proof. split; reflexivity. Qed.

(** Declared names as [parseCrs] reads them. *)
Lemma parseCrs_examples :
  parseCrs None = "EPSG:4326"%string /\
  parseCrs (Some "urn:ogc:def:crs:EPSG::4326"%string) = "EPSG:4326"%string /\
  parseCrs (Some "urn:ogc:def:crs:OGC:1.3:CRS84"%string) = "CRS:84"%string /\
  parseCrs (Some "urn:ogc:def:crs:epsg::32161"%string) = "EPSG:32161"%string /\
  parseCrs (Some "local grid"%string) = "EPSG:4326"%string.
Proof. repeat split; reflexivity. Qed.

(** ** Nearest shelter *)

Section NearestShelter.

Variable M : MathLib.
Variable p : position.

Let dist := shelterDistance M p.

Lemma shelterStep_eq isWI w c s :
  shelterStep M isWI p (w, c) s =
  (if isWaterIslandStation s then Some s else w,
   if compared isWI s then keepCloser M p c s else c).
Proof.
  unfold shelterStep, compared, keepCloser.
  by destruct (isWaterIslandStation s), isWI.
Qed.

Lemma shelterStep_fold isWI l w c :
  fold_left (shelterStep M isWI p) l (w, c) =
  (from_option Some w (last (List.filter isWaterIslandStation l)),
   fold_left (keepCloser M p) (List.filter (compared isWI) l) c).
Proof.
  revert w c. induction l as [|s l IH]; intros w c; [done|].
  cbn [fold_left List.filter]. rewrite shelterStep_eq, IH.
  f_equal.
  - destruct (isWaterIslandStation s); [|done].
    rewrite last_cons. by destruct (last _).
  - by destruct (compared isWI s).
Qed.

Lemma singleCoordinate_dist s :
  singleCoordinate s -> exists q, dist s = Fin q.
Proof.
  intros [[lon lat] Hc]. unfold dist, shelterDistance. rewrite Hc. by eexists.
Qed.

(** The scan over shelters with a single coordinate keeps a finite
    distance, the least one met so far. *)
Lemma keepCloser_fold_min cands :
  Forall singleCoordinate cands ->
  forall c : option (Shelter * Q),
  exists r : option (Shelter * Q),
    fold_left (keepCloser M p) cands (prod_map id Fin <$> c) = prod_map id Fin <$> r /\
    match r with
    | None => c = None /\ cands = []
    | Some (s, d) =>
        (c = Some (s, d) \/ (s ∈ cands /\ dist s = Fin d)) /\
        (forall s' d', s' ∈ cands -> dist s' = Fin d' -> d <= d') /\
        (forall s0 d0, c = Some (s0, d0) -> d <= d0)
    end.
Proof.
  induction 1 as [|x cands Hx Hall IH]; intros c.
  - exists c. split; [done|]. destruct c as [[s d]|]; [|done].
    split; [by left|]. split.
    + intros s' d' Hs'. by apply not_elem_of_nil in Hs'.
    + intros s0 d0 [= <- <-]. lra.
  - destruct (singleCoordinate_dist x Hx) as [qx Hqx].
    assert (Hstep : exists c' : option (Shelter * Q),
               keepCloser M p (prod_map id Fin <$> c) x = prod_map id Fin <$> c' /\
               match c with
               | None => c' = Some (x, qx)
               | Some (s0, d0) =>
                   (qx < d0 /\ c' = Some (x, qx)) \/ (d0 <= qx /\ c' = c)
               end).
    { unfold keepCloser. fold dist. rewrite Hqx.
      destruct c as [[s0 d0]|]; cbn.
      - destruct (Qltb qx d0) eqn:E.
        + exists (Some (x, qx)). split; [done|]. left. by apply Qltb_lt in E.
        + exists (Some (s0, d0)). split; [done|]. right. by apply Qltb_ge in E.
      - by exists (Some (x, qx)). }
    destruct Hstep as (c' & Hc' & Hcase). cbn [fold_left]. rewrite Hc'.
    destruct (IH c') as (r & Hr & Hprop). exists r. split; [done|].
    destruct r as [[s d]|].
    + destruct Hprop as (Hfrom & Hmin & Hc).
      assert (Hx_le : d <= qx).
      { destruct c as [[s0 d0]|].
        - destruct Hcase as [[Hlt ->]|[Hle ->]].
          + by eapply Hc.
          + specialize (Hc s0 d0 eq_refl). lra.
        - subst c'. by eapply Hc. }
      split; [|split].
      * destruct Hfrom as [Heq|[Hin Hd]]; [|right; by split; [right|]].
        destruct c as [[s0 d0]|].
        -- destruct Hcase as [[Hlt ->]|[Hle ->]].
           ++ injection Heq as <- <-. right. by split; [left|].
           ++ by left.
        -- subst c'. injection Heq as <- <-. right. by split; [left|].
      * intros s' d' Hs' Hd'. apply elem_of_cons in Hs' as [->|Hs']; [|by eapply Hmin].
        rewrite Hqx in Hd'. injection Hd' as <-. done.
      * intros s0 d0 ->. destruct Hcase as [[Hlt ->]|[Hle ->]].
        -- specialize (Hc x qx eq_refl). lra.
        -- by eapply Hc.
    + destruct Hprop as [-> _]. destruct c as [[s0 d0]|].
      * by destruct Hcase as [[_ ?]|[_ ?]].
      * done.
Qed.

Lemma compared_true l : List.filter (compared true) l = l.
Proof.
  induction l as [|s l IH]; simpl; [done|].
  unfold compared at 1. rewrite andb_false_r. simpl. by rewrite IH.
Qed.

Lemma compared_false l :
  List.filter (compared false) l = List.filter (fun s => negb (isWaterIslandStation s)) l.
Proof.
  apply List.filter_ext. intros s. unfold compared. by rewrite andb_true_r.
Qed.

Lemma findNearestShelter_unfold shelters parcel :
  findNearestShelter M shelters p parcel =
  match shelters with
  | [] => None
  | _ =>
    let isWI := isWaterIslandParcel parcel in
    match isWI, last (List.filter isWaterIslandStation shelters),
          fold_left (keepCloser M p) (List.filter (compared isWI) shelters) None with
    | true, Some station, _ => Some (station, dist station)
    | false, Some _, None => None
    | _, _, closest => closest
    end
  end.
Proof.
  unfold findNearestShelter. destruct shelters as [|s l]; [done|].
  rewrite shelterStep_fold.
  set (L := last _). set (F := fold_left _ _ _).
  assert (from_option Some None L = L) as -> by (by destruct L).
  subst F. cbv zeta.
  destruct (isWaterIslandParcel parcel), L; try reflexivity.
  by destruct (fold_left _ _ _).
Qed.

(** A shelter without a distance is kept once it is the closest so far,
    and never replaces one. *)
Lemma keepCloser_nan_kept cands s :
  fold_left (keepCloser M p) cands (Some (s, NaN)) = Some (s, NaN).
Proof.
  induction cands as [|x cands IH]; [done|].
  cbn [fold_left]. unfold keepCloser at 2.
  assert (num_ltb (shelterDistance M p x) NaN = false) as -> by (by destruct (shelterDistance M p x)).
  exact IH.
Qed.

End NearestShelter.

(** The scan prefers the nearer shelter, and the override ignores distance
    (spec §8, property 5). *)
Lemma findNearestShelter_examples :
  fst <$> findNearestShelter exampleMath [shelterW; shelterB; shelterA] (0, 0)
            (Some mainlandParcel) = Some shelterA /\
  fst <$> findNearestShelter exampleMath [shelterW] (0, 0) (Some mainlandParcel) = None /\
  fst <$> findNearestShelter exampleMath [shelterA; shelterW; shelterB] (1, 1)
            (Some waterIslandParcel) = Some shelterW.
Proof. repeat split; vm_compute; reflexivity. Qed.

(** A MultiPoint shelter has no distance in the scan: met first it stays
    the closest, met later it never becomes the closest. *)
Lemma findNearestShelter_multipoint (M : MathLib) (p : position) (rest : list Shelter)
    (s : Shelter) (cs : list position) :
  shelterGeometry s = ShelterMultiPoint cs ->
  isWaterIslandStation s = false ->
  Forall (fun x => isWaterIslandStation x = false) rest ->
  findNearestShelter M (s :: rest) p None = Some (s, NaN).
Proof.
  intros Hg Hs Hrest. rewrite findNearestShelter_unfold. cbn [isWaterIslandParcel].
  cbv zeta. rewrite compared_false.
  assert (Hnone : last (List.filter isWaterIslandStation (s :: rest)) = None).
  { cbn [List.filter]. rewrite Hs.
    induction Hrest as [|x l Hx Hl IH]; [done|]. cbn [List.filter]. by rewrite Hx. }
  rewrite Hnone. cbn [List.filter]. rewrite Hs. cbn [negb fold_left].
  unfold keepCloser at 2. unfold shelterDistance. rewrite Hg.
  apply keepCloser_nan_kept.
Qed.

Lemma findNearestShelter_multipoint_examples :
  findNearestShelter exampleMath [shelterM; shelterA] (1, 1) (Some mainlandParcel)
    = Some (shelterM, NaN) /\
  fst <$> findNearestShelter exampleMath [shelterA; shelterM] (7, 7) (Some mainlandParcel)
    = Some shelterA.
Proof. split; vm_compute; reflexivity. Qed.

(** C3: the distance of a Point shelter is 6371 times the haversine
    angle, with degrees turned into radians by pi/180; a MultiPoint
    shelter has no distance (NaN).  When the parcel's legal description
    does not name the restricted region and the shelters other than the
    designated station are Points, the result is none exactly when there
    is no such shelter, and otherwise one of them at minimal distance.
    When the legal description names the region and a designated station
    is listed, the station is returned with its distance.  A MultiPoint
    shelter that is not the station and comes first is returned, without
    a distance, whatever follows it: with a MultiPoint shelter listed
    before a Point shelter at the query point, the result is the
    MultiPoint shelter and not the nearest one. *)
Theorem C3_nearest_shelter (M : MathLib) (p : position) :
  let dist := shelterDistance M p in
  (forall name lon lat,
     let rad := fun d : Q => d * Math_PI M / 180 in
     let a :=
       Math_sin M (rad (lat - snd p) / 2) ^ 2 +
       Math_cos M (rad (snd p)) * Math_cos M (rad lat)
         * Math_sin M (rad (lon - fst p) / 2) ^ 2 in
     dist (mkShelter name (ShelterPoint (lon, lat))) =
       Fin (6371 * (2 * Math_atan2 M (Math_sqrt M a) (Math_sqrt M (1 - a))))) /\
  (forall name cs, dist (mkShelter name (ShelterMultiPoint cs)) = NaN) /\
  (forall shelters parcel,
     let others := List.filter (fun s => negb (isWaterIslandStation s)) shelters in
     isWaterIslandParcel parcel = false -> Forall singleCoordinate others ->
     (findNearestShelter M shelters p parcel = None <-> others = []) /\
     (forall s d, findNearestShelter M shelters p parcel = Some (s, d) ->
        s ∈ others /\ d = dist s /\
        exists km, d = Fin km /\
          forall s' km', s' ∈ others -> dist s' = Fin km' -> km <= km')) /\
  (forall shelters parcel station,
     isWaterIslandParcel parcel = true ->
     last (List.filter isWaterIslandStation shelters) = Some station ->
     findNearestShelter M shelters p parcel = Some (station, dist station)) /\
  (forall s cs rest,
     shelterGeometry s = ShelterMultiPoint cs -> isWaterIslandStation s = false ->
     Forall (fun x => isWaterIslandStation x = false) rest ->
     findNearestShelter M (s :: rest) p None = Some (s, NaN)) /\
  (isWaterIslandStation shelterM = false /\ isWaterIslandStation shelterA = false /\
   isWaterIslandParcel (Some mainlandParcel) = false /\
   shelterGeometry shelterM = ShelterMultiPoint [(7, 7)] /\
   shelterGeometry shelterA = ShelterPoint (1, 1) /\
   findNearestShelter M [shelterM; shelterA] (1, 1) (Some mainlandParcel)
     = Some (shelterM, NaN)).
Proof.
  intros dist. split; [reflexivity|]. split; [reflexivity|].
  split; [|split; [|split]].
  - intros shelters parcel others HWI Hpoints.
    rewrite findNearestShelter_unfold, HWI. cbv zeta.
    rewrite compared_false. fold others.
    destruct (keepCloser_fold_min M p others Hpoints None) as (r & Hr & Hmin).
    cbn [fmap option_fmap option_map] in Hr. rewrite Hr. clear Hr.
    assert (Hnil : shelters = [] -> others = []) by (by intros ->).
    destruct shelters as [|s0 l] eqn:Esh; [by rewrite Hnil|]. rewrite <- Esh in *.
    clear Hnil.
    destruct r as [[s d]|]; cbn [fmap option_fmap option_map prod_map id fst snd].
    + destruct Hmin as ([Habs|[Hin Hd]] & Hle & _); [done|].
      split.
      * split; [by destruct (last _)|]. intros Habs. rewrite Habs in Hin.
        by apply not_elem_of_nil in Hin.
      * intros s1 d1 H1. assert (Some (s, Fin d) = Some (s1, d1)) as [= <- <-]
          by (by destruct (last _)).
        split; [done|]. split; [done|]. by exists d.
    + destruct Hmin as [_ Hnil]. split.
      * split; [done|]. intros _. by destruct (last _).
      * intros s1 d1 H1. by destruct (last _).
  - intros shelters parcel station HWI Hst.
    rewrite findNearestShelter_unfold, HWI. cbv zeta.
    rewrite Hst. destruct shelters; [done|done].
  - intros s cs rest. apply findNearestShelter_multipoint.
  - do 5 (split; [reflexivity|]).
    rewrite findNearestShelter_unfold.
    assert (isWaterIslandParcel (Some mainlandParcel) = false) as -> by reflexivity.
    cbv zeta. rewrite compared_false.
    assert (last (List.filter isWaterIslandStation [shelterM; shelterA]) = None) as ->
      by reflexivity.
    assert (List.filter (fun s => negb (isWaterIslandStation s)) [shelterM; shelterA]
            = [shelterM; shelterA]) as -> by reflexivity.
    exact (keepCloser_nan_kept M (1, 1) [shelterA] shelterM).
Qed.

Lemma C3_nearest_shelter_witness :
  findNearestShelter exampleMath [shelterW; shelterB; shelterA] (0, 0) (Some mainlandParcel)
    <> None /\
  findNearestShelter exampleMath [shelterA; shelterW; shelterB] (1, 1) (Some waterIslandParcel)
    = Some (shelterW, shelterDistance exampleMath (1, 1) shelterW) /\
  findNearestShelter exampleMath [shelterM; shelterB] (3, 3) None = Some (shelterM, NaN).
Proof.
  split; [|split].
  - destruct (C3_nearest_shelter exampleMath (0, 0)) as (_ & _ & Hno & _).
    assert (Hpoints : Forall singleCoordinate
              (List.filter (fun s => negb (isWaterIslandStation s))
                 [shelterW; shelterB; shelterA])).
    { repeat constructor; by eexists. }
    destruct (Hno [shelterW; shelterB; shelterA] (Some mainlandParcel) eq_refl Hpoints)
      as [Hnone _].
    intros H. apply Hnone in H. discriminate H.
  - destruct (C3_nearest_shelter exampleMath (1, 1)) as (_ & _ & _ & Hyes & _).
    apply (Hyes [shelterA; shelterW; shelterB] (Some waterIslandParcel) shelterW);
      reflexivity.
  - destruct (C3_nearest_shelter exampleMath (3, 3)) as (_ & _ & _ & _ & Hmulti & _).
    apply (Hmulti shelterM [(7, 7)] [shelterB]); [reflexivity|reflexivity|].
    repeat constructor.
Defined.

(** ** Percentile ranker *)

Lemma bsearchLow_spec (s : list Q) (v : Q) (lo hi : Z) :
  StronglySorted Qle s ->
  (0 <= lo)%Z -> (hi < Z.of_nat (length s))%Z -> (lo <= hi + 1)%Z ->
  (forall i, (i < Z.to_nat lo)%nat -> at_index s i < v) ->
  (forall i, (Z.to_nat (hi + 1) <= i < length s)%nat -> v <= at_index s i) ->
  (lo <= bsearchLow s v lo hi <= hi + 1)%Z /\
  (forall i, (i < Z.to_nat (bsearchLow s v lo hi))%nat -> at_index s i < v) /\
  (forall i, (Z.to_nat (bsearchLow s v lo hi) <= i < length s)%nat -> v <= at_index s i).
Proof.
  intros Hs. funelim (bsearchLow s v lo hi); intros Hlo Hhi Hle Hbelow Habove.
  - assert (Hmid : (low <= (low + high) / 2 <= high)%Z)
      by (split; [apply Z.div_le_lower_bound | apply Z.div_le_upper_bound]; lia).
    cbv zeta. unfold at_indexZ.
    destruct (Qltb (at_index sorted (Z.to_nat ((low + high) / 2))) value) eqn:E.
    + apply Qltb_lt in E.
      destruct (H Hs) as (Hr & Hb & Ha); try lia; [| |].
      * intros i Hi.
        assert (at_index sorted i <= at_index sorted (Z.to_nat ((low + high) / 2)))
          by (apply sorted_at_index_le; [done|lia|lia]).
        lra.
      * exact Habove.
      * split; [lia|]. split; [exact Hb|exact Ha].
    + apply Qltb_ge in E.
      destruct (H0 Hs) as (Hr & Hb & Ha); try lia; [| |].
      * exact Hbelow.
      * intros i Hi.
        assert (at_index sorted (Z.to_nat ((low + high) / 2)) <= at_index sorted i)
          by (apply sorted_at_index_le; [done|lia|lia]).
        lra.
      * split; [lia|]. split; [exact Hb|exact Ha].
  - split; [lia|]. split; [exact Hbelow|].
    intros i Hi. apply Habove. lia.
Qed.

Lemma natQ_plus a b : natQ (a + b) == natQ a + natQ b.
Proof. unfold natQ. rewrite Nat2Z.inj_add, inject_Z_plus. reflexivity. Qed.

Lemma natQ_pos n : (0 < n)%nat -> 0 < natQ n.
Proof. intros H. unfold natQ. change 0 with (inject_Z 0). rewrite <- Zlt_Qlt. lia. Qed.

Lemma natQ_pred n : (0 < n)%nat -> natQ (n - 1) == natQ n - 1.
Proof.
  intros H. destruct n; [lia|]. rewrite natQ_S.
  replace (S n - 1)%nat with n by lia. ring.
Qed.

Lemma matchingFrom_app i l1 l2 v :
  matchingFrom i (l1 ++ l2) v = matchingFrom i l1 v ++ matchingFrom (i + length l1) l2 v.
Proof.
  revert i. induction l1 as [|x l1 IH]; intros i; simpl.
  - by rewrite Nat.add_0_r.
  - rewrite IH. replace (S i + length l1)%nat with (i + S (length l1))%nat by lia.
    by destruct (Qeqb x v).
Qed.

Lemma matchingFrom_none i l v :
  Forall (fun x => ~ x == v) l -> matchingFrom i l v = [].
Proof.
  intros H. revert i. induction H as [|x l Hx _ IH]; intros i; simpl; [done|].
  apply Qeqb_neq in Hx. by rewrite Hx.
Qed.

Lemma matchingFrom_all i l v :
  Forall (fun x => x == v) l -> matchingFrom i l v = seq i (length l).
Proof.
  intros H. revert i. induction H as [|x l Hx _ IH]; intros i; simpl; [done|].
  apply Qeqb_eq in Hx. by rewrite Hx, IH.
Qed.

Lemma matchingFrom_nonempty_In i l v :
  matchingFrom i l v <> [] <-> exists x, In x l /\ x == v.
Proof.
  revert i. induction l as [|x l IH]; intros i; simpl.
  - split; [done|]. by intros (x & [] & _).
  - destruct (Qeqb x v) eqn:E.
    + apply Qeqb_eq in E. split; [|done]. intros _. exists x. by split; [left|].
    + apply Qeqb_neq in E. rewrite IH. split.
      * intros (y & Hy & Hyv). exists y. by split; [right|].
      * intros (y & [->|Hy] & Hyv); [done|]. by exists y.
Qed.

Lemma sumQ_seq a m :
  sumQ (map natQ (seq a m)) == natQ m * natQ a + natQ m * (natQ m - 1) / 2.
Proof.
  revert a. induction m as [|m IH]; intros a.
  - simpl. unfold natQ. simpl. field.
  - cbn [seq map sumQ fold_right]. fold (sumQ (map natQ (seq (S a) m))).
    rewrite IH, !natQ_S. field.
Qed.

Lemma meanIndex_run f c :
  meanIndex (seq f (S c)) == (natQ f + natQ (f + c)) / 2.
Proof.
  unfold meanIndex. rewrite sumQ_seq, length_seq, natQ_plus, natQ_S.
  pose proof (natQ_nonneg c). field. lra.
Qed.

Lemma Forall_firstn_index (P : Q -> Prop) (s : list Q) f :
  (f <= length s)%nat ->
  (forall i, (i < f)%nat -> P (at_index s i)) -> Forall P (firstn f s).
Proof.
  revert f. induction s as [|x s IH]; intros f Hf H; [by rewrite firstn_nil|].
  destruct f as [|f]; simpl; [constructor|].
  constructor; [apply (H 0%nat); lia|].
  apply IH; [simpl in Hf; lia|]. intros i Hi. apply (H (S i)). lia.
Qed.

Lemma Forall_skipn_index (P : Q -> Prop) (s : list Q) f :
  (forall i, (f <= i < length s)%nat -> P (at_index s i)) -> Forall P (skipn f s).
Proof.
  revert f. induction s as [|x s IH]; intros f H; [by rewrite skipn_nil|].
  destruct f as [|f]; simpl.
  - constructor; [apply (H 0%nat); simpl; lia|].
    apply (IH 0%nat). intros i Hi. apply (H (S i)). simpl. lia.
  - apply IH. intros i Hi. apply (H (S i)). simpl. lia.
Qed.

Lemma skipn_at_index (s : list Q) f :
  (f < length s)%nat -> skipn f s = at_index s f :: skipn (S f) s.
Proof.
  revert f. induction s as [|x s IH]; intros f Hf; simpl in Hf; [lia|].
  destruct f as [|f]; [done|]. simpl. rewrite IH by lia. done.
Qed.

Lemma StronglySorted_skipn (s : list Q) f :
  StronglySorted Qle s -> StronglySorted Qle (skipn f s).
Proof.
  intros Hs. revert f. induction Hs as [|x s Hs IH Hall]; intros f.
  - rewrite skipn_nil. constructor.
  - destruct f; simpl; [by constructor|apply IH].
Qed.

Lemma countEq_split v (l : list Q) :
  StronglySorted Qle l -> Forall (fun x => v <= x) l ->
  (countEq v l <= length l)%nat /\
  Forall (fun x => x == v) (firstn (countEq v l) l) /\
  Forall (fun x => ~ x == v) (skipn (countEq v l) l).
Proof.
  induction 1 as [|x l Hs IH Hall]; intros Hge; simpl.
  - repeat split; constructor.
  - inversion Hge as [|? ? Hx Hl]; subst.
    destruct (Qeqb x v) eqn:E.
    + apply Qeqb_eq in E. destruct (IH Hl) as (H1 & H2 & H3).
      simpl. repeat split; [lia|by constructor|done].
    + apply Qeqb_neq in E. simpl. repeat split; [lia|constructor|].
      constructor; [done|]. eapply Forall_impl; [exact Hall|].
      intros y Hy Hyv. simpl in Hy. apply E. lra.
Qed.

(** The matching occurrences of a value that the search has located
    form one run of positions. *)
Lemma matchingIndices_run (s : list Q) (v : Q) (f : nat) :
  StronglySorted Qle s -> (f < length s)%nat ->
  (forall i, (i < f)%nat -> at_index s i < v) ->
  (forall i, (f <= i < length s)%nat -> v <= at_index s i) ->
  at_index s f == v ->
  matchingIndices s v = seq f (S (countEq v (skipn (S f) s))).
Proof.
  intros Hs Hf Hbelow Habove Heq.
  unfold matchingIndices.
  rewrite <- (firstn_skipn f s) at 1.
  rewrite matchingFrom_app, matchingFrom_none.
  2:{ apply Forall_firstn_index; [lia|]. intros i Hi Habs.
      specialize (Hbelow i Hi). lra. }
  rewrite length_firstn, Nat.min_l by lia. simpl.
  rewrite (skipn_at_index s f Hf). simpl.
  apply Qeqb_eq in Heq. rewrite Heq. f_equal.
  set (rest := skipn (S f) s).
  destruct (countEq_split v rest) as (Hc & Hall & Hnone).
  { by apply StronglySorted_skipn. }
  { apply Forall_skipn_index. intros i Hi. apply Habove. lia. }
  rewrite <- (firstn_skipn (countEq v rest) rest) at 1.
  rewrite matchingFrom_app, (matchingFrom_all _ _ _ Hall), (matchingFrom_none _ _ _ Hnone).
  rewrite app_nil_r, length_firstn, Nat.min_l by lia. done.
Qed.

Lemma walkBack_stop (s : list Q) v f :
  (0 < f)%nat -> ~ at_index s (f - 1) == v -> walkBack s v f = f.
Proof.
  intros Hf Hne. destruct f as [|j]; [lia|]. simpl.
  replace (S j - 1)%nat with j in Hne by lia.
  apply Qeqb_neq in Hne. by rewrite Hne.
Qed.

Section RankGeneral.

Variable s : list Q.
Hypothesis Hs : StronglySorted Qle s.
Hypothesis Hn : (2 <= length s)%nat.
Hypothesis Hrange : at_index s 0 < at_index s (length s - 1).

Variable v : Q.
Hypothesis Hlo : at_index s 0 < v.
Hypothesis Hhi : v < at_index s (length s - 1).

(** Where the search and the backward walk arrive. *)
Lemma firstIndex_located :
  exists f : nat,
    bsearchLow s v 0 (Z.of_nat (length s - 1)) = Z.of_nat f /\
    walkBack s v (Z.to_nat (Z.max 0 (Z.of_nat f))) = f /\
    (1 <= f)%nat /\ (f < length s)%nat /\
    (forall i, (i < f)%nat -> at_index s i < v) /\
    (forall i, (f <= i < length s)%nat -> v <= at_index s i).
Proof.
  destruct (bsearchLow_spec s v 0 (Z.of_nat (length s - 1)) Hs) as (Hr & Hb & Ha);
    try lia.
  set (r := bsearchLow s v 0 (Z.of_nat (length s - 1))) in *.
  exists (Z.to_nat r).
  assert (H1 : (1 <= Z.to_nat r)%nat).
  { destruct (Z.to_nat r) eqn:E; [|lia].
    specialize (Ha 0%nat ltac:(lia)). lra. }
  assert (H2 : (Z.to_nat r < length s)%nat).
  { destruct (decide (Z.to_nat r < length s)%nat) as [|Hge]; [done|].
    specialize (Hb (length s - 1)%nat ltac:(lia)). lra. }
  split; [lia|]. split; [|done].
  rewrite Z.max_r, Nat2Z.id by lia.
  apply walkBack_stop; [lia|]. intros Habs.
  specialize (Hb (Z.to_nat r - 1)%nat ltac:(lia)). lra.
Qed.

Lemma rankGeneral_matching :
  matchingIndices s v <> [] ->
  exists r, rankGeneral s (Fin v) = Some r /\
            r == meanIndex (matchingIndices s v) / natQ (length s - 1).
Proof.
  intros Hmatch.
  destruct firstIndex_located as (f & Hbs & Hwb & Hf1 & Hfn & Hbelow & Habove).
  assert (Heq : at_index s f == v).
  { apply matchingFrom_nonempty_In in Hmatch as (x & Hin & Hx).
    apply (In_nth _ _ 0) in Hin as (i & Hi & Hnth). fold (at_index s i) in Hnth.
    subst x.
    destruct (decide (i < f)%nat) as [Hlt|Hge].
    - specialize (Hbelow i Hlt). lra.
    - assert (at_index s f <= at_index s i)
        by (apply sorted_at_index_le; [done|lia|lia]).
      specialize (Habove f ltac:(lia)). lra. }
  unfold rankGeneral.
  destruct (Qleb v (at_index s 0)) eqn:E1; [apply Qleb_le in E1; lra|].
  destruct (Qgeb v (at_index s (length s - 1))) eqn:E2; [apply Qgeb_ge in E2; lra|].
  cbv zeta. rewrite Hbs, Hwb.
  apply Qeqb_eq in Heq. rewrite Heq. apply Qeqb_eq in Heq.
  eexists. split; [reflexivity|].
  rewrite (matchingIndices_run s v f Hs Hfn Hbelow Habove Heq), meanIndex_run.
  unfold walkForward. reflexivity.
Qed.

Lemma rankGeneral_between :
  matchingIndices s v = [] ->
  exists r k, rankGeneral s (Fin v) = Some r /\
    (S k < length s)%nat /\ at_index s k < v /\ v < at_index s (S k) /\
    r == (natQ k + (v - at_index s k) / (at_index s (S k) - at_index s k))
         / natQ (length s - 1).
Proof.
  intros Hnone.
  destruct firstIndex_located as (f & Hbs & Hwb & Hf1 & Hfn & Hbelow & Habove).
  assert (Hne : ~ at_index s f == v).
  { intros Heq. assert (Hex : matchingIndices s v <> []).
    { apply matchingFrom_nonempty_In. exists (at_index s f).
      split; [by apply at_index_In|done]. }
    done. }
  assert (Hgt : v < at_index s f) by (specialize (Habove f ltac:(lia)); lra).
  assert (Hprev : at_index s (f - 1) < v) by (apply Hbelow; lia).
  unfold rankGeneral.
  destruct (Qleb v (at_index s 0)) eqn:E1; [apply Qleb_le in E1; lra|].
  destruct (Qgeb v (at_index s (length s - 1))) eqn:E2; [apply Qgeb_ge in E2; lra|].
  cbv zeta. rewrite Hbs, Hwb.
  apply Qeqb_neq in Hne. rewrite Hne.
  destruct (Qeqb (at_index s f - at_index s (f - 1)) 0) eqn:E3;
    [apply Qeqb_eq in E3; lra|].
  eexists. exists (f - 1)%nat. split; [reflexivity|].
  replace (S (f - 1)) with f by lia.
  split; [done|]. split; [done|]. split; [done|].
  rewrite (natQ_pred f) by lia. reflexivity.
Qed.

End RankGeneral.

Lemma finiteValues_In a values : In (Fin a) values -> In a (sortAsc (finiteValues values)).
Proof.
  intros H. apply (Permutation_in _ (Permutation_sym (sortAsc_perm _))).
  apply list_elem_of_In, list_elem_of_omap. exists (Fin a).
  split; [by apply list_elem_of_In|done].
Qed.

Lemma sorted_bounds (s : list Q) x :
  StronglySorted Qle s -> In x s ->
  at_index s 0 <= x /\ x <= at_index s (length s - 1).
Proof.
  intros Hs Hin. apply (In_nth _ _ 0) in Hin as (i & Hi & Hnth).
  fold (at_index s i) in Hnth. subst x.
  split; apply sorted_at_index_le; try done; lia.
Qed.

Lemma twoDistinct_general values :
  twoDistinct values ->
  let s := sortAsc (finiteValues values) in
  (2 <= length s)%nat /\ at_index s 0 < at_index s (length s - 1) /\
  createPercentileRanker values = rankGeneral s.
Proof.
  intros (a & b & Ha & Hb & Hab) s.
  pose proof (sortAsc_sorted (finiteValues values)) as Hs. fold s in Hs.
  apply finiteValues_In in Ha, Hb. fold s in Ha, Hb.
  destruct (sorted_bounds s a Hs Ha) as [Ha1 Ha2].
  destruct (sorted_bounds s b Hs Hb) as [Hb1 Hb2].
  assert (Hlt : at_index s 0 < at_index s (length s - 1)).
  { destruct (Q_dec a b) as [[H|H]|H]; [lra|lra|done]. }
  assert (Hlen : (2 <= length s)%nat).
  { destruct s as [|x [|y s']]; simpl in *; [done| |lia].
    unfold at_index in Hlt. simpl in Hlt. lra. }
  split; [done|]. split; [done|].
  unfold createPercentileRanker. fold s.
  destruct s as [|x [|y s']] eqn:Es; simpl in Hlen; [lia|lia|].
  rewrite <- Es in *.
  assert (x = at_index s 0) as -> by (by rewrite Es).
  destruct (Qeqb _ _) eqn:E; [|done].
  apply Qeqb_eq in E. lra.
Qed.

(** The ranks of the spec's example, derived from the rules above. *)
Lemma exampleDistribution_ranks :
  createPercentileRanker exampleDistribution (Fin 10) = Some 0 /\
  createPercentileRanker exampleDistribution (Fin 30) = Some 1 /\
  (exists r, createPercentileRanker exampleDistribution (Fin 20) = Some r /\ r == 1 # 2) /\
  (exists r, createPercentileRanker exampleDistribution (Fin 25) = Some r /\
             r == (25 # 10) / 3).
Proof.
  assert (Htwo : twoDistinct exampleDistribution).
  { exists 10, 30. split; [left; reflexivity|]. split; [do 3 right; left; reflexivity|].
    intros H. discriminate H. }
  destruct (twoDistinct_general _ Htwo) as (Hn & Hrange & ->).
  assert (Hsorted : sortAsc (finiteValues exampleDistribution) = [10; 20; 20; 30])
    by reflexivity.
  rewrite Hsorted in *.
  assert (Hs : StronglySorted Qle [10; 20; 20; 30]).
  { rewrite <- Hsorted. apply sortAsc_sorted. }
  split; [reflexivity|]. split; [reflexivity|]. split.
  - destruct (rankGeneral_matching _ Hs Hn 20) as (r & Hr & Hmean);
      [reflexivity|reflexivity|discriminate|].
    exists r. split; [exact Hr|]. rewrite Hmean. reflexivity.
  - destruct (rankGeneral_between _ Hs Hn 25) as (r & k & Hr & Hk & Hlt & Hgt & Hval);
      [reflexivity|reflexivity|reflexivity|].
    exists r. split; [exact Hr|]. rewrite Hval.
    destruct k as [|[|[|k]]]; try (simpl in Hk; lia).
    + exfalso. revert Hgt. unfold at_index. simpl. intros Hgt. discriminate Hgt.
    + exfalso. revert Hgt. unfold at_index. simpl. intros Hgt. discriminate Hgt.
    + reflexivity.
Qed.

(** C4 (as amended): for a distribution with at least two distinct finite
    values, a query at or below the minimum ranks 0 and a query at or
    above the maximum ranks 1; a query strictly between them that equals
    stored values ranks at the mean positional index of the matching
    occurrences divided by (count - 1); a query strictly between two
    adjacent distinct stored values ranks at the interpolated fractional
    index divided by (count - 1); a non-finite query has no rank.  For
    [10, 20, 20, 30]: rank(10) = 0, rank(30) = 1, rank(20) = 0.5 and
    rank(25) = 2.5/3. *)
Theorem C4_percentile_rank (values : list jsnum) :
  twoDistinct values ->
  let sorted := sortAsc (finiteValues values) in
  let n := length sorted in
  let rank := createPercentileRanker values in
  let lo := at_index sorted 0 in
  let hi := at_index sorted (n - 1) in
  (StronglySorted Qle sorted /\ (2 <= n)%nat /\ lo < hi) /\
  (forall v, v <= lo -> rank (Fin v) = Some 0) /\
  (forall v, hi <= v -> rank (Fin v) = Some 1) /\
  (forall v, lo < v -> v < hi -> matchingIndices sorted v <> [] ->
     exists r, rank (Fin v) = Some r /\
               r == meanIndex (matchingIndices sorted v) / natQ (n - 1)) /\
  (forall v, lo < v -> v < hi -> matchingIndices sorted v = [] ->
     exists r k, rank (Fin v) = Some r /\
       (S k < n)%nat /\ at_index sorted k < v /\ v < at_index sorted (S k) /\
       r == (natQ k + (v - at_index sorted k)
                      / (at_index sorted (S k) - at_index sorted k))
            / natQ (n - 1)) /\
  (rank NaN = None /\ rank PosInf = None /\ rank NegInf = None) /\
  (createPercentileRanker exampleDistribution (Fin 10) = Some 0 /\
   createPercentileRanker exampleDistribution (Fin 30) = Some 1 /\
   (exists r, createPercentileRanker exampleDistribution (Fin 20) = Some r /\ r == 1 # 2) /\
   (exists r, createPercentileRanker exampleDistribution (Fin 25) = Some r /\
              r == (25 # 10) / 3)).
Proof.
  intros Htwo sorted n rank lo hi.
  destruct (twoDistinct_general values Htwo) as (Hn & Hrange & Hgen).
  fold sorted in Hn, Hrange, Hgen. fold n in Hn, Hrange. fold lo hi in Hrange.
  assert (Hs : StronglySorted Qle sorted) by apply sortAsc_sorted.
  unfold rank. rewrite Hgen.
  split; [done|].
  split.
  { intros v Hv. unfold rankGeneral. fold lo.
    apply Qleb_le in Hv. by rewrite Hv. }
  split.
  { intros v Hv. unfold rankGeneral. fold n lo hi.
    destruct (Qleb v lo) eqn:E; [apply Qleb_le in E; lra|].
    apply Qgeb_ge in Hv. by rewrite Hv. }
  split; [intros v H1 H2 H3; by apply rankGeneral_matching|].
  split; [intros v H1 H2 H3; by apply rankGeneral_between|].
  split; [done|].
  exact exampleDistribution_ranks.
Qed.

Lemma C4_percentile_rank_witness :
  createPercentileRanker exampleDistribution (Fin 5) = Some 0 /\
  (exists r, createPercentileRanker exampleDistribution (Fin 20) = Some r /\
             r == meanIndex [1; 2]%nat / 3).
Proof.
  assert (Htwo : twoDistinct exampleDistribution).
  { exists 10, 30. split; [left; reflexivity|]. split; [do 3 right; left; reflexivity|].
    intros H. discriminate H. }
  destruct (C4_percentile_rank exampleDistribution Htwo)
    as (_ & Hbelow & _ & Hmatch & _).
  split.
  - apply Hbelow. discriminate.
  - destruct (Hmatch 20) as (r & Hr & Hmean); [reflexivity|reflexivity|discriminate|].
    exists r. split; [exact Hr|exact Hmean].
Defined.

(** A tied minimum: the query 10 equals the stored values at positions 0
    and 1 and is not below the minimum, so the tie rule of spec §4.6
    gives (0 + 1) / 2 / 3 = 1/6, but the ranker returns 0. *)
Lemma C4_counterexample_tied_minimum :
  twoDistinct tiedMinimum /\
  sortAsc (finiteValues tiedMinimum) = [10; 10; 20; 30] /\
  ~ 10 < at_index (sortAsc (finiteValues tiedMinimum)) 0 /\
  matchingIndices (sortAsc (finiteValues tiedMinimum)) 10 = [0; 1]%nat /\
  meanIndex [0; 1]%nat / natQ (4 - 1) == 1 # 6 /\
  createPercentileRanker tiedMinimum (Fin 10) = Some 0 /\
  ~ 0 == 1 # 6.
Proof.
  split.
  { exists 10, 30. split; [left; reflexivity|]. split; [do 3 right; left; reflexivity|].
    intros H. discriminate H. }
  split; [reflexivity|]. split; [intros H; discriminate H|].
  split; [reflexivity|]. split; [reflexivity|]. split; [reflexivity|].
  intros H. discriminate H.
Qed.

(** ** Ray casting as a parity of crossed edges *)

Lemma parity_app l1 l2 : parity (l1 ++ l2) = xorb (parity l1) (parity l2).
Proof.
  induction l1 as [|b l1 IH]; simpl; [by destruct (parity l2)|].
  rewrite IH. by destruct b, (parity l1), (parity l2).
Qed.

Lemma parity_perm l1 l2 : l1 ≡ₚ l2 -> parity l1 = parity l2.
Proof.
  induction 1 as [|b l1 l2 _ IH|a b l|l1 l2 l3 _ IH1 _ IH2]; simpl.
  - done.
  - by rewrite IH.
  - by destruct a, b, (parity l).
  - by rewrite IH1.
Qed.

Lemma parity_odd (P : position * position -> bool) l :
  parity (map P l) = Nat.odd (length (List.filter P l)).
Proof.
  induction l as [|e l IH]; [done|].
  cbn [map parity fold_right List.filter]. fold (parity (map P l)). rewrite IH.
  destruct (P e); [|done].
  cbn [length]. rewrite Nat.odd_succ, <- Nat.negb_odd. by destruct (Nat.odd _).
Qed.

Lemma parity_all_false (P : position * position -> bool) l :
  (forall e, In e l -> P e = false) -> parity (map P l) = false.
Proof.
  induction l as [|e l IH]; intros H; [done|].
  simpl. rewrite (H e) by (by left). simpl. apply IH. intros e' He'. apply H. by right.
Qed.

Lemma ringLoop_parity p prev rest inside :
  ringLoop p prev rest inside =
  xorb inside (parity (map (crossesRay p) (edgesFrom prev rest))).
Proof.
  revert prev inside. induction rest as [|cur rest IH]; intros prev inside; simpl.
  - by destruct inside.
  - rewrite IH. unfold crossesRay at 2. simpl.
    by destruct (intersect p cur prev), inside, (parity _).
Qed.

Lemma pointInRing_parity p r :
  pointInRing p r = parity (map (crossesRay p) (edges r)).
Proof.
  unfold pointInRing, edges. destruct r as [|v r]; [done|].
  by rewrite ringLoop_parity.
Qed.

Lemma pointInRing_rayParity p r : pointInRing p r = rayParity p r.
Proof. unfold rayParity. by rewrite pointInRing_parity, parity_odd. Qed.

(** Every edge joins two vertices of the ring. *)
Lemma edgesFrom_In prev rest a b :
  In (a, b) (edgesFrom prev rest) -> (a = prev \/ In a rest) /\ In b rest.
Proof.
  revert prev. induction rest as [|cur rest IH]; intros prev; simpl; [done|].
  intros [[= <- <-]|H]; [by split; [left|left]|].
  destruct (IH _ H) as [[->|Ha] Hb]; split; auto.
Qed.

Lemma last_In (r : ring) v : r <> [] -> In (List.last r v) r.
Proof.
  induction r as [|x r IH]; [done|]. intros _.
  destruct r as [|y r]; [by left|]. right. apply IH. done.
Qed.

Lemma edges_In r a b : In (a, b) (edges r) -> In a r /\ In b r.
Proof.
  unfold edges. destruct r as [|v r]; [done|].
  intros H. apply edgesFrom_In in H as [[->|Ha] Hb]; split; try done.
  apply last_In. done.
Qed.

Lemma last_default_indep {A} (l : list A) (d d' : A) :
  l <> [] -> List.last l d = List.last l d'.
Proof.
  induction l as [|x l IH]; [done|]. intros _.
  destruct l as [|y l]; [done|].
  change (List.last (y :: l) d = List.last (y :: l) d'). by apply IH.
Qed.

Lemma last_cons_shift {A} (cur prev : A) (rest : list A) :
  List.last (cur :: rest) prev = List.last rest cur.
Proof.
  destruct rest as [|x rest]; [done|].
  change (List.last (x :: rest) prev = List.last (x :: rest) cur).
  by apply last_default_indep.
Qed.

(** Around a closed chain the flag of a vertex changes an even number of
    times. *)
Lemma flag_changes_chain (h : position -> bool) prev rest :
  parity (map (fun e => xorb (h (fst e)) (h (snd e))) (edgesFrom prev rest)) =
  xorb (h prev) (h (List.last rest prev)).
Proof.
  revert prev. induction rest as [|cur rest IH]; intros prev.
  - simpl. by destruct (h prev).
  - cbn [edgesFrom map parity fold_right].
    fold (parity (map (fun e => xorb (h (fst e)) (h (snd e))) (edgesFrom cur rest))).
    rewrite IH, last_cons_shift. simpl fst. simpl snd.
    by destruct (h prev), (h cur), (h (List.last rest cur)).
Qed.

Lemma flag_changes_cycle (h : position -> bool) r :
  parity (map (fun e => xorb (h (fst e)) (h (snd e))) (edges r)) = false.
Proof.
  unfold edges. destruct r as [|v r]; [done|].
  rewrite flag_changes_chain.
  rewrite (last_default_indep (v :: r) (List.last (v :: r) v) v) by done.
  by destruct (h _).
Qed.

(** ** The ring loop for any edge test *)

Section RingScanFacts.

Context {P : Type} (crosses : P -> P -> bool).

Lemma ringScanFrom_parity (prev : P) (rest : list P) (inside : bool) :
  ringScanFrom crosses prev rest inside =
  xorb inside (parity (crossingsFrom crosses prev rest)).
Proof.
  revert prev inside. induction rest as [|cur rest IH]; intros prev inside.
  - simpl. by destruct inside.
  - cbn [ringScanFrom crossingsFrom parity fold_right]. rewrite IH.
    fold (parity (crossingsFrom crosses cur rest)).
    by destruct (crosses cur prev), inside, (parity _).
Qed.

Lemma ringScan_parity (r : list P) : ringScan crosses r = parity (crossings crosses r).
Proof.
  unfold ringScan, crossings. destruct r as [|v r]; [done|].
  by rewrite ringScanFrom_parity.
Qed.

Lemma crossingsFrom_snoc (prev x : P) (l : list P) :
  crossingsFrom crosses prev (l ++ [x]) =
  crossingsFrom crosses prev l ++ [crosses x (List.last l prev)].
Proof.
  revert prev. induction l as [|y l IH]; intros prev; [done|].
  cbn [app crossingsFrom]. rewrite IH. cbn [app]. by rewrite last_cons_shift.
Qed.

Lemma crossings_cons (x : P) (l : list P) :
  crossings crosses (x :: l) = crosses x (List.last l x) :: crossingsFrom crosses x l.
Proof.
  unfold crossings. cbn [crossingsFrom]. by rewrite last_cons_shift.
Qed.

Lemma crossings_snoc (x : P) (l : list P) :
  crossings crosses (l ++ [x]) = crossingsFrom crosses x l ++ [crosses x (List.last l x)].
Proof.
  unfold crossings. destruct (l ++ [x]) as [|y t] eqn:E; [by destruct l|].
  rewrite <- E, last_last. apply crossingsFrom_snoc.
Qed.

Lemma ringScan_rotate1 (x : P) (l : list P) :
  ringScan crosses (l ++ [x]) = ringScan crosses (x :: l).
Proof.
  rewrite !ringScan_parity, crossings_snoc, crossings_cons.
  apply parity_perm. symmetry. apply Permutation_cons_append.
Qed.

Lemma ringScan_rotate (l1 l2 : list P) :
  ringScan crosses (l2 ++ l1) = ringScan crosses (l1 ++ l2).
Proof.
  revert l2. induction l1 as [|x l1 IH]; intros l2.
  - by rewrite app_nil_r.
  - cbn [app]. rewrite <- ringScan_rotate1, <- app_assoc.
    rewrite <- IH. by rewrite <- app_assoc.
Qed.

Lemma ringScan_closed (v : P) (l : list P) :
  crosses v v = false ->
  ringScan crosses ((v :: l) ++ [v]) = ringScan crosses (v :: l).
Proof.
  intros Hvv. rewrite !ringScan_parity, crossings_snoc, crossings_cons.
  cbn [crossingsFrom]. rewrite Hvv.
  rewrite last_cons_shift.
  cbn [app parity fold_right]. fold (parity (crossingsFrom crosses v l ++ [crosses v (List.last l v)])).
  rewrite parity_app. cbn [parity fold_right].
  fold (parity (crossingsFrom crosses v l)).
  by destruct (parity _), (crosses v (List.last l v)).
Qed.

End RingScanFacts.

Lemma ringLoop_ringScanFrom (p prev : position) (rest : ring) (inside : bool) :
  ringLoop p prev rest inside = ringScanFrom (intersect p) prev rest inside.
Proof.
  revert prev inside. induction rest as [|cur rest IH]; intros prev inside; [done|].
  cbn [ringLoop ringScanFrom]. apply IH.
Qed.

Lemma pointInRing_ringScan (p : position) (r : ring) :
  pointInRing p r = ringScan (intersect p) r.
Proof.
  unfold pointInRing, ringScan. destruct r as [|v r]; [done|]. apply ringLoop_ringScanFrom.
Qed.

Lemma intersect_degenerate (p v : position) : intersect p v v = false.
Proof.
  destruct p as [x y], v as [xi yi]. unfold intersect.
  by rewrite Bool.eqb_reflx.
Qed.

Lemma Double_intersect_degenerate (p v : Double.position) : Double.intersect p v v = false.
Proof.
  destruct p as [x y], v as [xi yi]. unfold Double.intersect.
  by rewrite Bool.eqb_reflx.
Qed.

Lemma parity_count (l : list bool) : parity l = Nat.odd (length (List.filter id l)).
Proof.
  induction l as [|b l IH]; [done|].
  cbn [parity fold_right List.filter]. fold (parity l). rewrite IH.
  destruct b; cbn [id]; [|done].
  cbn [length]. rewrite Nat.odd_succ, <- Nat.negb_odd. by destruct (Nat.odd _).
Qed.

(** ** Where double precision departs from exact arithmetic *)

(** The ring test of the source evaluates the crossing abscissa in
    doubles.  For the ring and the point below, whose longitude is less
    than that of every vertex, the rounded abscissa of one edge falls to
    the west of the point: the test counts one crossing and answers
    true, where exact arithmetic answers false. *)
Lemma double_outside_box_counted_inside :
  forallb (fun v => PrimFloat.ltb (fst Double.westOfSliver) (fst v)) Double.sliverRing = true /\
  Double.pointInRing Double.westOfSliver Double.sliverRing = true /\
  pointInRing (Double.exact Double.westOfSliver) (map Double.exact Double.sliverRing) = false.
Proof. repeat split; vm_compute; reflexivity. Qed.

(** A point strictly inside a triangle that the double-precision test
    places outside, and a point strictly outside a triangle that it
    places inside. *)
Lemma double_convex_misjudged :
  (leftOfAllEdges (Double.exact Double.insideLean) (map Double.exact Double.leanTriangle) /\
   pointInRing (Double.exact Double.insideLean) (map Double.exact Double.leanTriangle) = true /\
   Double.pointInRing Double.insideLean Double.leanTriangle = false) /\
  (rightOfSomeEdge (Double.exact Double.outsideFlat) (map Double.exact Double.flatTriangle) /\
   pointInRing (Double.exact Double.outsideFlat) (map Double.exact Double.flatTriangle) = false /\
   Double.pointInRing Double.outsideFlat Double.flatTriangle = true).
Proof.
  split; (split; [|split; vm_compute; reflexivity]).
  - intros a b Hab. vm_compute in Hab.
    destruct Hab as [[= <- <-]|[[= <- <-]|[[= <- <-]|[]]]]; vm_compute; reflexivity.
  - eexists _, _. split; [right; left; reflexivity|]. vm_compute. reflexivity.
Qed.

(** ** The crossing abscissa *)

Lemma crossesRay_unfold (p a b : position) :
  crossesRay p (a, b) =
  xorb (above (snd p) b) (above (snd p) a) && Qltb (fst p) (abscissaAt (snd p) b a).
Proof.
  destruct p as [x y], a as [xj yj], b as [xi yi].
  unfold crossesRay, intersect, above, abscissaAt. simpl.
  by destruct (Qgtb yi y), (Qgtb yj y).
Qed.

Lemma above_true y v : above y v = true <-> y < snd v.
Proof. apply Qgtb_gt. Qed.

Lemma above_false y v : above y v = false <-> snd v <= y.
Proof. apply Qgtb_le. Qed.

(** When the edge straddles the line, the abscissa is a convex
    combination of the abscissas of its end points. *)
Lemma abscissaAt_combination y (cur prev : position) :
  xorb (above y cur) (above y prev) = true ->
  exists t, 0 <= t /\ t <= 1 /\
    abscissaAt y cur prev == fst cur + (fst prev - fst cur) * t /\
    y == snd cur + (snd prev - snd cur) * t.
Proof.
  destruct cur as [xi yi], prev as [xj yj]. unfold abscissaAt. simpl.
  intros Hx. exists ((y - yi) / (yj - yi)).
  assert (Hd : ~ yj - yi == 0 /\ 0 <= (y - yi) / (yj - yi) /\ (y - yi) / (yj - yi) <= 1).
  { destruct (above y (xi, yi)) eqn:Ei, (above y (xj, yj)) eqn:Ej; try discriminate Hx.
    - apply above_true in Ei. apply above_false in Ej. simpl in Ei, Ej.
      assert (Hneg : yj - yi < 0) by lra.
      split; [lra|].
      assert (He : (y - yi) / (yj - yi) == (yi - y) / (yi - yj)) by (field; lra).
      rewrite He. split.
      + apply Qle_shift_div_l; lra.
      + apply Qle_shift_div_r; lra.
    - apply above_false in Ei. apply above_true in Ej. simpl in Ei, Ej.
      split; [lra|]. split.
      + apply Qle_shift_div_l; lra.
      + apply Qle_shift_div_r; lra. }
  destruct Hd as (Hne & H0 & H1).
  split; [done|]. split; [done|]. split; field; lra.
Qed.

Lemma abscissaAt_bounds y (cur prev : position) lo hi :
  xorb (above y cur) (above y prev) = true ->
  lo <= fst cur -> lo <= fst prev -> fst cur <= hi -> fst prev <= hi ->
  lo <= abscissaAt y cur prev /\ abscissaAt y cur prev <= hi.
Proof.
  intros Hx H1 H2 H3 H4.
  destruct (abscissaAt_combination y cur prev Hx) as (t & Ht0 & Ht1 & -> & _).
  split; nra.
Qed.

(** ** Bounding boxes *)

Lemma pointWithinBounds_false p b :
  pointWithinBounds p b = false <->
  let '(minLon, minLat, maxLon, maxLat) := b in
  fst p < minLon \/ maxLon < fst p \/ snd p < minLat \/ maxLat < snd p.
Proof.
  destruct p as [x y], b as [[[a b] c] d]. unfold pointWithinBounds. simpl.
  rewrite !andb_false_iff, !Qgeb_lt, !Qleb_gt. tauto.
Qed.

Lemma pointWithinBounds_true p b :
  pointWithinBounds p b = true <-> withinBox b p.
Proof.
  destruct p as [x y], b as [[[a b] c] d]. unfold pointWithinBounds, withinBox. simpl.
  rewrite !andb_true_iff, !Qgeb_ge, !Qleb_le. tauto.
Qed.

(** A point outside a box that holds every vertex of a ring is outside
    the ring. *)
Lemma pointInRing_outside_box p r b :
  Forall (withinBox b) r -> pointWithinBounds p b = false -> pointInRing p r = false.
Proof.
  intros Hall Hout. apply pointWithinBounds_false in Hout.
  destruct b as [[[minLon minLat] maxLon] maxLat].
  rewrite Forall_forall in Hall.
  assert (Hbox : forall a c, In (a, c) (edges r) ->
            withinBox (minLon, minLat, maxLon, maxLat) a /\
            withinBox (minLon, minLat, maxLon, maxLat) c).
  { intros a c He. apply edges_In in He as [Ha Hc].
    split; apply Hall; by apply list_elem_of_In. }
  rewrite pointInRing_parity.
  destruct (Qlt_le_dec maxLat (snd p)) as [Hy1|Hy1].
  { apply parity_all_false. intros [a c] He. rewrite crossesRay_unfold.
    destruct (Hbox a c He) as [(_ & _ & _ & Ha) (_ & _ & _ & Hc)].
    assert (above (snd p) a = false) as -> by (apply above_false; lra).
    assert (above (snd p) c = false) as -> by (apply above_false; lra).
    done. }
  destruct (Qlt_le_dec (snd p) minLat) as [Hy2|Hy2].
  { apply parity_all_false. intros [a c] He. rewrite crossesRay_unfold.
    destruct (Hbox a c He) as [(_ & _ & Ha & _) (_ & _ & Hc & _)].
    assert (above (snd p) a = true) as -> by (apply above_true; lra).
    assert (above (snd p) c = true) as -> by (apply above_true; lra).
    done. }
  destruct (Qlt_le_dec maxLon (fst p)) as [Hx1|Hx1].
  { apply parity_all_false. intros [a c] He. rewrite crossesRay_unfold.
    destruct (xorb _ _) eqn:Ex; [|done]. simpl.
    destruct (Hbox a c He) as [(Ha1 & Ha2 & _) (Hc1 & Hc2 & _)].
    destruct (abscissaAt_bounds (snd p) c a minLon maxLon Ex) as [_ Hhi]; try done.
    apply Qltb_ge. lra. }
  assert (Hx2 : fst p < minLon) by (destruct Hout as [?|[?|[?|?]]]; lra).
  rewrite <- (flag_changes_cycle (above (snd p)) r).
  f_equal. apply map_ext_in. intros [a c] He. rewrite crossesRay_unfold. simpl.
  rewrite (xorb_comm (above (snd p) a)).
  destruct (xorb _ _) eqn:Ex; [|done]. simpl.
  destruct (Hbox a c He) as [(Ha1 & Ha2 & _) (Hc1 & Hc2 & _)].
  destruct (abscissaAt_bounds (snd p) c a minLon maxLon Ex) as [Hlo _]; try done.
  apply Qltb_lt. lra.
Qed.

Lemma boundsUpdate_sound acc c : accSound acc -> accSound (boundsUpdate acc c).
Proof.
  destruct acc as [a b c' d]. unfold accSound, boundsUpdate, num_gtb. simpl.
  destruct a, b, c', d; simpl; try done;
    repeat match goal with |- context [Qltb ?x ?y] => destruct (Qltb x y) end; done.
Qed.

Lemma boundsUpdate_covers_new acc c : accSound acc -> accCovers (boundsUpdate acc c) c.
Proof.
  destruct acc as [a b c' d], c as [x y].
  unfold accSound, accCovers, boundsUpdate, num_gtb. simpl.
  destruct a, b, c', d; simpl; try done; intros _;
    repeat match goal with
           | |- context [Qltb ?x ?y] =>
               let E := fresh "E" in
               destruct (Qltb x y) eqn:E; [apply Qltb_lt in E|apply Qltb_ge in E]
           end; simpl; repeat split; lra.
Qed.

Lemma boundsUpdate_covers_old acc c c0 :
  accCovers acc c0 -> accCovers (boundsUpdate acc c) c0.
Proof.
  destruct acc as [a b c' d], c as [x y], c0 as [x0 y0].
  unfold accCovers, boundsUpdate, num_gtb. simpl.
  destruct a, b, c', d; simpl; try tauto; intros (H1 & H2 & H3 & H4);
    repeat match goal with
           | |- context [Qltb ?x ?y] =>
               let E := fresh "E" in
               destruct (Qltb x y) eqn:E; [apply Qltb_lt in E|apply Qltb_ge in E]
           end; simpl; repeat split; lra.
Qed.

Lemma walk1_covers cs : forall acc,
  accSound acc ->
  accSound (walk1 acc cs) /\
  (forall c0, accCovers acc c0 -> accCovers (walk1 acc cs) c0) /\
  (forall c, In c cs -> accCovers (walk1 acc cs) c).
Proof.
  unfold walk1. induction cs as [|c cs IH]; intros acc Hok; simpl.
  - split; [done|]. split; [done|]. intros c [].
  - destruct (IH (boundsUpdate acc c) (boundsUpdate_sound _ _ Hok)) as (H1 & H2 & H3).
    split; [done|]. split.
    + intros c0 Hc0. by apply H2, boundsUpdate_covers_old.
    + intros c1 [->|Hin]; [by apply H2, boundsUpdate_covers_new|by apply H3].
Qed.

Lemma walk2_concat rs acc : walk2 acc rs = walk1 acc (concat rs).
Proof.
  unfold walk2, walk1. revert acc. induction rs as [|r rs IH]; intros acc; [done|].
  simpl. by rewrite fold_left_app, IH.
Qed.

Lemma walk3_concat ps acc : walk3 acc ps = walk1 acc (concat (concat ps)).
Proof.
  unfold walk3. revert acc. induction ps as [|p ps IH]; intros acc; [done|].
  simpl. rewrite concat_app. unfold walk1 at 1. rewrite fold_left_app.
  fold (walk1 acc (concat p)). by rewrite IH, walk2_concat.
Qed.

(** The bounding box holds every coordinate of the geometry it was
    derived from (spec §3). *)
Lemma geometryBounds_covers g b :
  geometryBounds g = Some b -> forall c, In c (positionsOf g) -> withinBox b c.
Proof.
  intros Hb c Hin.
  assert (Hwalk : exists acc, acc = walk1 boundsSeed (positionsOf g) /\
            match acc with
            | mkAcc (Fin a0) (Fin b0) (Fin c0) (Fin d0) => Some (a0, b0, c0, d0)
            | _ => None
            end = Some b).
  { eexists. split; [reflexivity|]. rewrite <- Hb. unfold geometryBounds.
    destruct g; simpl positionsOf;
      rewrite ?walk2_concat, ?walk3_concat; reflexivity. }
  destruct Hwalk as (acc & Hacc & Hsome).
  destruct (walk1_covers (positionsOf g) boundsSeed) as (_ & _ & Hcov); [done|].
  specialize (Hcov c Hin). rewrite <- Hacc in Hcov.
  destruct acc as [[a0| | |] [b0| | |] [c0| | |] [d0| | |]]; try discriminate Hsome.
  injection Hsome as <-. destruct Hcov as (H1 & H2 & H3 & H4).
  unfold withinBox. simpl in *. done.
Qed.

Lemma In_concat_cons (c : position) (r : list position) rs :
  In c (concat (r :: rs)) <-> In c r \/ In c (concat rs).
Proof. change (concat (r :: rs)) with (r ++ concat rs). apply in_app_iff. Qed.

Lemma In_concat2_cons (c : position) (rings : list (list position)) polys :
  In c (concat (concat (rings :: polys))) <->
  In c (concat rings) \/ In c (concat (concat polys)).
Proof.
  change (concat (rings :: polys)) with (rings ++ concat polys).
  rewrite concat_app. apply in_app_iff.
Qed.

Lemma multiPolygonLoop_outside p polys b :
  (forall c, In c (concat (concat polys)) -> withinBox b c) ->
  pointWithinBounds p b = false ->
  forallb (fun rings : list ring => match rings with [] => false | _ => true end) polys = true ->
  multiPolygonLoop p polys = Returns false.
Proof.
  intros Hcov Hout. induction polys as [|rings polys IH]; [done|].
  simpl. intros Hne. apply andb_true_iff in Hne as [H1 H2].
  destruct rings as [|outer holes]; [discriminate|]. simpl.
  rewrite (pointInRing_outside_box p outer b); [|apply Forall_forall|done].
  - apply IH; [|done]. intros c Hc. apply Hcov.
    rewrite In_concat2_cons. by right.
  - intros c Hc. apply list_elem_of_In in Hc. apply Hcov.
    rewrite In_concat2_cons, In_concat_cons. by left; left.
Qed.

Lemma pointInPolygonGeom_outside p g b :
  (forall c, In c (positionsOf g) -> withinBox b c) ->
  pointWithinBounds p b = false ->
  hasOuterRing g = true ->
  pointInPolygonGeom p g = Returns false.
Proof.
  intros Hcov Hout Hne. destruct g as [| | | |rings|polys|]; try done.
  - destruct rings as [|outer holes]; [discriminate|]. simpl.
    rewrite (pointInRing_outside_box p outer b); [done| |done].
    apply Forall_forall. intros c Hc. apply list_elem_of_In in Hc. apply Hcov.
    cbn [positionsOf]. rewrite In_concat_cons. by left.
  - by apply (multiPolygonLoop_outside p polys b).
Qed.

(** With the crossing abscissa computed exactly, for a feature all of
    whose polygons have a ring 0 and that carries the bounding box
    derived from its own geometry: the box holds every coordinate of the
    geometry; a point outside the box fails the exact containment test;
    so the containment test with the pre-filter equals the exact test
    alone. *)
Lemma bounds_prefilter_exact (f : Feature) (p : position) :
  bounds f = geometryBounds (geometry f) ->
  hasOuterRing (geometry f) = true ->
  (forall b c, bounds f = Some b -> In c (positionsOf (geometry f)) ->
     pointWithinBounds c b = true) /\
  (boundsReject p f = true -> pointInPolygon p f = Returns false) /\
  contains p f = pointInPolygon p f.
Proof.
  intros Hb Hne.
  assert (Hcov : forall b, bounds f = Some b ->
            forall c, In c (positionsOf (geometry f)) -> withinBox b c).
  { intros b Hsome. apply geometryBounds_covers. by rewrite <- Hb. }
  assert (Hrej : boundsReject p f = true -> pointInPolygon p f = Returns false).
  { unfold boundsReject. destruct (bounds f) as [b|] eqn:E; [|done].
    intros Hout. apply negb_true_iff in Hout.
    by apply (pointInPolygonGeom_outside p (geometry f) b (Hcov b eq_refl)). }
  split; [|split].
  - intros b c Hsome Hc. apply pointWithinBounds_true. by apply (Hcov b).
  - exact Hrej.
  - unfold contains. destruct (boundsReject p f) eqn:E; [|done].
    symmetry. by apply Hrej.
Qed.

(** C6: a feature that carries the bounding box derived from its own
    geometry has every coordinate of the geometry inside the box, and the
    pre-filter only rejects: a feature found to contain the point with
    the pre-filter passes the exact test.  The exact test does not always
    agree with a rejection: for the MultiPolygon of a square and a
    polygon without rings, whose box is the square's, a point outside the
    box is rejected by the pre-filter, while the exact test raises; and
    in double precision the ring test answers true for a point to the
    west of every vertex of a ring. *)
Theorem C6_bounds_prefilter (f : Feature) (p : position) :
  (bounds f = geometryBounds (geometry f) ->
   forall b c, bounds f = Some b -> In c (positionsOf (geometry f)) ->
     pointWithinBounds c b = true) /\
  (contains p f = Returns true -> pointInPolygon p f = Returns true) /\
  (boundsReject p f = true -> contains p f = Returns false) /\
  (bounds twoPartFeature = geometryBounds (geometry twoPartFeature) /\
   bounds twoPartFeature = Some (0, 0, 4, 4) /\
   boundsReject (9, 9) twoPartFeature = true /\
   contains (9, 9) twoPartFeature = Returns false /\
   pointInPolygon (9, 9) twoPartFeature = Throws) /\
  (forallb (fun v => PrimFloat.ltb (fst Double.westOfSliver) (fst v)) Double.sliverRing = true /\
   Double.pointInRing Double.westOfSliver Double.sliverRing = true).
Proof.
  split; [|split; [|split; [|split]]].
  - intros Hb b c Hsome Hc. apply pointWithinBounds_true.
    apply (geometryBounds_covers (geometry f)); [by rewrite <- Hb|done].
  - unfold contains. by destruct (boundsReject p f).
  - unfold contains. by intros ->.
  - repeat split; reflexivity.
  - destruct double_outside_box_counted_inside as (Hwest & Hd & _). by split.
Qed.

Lemma C6_bounds_prefilter_witness :
  (forall c, In c (positionsOf (geometry holedFeature)) ->
     pointWithinBounds c (0, 0, 4, 4) = true) /\
  contains (5, 1) holedFeature = Returns false.
Proof.
  destruct (C6_bounds_prefilter holedFeature (5, 1)) as (Hcover & _ & Hreject & _).
  split.
  - intros c Hc. by apply (Hcover eq_refl (0, 0, 4, 4) c eq_refl).
  - apply Hreject. reflexivity.
Defined.

(** ** Convex polygons *)

Lemma Qdiv_pos_iff n d : 0 < d -> (0 < n / d <-> 0 < n).
Proof.
  intros Hd. split.
  - intros H. assert (He : n == (n / d) * d) by (field; lra). rewrite He. nra.
  - intros H. apply Qlt_shift_div_l; lra.
Qed.

Lemma Qdiv_neg_iff n d : d < 0 -> (0 < n / d <-> n < 0).
Proof.
  intros Hd.
  assert (He : n / d == (- n) / (- d)) by (field; lra).
  rewrite He, Qdiv_pos_iff by lra. split; lra.
Qed.

(** The crossing abscissa and the signed area measure the same offset. *)
Lemma abscissaAt_cross (p a b : position) :
  ~ snd b == snd a ->
  abscissaAt (snd p) b a - fst p == cross a b p / (snd b - snd a).
Proof.
  destruct p as [x y], a as [ax ay], b as [bx by_]. unfold abscissaAt, cross. simpl.
  intros Hne. field. split; lra.
Qed.

Lemma crossesRay_up (p a b : position) :
  upEdge (snd p) (a, b) = true ->
  crossesRay p (a, b) = Qltb 0 (cross a b p).
Proof.
  unfold upEdge. simpl. intros H. apply andb_true_iff in H as [Ha Hb].
  apply negb_true_iff in Ha. rewrite crossesRay_unfold, Ha, Hb. simpl.
  apply above_false in Ha. apply above_true in Hb.
  pose proof (abscissaAt_cross p a b ltac:(lra)) as He.
  apply eq_true_iff_eq. rewrite !Qltb_lt.
  rewrite <- (Qdiv_pos_iff (cross a b p) (snd b - snd a)) by lra.
  rewrite <- He. split; lra.
Qed.

Lemma crossesRay_down (p a b : position) :
  downEdge (snd p) (a, b) = true ->
  crossesRay p (a, b) = Qltb (cross a b p) 0.
Proof.
  unfold downEdge. simpl. intros H. apply andb_true_iff in H as [Ha Hb].
  apply negb_true_iff in Hb. rewrite crossesRay_unfold, Ha, Hb. simpl.
  apply above_true in Ha. apply above_false in Hb.
  pose proof (abscissaAt_cross p a b ltac:(lra)) as He.
  apply eq_true_iff_eq. rewrite !Qltb_lt.
  rewrite <- (Qdiv_neg_iff (cross a b p) (snd b - snd a)) by lra.
  rewrite <- He. split; lra.
Qed.

Lemma crossesRay_level (p a b : position) :
  upEdge (snd p) (a, b) = false -> downEdge (snd p) (a, b) = false ->
  crossesRay p (a, b) = false.
Proof.
  unfold upEdge, downEdge. simpl. rewrite crossesRay_unfold.
  by destruct (above (snd p) a), (above (snd p) b).
Qed.

(** A point whose height lies within an edge and which is not strictly
    on either side of the edge's line is on the edge. *)
Lemma collinear_onSegment (a b v : position) :
  cross a b v == 0 ->
  (snd a <= snd v <= snd b \/ snd b <= snd v <= snd a) ->
  ~ snd a == snd b ->
  onSegment a b v.
Proof.
  destruct a as [ax ay], b as [bx by_], v as [vx vy]. unfold onSegment, cross. simpl.
  intros Hc Hy Hne. split; [done|].
  set (D := by_ - ay). set (s := vy - ay). set (E := bx - ax). set (e := vx - ax).
  assert (Hce : E * s == D * e) by (unfold D, s, E, e; lra).
  assert (Hs : 0 <= s * (D - s)) by (unfold D, s; nra).
  assert (HD : 0 < D * D) by (unfold D; nra).
  assert (Hkey : D * D * (e * (E - e)) == E * E * (s * (D - s))).
  { transitivity ((D * e) * (D * E - D * e)); [ring|].
    rewrite <- Hce. ring. }
  assert (He : 0 <= e * (E - e)).
  { assert (0 <= D * D * (e * (E - e))) by (rewrite Hkey; nra).
    nra. }
  unfold D, s, E, e in *. nra.
Qed.

(** Two edges that go up through the same height, each with the end
    points of the other in its closed left half-plane: the upper end of
    the lower one lies on the other edge. *)
Lemma up_edges_touch (y : Q) (a1 b1 a2 b2 : position) :
  snd a1 <= y -> y < snd b1 -> snd a2 <= y -> y < snd b2 ->
  snd b2 <= snd b1 ->
  0 <= cross a2 b2 a1 -> 0 <= cross a2 b2 b1 -> 0 <= cross a1 b1 b2 ->
  onSegment a1 b1 b2.
Proof.
  destruct a1 as [x1 y1], b1 as [x2 y2], a2 as [u w], b2 as [ox oy].
  unfold cross. simpl. intros H1 H2 H3 H4 H5 Ha Hb Hc.
  apply collinear_onSegment; unfold cross; simpl; [|lra|lra].
  assert (Hle : (x2 - x1) * (oy - y1) - (y2 - y1) * (ox - x1) <= 0).
  { assert (Hw : 0 < oy - w) by lra.
    assert (Hp1 : 0 <= ((ox - u) * (y1 - w) - (oy - w) * (x1 - u)) * (y2 - oy)) by nra.
    assert (Hp2 : 0 <= ((ox - u) * (y2 - w) - (oy - w) * (x2 - u)) * (oy - y1)) by nra.
    assert (Hsum : ((ox - u) * (y1 - w) - (oy - w) * (x1 - u)) * (y2 - oy)
                   + ((ox - u) * (y2 - w) - (oy - w) * (x2 - u)) * (oy - y1)
                   == - (oy - w) * ((x2 - x1) * (oy - y1) - (y2 - y1) * (ox - x1)))
      by ring.
    nra. }
  lra.
Qed.

Lemma down_edges_touch (y : Q) (a1 b1 a2 b2 : position) :
  y < snd a1 -> snd b1 <= y -> y < snd a2 -> snd b2 <= y ->
  snd b1 <= snd b2 ->
  0 <= cross a2 b2 a1 -> 0 <= cross a2 b2 b1 -> 0 <= cross a1 b1 b2 ->
  onSegment a1 b1 b2.
Proof.
  destruct a1 as [x1 y1], b1 as [x2 y2], a2 as [u w], b2 as [ox oy].
  unfold cross. simpl. intros H1 H2 H3 H4 H5 Ha Hb Hc.
  apply collinear_onSegment; unfold cross; simpl; [|lra|lra].
  assert (Hle : (x2 - x1) * (oy - y1) - (y2 - y1) * (ox - x1) <= 0).
  { assert (Hw : 0 < w - oy) by lra.
    assert (Hp1 : 0 <= ((ox - u) * (y1 - w) - (oy - w) * (x1 - u)) * (oy - y2)) by nra.
    assert (Hp2 : 0 <= ((ox - u) * (y2 - w) - (oy - w) * (x2 - u)) * (y1 - oy)) by nra.
    assert (Hsum : ((ox - u) * (y1 - w) - (oy - w) * (x1 - u)) * (oy - y2)
                   + ((ox - u) * (y2 - w) - (oy - w) * (x2 - u)) * (y1 - oy)
                   == (oy - w) * ((x2 - x1) * (oy - y1) - (y2 - y1) * (ox - x1)))
      by ring.
    nra. }
  lra.
Qed.

(** *** Edges and vertices *)

Lemma edgesFrom_snd prev rest : map snd (edgesFrom prev rest) = rest.
Proof.
  revert prev. induction rest as [|cur rest IH]; intros prev; simpl; [done|].
  by rewrite IH.
Qed.

Lemma edges_snd vs : map snd (edges vs) = vs.
Proof. unfold edges. destruct vs; [done|]. apply edgesFrom_snd. Qed.

Lemma edges_lookup_end vs k e : edges vs !! k = Some e -> vs !! k = Some (snd e).
Proof.
  intros H.
  assert (Hm : (snd <$> edges vs) !! k = Some (snd e))
    by (by rewrite list_lookup_fmap, H).
  change (snd <$> edges vs) with (map snd (edges vs)) in Hm.
  by rewrite edges_snd in Hm.
Qed.

Lemma lookup_In {A} (l : list A) k x : l !! k = Some x -> In x l.
Proof. intros H. apply list_elem_of_In. by eapply list_elem_of_lookup_2. Qed.

Lemma filter_at_most_one {A} (P : A -> bool) (l : list A) :
  (forall k1 k2 e1 e2, l !! k1 = Some e1 -> l !! k2 = Some e2 ->
     P e1 = true -> P e2 = true -> k1 = k2) ->
  (length (List.filter P l) <= 1)%nat.
Proof.
  induction l as [|e l IH]; intros H; simpl; [lia|].
  destruct (P e) eqn:E.
  - assert (Hnone : List.filter P l = []).
    { destruct (List.filter P l) as [|e' l'] eqn:El; [done|]. exfalso.
      assert (Hin : In e' (List.filter P l)) by (rewrite El; by left).
      apply filter_In in Hin as [Hin HP].
      apply list_elem_of_In, list_elem_of_lookup in Hin as [k Hk].
      specialize (H 0%nat (S k) e e' eq_refl Hk E HP). lia. }
    rewrite Hnone. simpl. lia.
  - apply IH. intros k1 k2 e1 e2 H1 H2 P1 P2.
    specialize (H (S k1) (S k2) e1 e2 H1 H2 P1 P2). lia.
Qed.

Lemma upEdge_heights y a b :
  upEdge y (a, b) = true <-> snd a <= y /\ y < snd b.
Proof.
  unfold upEdge. simpl. rewrite andb_true_iff, negb_true_iff, above_false, above_true.
  tauto.
Qed.

Lemma downEdge_heights y a b :
  downEdge y (a, b) = true <-> y < snd a /\ snd b <= y.
Proof.
  unfold downEdge. simpl. rewrite andb_true_iff, negb_true_iff, above_false, above_true.
  tauto.
Qed.

Section ConvexCCW.

Variable vs : list position.
Hypothesis Hconvex : convexCCW vs.
Variable y : Q.

Lemma convex_same_end k1 k2 (a1 b1 a2 b2 : position) :
  edges vs !! k1 = Some (a1, b1) -> edges vs !! k2 = Some (a2, b2) ->
  onSegment a1 b1 b2 -> ~ snd b2 == snd a1 -> k1 = k2.
Proof.
  destruct Hconvex as (_ & _ & Hdistinct & Hsimple).
  intros H1 H2 Hon Hne.
  pose proof (edges_lookup_end _ _ _ H1) as Hb1.
  pose proof (edges_lookup_end _ _ _ H2) as Hb2. simpl in Hb1, Hb2.
  destruct (Hsimple a1 b1 b2) as [[_ Habs]|Hsame]; try done.
  - by eapply lookup_In.
  - by eapply lookup_In.
  - symmetry. by apply (Hdistinct k2 k1 b2 b1).
Qed.

Lemma convex_one_up : (length (List.filter (upEdge y) (edges vs)) <= 1)%nat.
Proof.
  pose proof Hconvex as (_ & Hleft & _ & _).
  apply filter_at_most_one. intros k1 k2 [a1 b1] [a2 b2] H1 H2 Hu1 Hu2.
  apply upEdge_heights in Hu1 as [Hu1 Hu1'], Hu2 as [Hu2 Hu2'].
  pose proof (lookup_In _ _ _ H1) as Hin1. pose proof (lookup_In _ _ _ H2) as Hin2.
  destruct (edges_In _ _ _ Hin1) as [Ha1 Hb1], (edges_In _ _ _ Hin2) as [Ha2 Hb2].
  destruct (Qlt_le_dec (snd b1) (snd b2)) as [Hlt|Hle].
  - symmetry. apply (convex_same_end k2 k1 a2 b2 a1 b1); try done; [|lra].
    apply (up_edges_touch y a2 b2 a1 b1); try done; try lra; by apply Hleft.
  - apply (convex_same_end k1 k2 a1 b1 a2 b2); try done; [|lra].
    apply (up_edges_touch y a1 b1 a2 b2); try done; by apply Hleft.
Qed.

Lemma convex_one_down : (length (List.filter (downEdge y) (edges vs)) <= 1)%nat.
Proof.
  pose proof Hconvex as (_ & Hleft & _ & _).
  apply filter_at_most_one. intros k1 k2 [a1 b1] [a2 b2] H1 H2 Hd1 Hd2.
  apply downEdge_heights in Hd1 as [Hd1 Hd1'], Hd2 as [Hd2 Hd2'].
  pose proof (lookup_In _ _ _ H1) as Hin1. pose proof (lookup_In _ _ _ H2) as Hin2.
  destruct (edges_In _ _ _ Hin1) as [Ha1 Hb1], (edges_In _ _ _ Hin2) as [Ha2 Hb2].
  destruct (Qlt_le_dec (snd b2) (snd b1)) as [Hlt|Hle].
  - symmetry. apply (convex_same_end k2 k1 a2 b2 a1 b1); try done; [|lra].
    apply (down_edges_touch y a2 b2 a1 b1); try done; try lra; by apply Hleft.
  - apply (convex_same_end k1 k2 a1 b1 a2 b2); try done; [|lra].
    apply (down_edges_touch y a1 b1 a2 b2); try done; by apply Hleft.
Qed.

End ConvexCCW.

(** *** Where a flag rises along a closed chain *)

Lemma upEdge_rise y e : upEdge y e = rise (above y) e.
Proof. reflexivity. Qed.

Lemma downEdge_rise y e : downEdge y e = rise (fun v => negb (above y v)) e.
Proof. unfold downEdge, rise. by rewrite negb_involutive. Qed.

Lemma chain_stays_low (h : position -> bool) prev rest :
  (forall e, In e (edgesFrom prev rest) -> rise h e = false) ->
  h prev = false -> forall v, In v rest -> h v = false.
Proof.
  revert prev. induction rest as [|cur rest IH]; intros prev Hno Hprev v Hv; [done|].
  assert (Hcur : h cur = false).
  { specialize (Hno (prev, cur) ltac:(by left)). unfold rise in Hno. simpl in Hno.
    rewrite Hprev in Hno. by destruct (h cur). }
  destruct Hv as [<-|Hv]; [done|].
  apply (IH cur); [|done|done]. intros e He. apply Hno. by right.
Qed.

Lemma chain_ends_low (h : position -> bool) prev rest :
  (forall e, In e (edgesFrom prev rest) -> rise h e = false) ->
  h prev = false \/ (exists v, In v rest /\ h v = false) ->
  h (List.last rest prev) = false.
Proof.
  revert prev. induction rest as [|cur rest IH]; intros prev Hno Hlow.
  - simpl. destruct Hlow as [H|(v & [] & _)]. done.
  - rewrite last_cons_shift. apply IH.
    + intros e He. apply Hno. by right.
    + destruct Hlow as [Hprev|(v & [<-|Hv] & Hlow)].
      * left. specialize (Hno (prev, cur) ltac:(by left)). unfold rise in Hno.
        simpl in Hno. rewrite Hprev in Hno. by destruct (h cur).
      * by left.
      * right. by exists v.
Qed.

(** Without a rising edge, one low vertex makes every vertex low. *)
Lemma cycle_stays_low (h : position -> bool) vs :
  (forall e, In e (edges vs) -> rise h e = false) ->
  (exists v, In v vs /\ h v = false) ->
  forall v, In v vs -> h v = false.
Proof.
  unfold edges. destruct vs as [|v0 vs]; [done|].
  intros Hno Hlow. apply (chain_stays_low h (List.last (v0 :: vs) v0)); [done|].
  rewrite <- (last_default_indep (v0 :: vs) (List.last (v0 :: vs) v0) v0) by done.
  apply chain_ends_low; [done|]. by right.
Qed.

Lemma filter_nil_iff {A} (P : A -> bool) (l : list A) :
  List.filter P l = [] <-> forall e, In e l -> P e = false.
Proof.
  induction l as [|x l IH]; simpl; [done|].
  destruct (P x) eqn:E.
  - split; [done|]. intros H. specialize (H x ltac:(by left)). congruence.
  - rewrite IH. split.
    + intros H e [<-|He]; [done|by apply H].
    + intros H e He. apply H. by right.
Qed.

(** A flag that takes both values around the cycle rises somewhere. *)
Lemma cycle_rises (h : position -> bool) vs :
  (exists v, In v vs /\ h v = false) -> (exists v, In v vs /\ h v = true) ->
  List.filter (rise h) (edges vs) <> [].
Proof.
  intros Hlow (w & Hw & Hhigh) Hnil.
  rewrite filter_nil_iff in Hnil.
  rewrite (cycle_stays_low h vs Hnil Hlow w Hw) in Hhigh. discriminate.
Qed.

(** A rising edge shows both values. *)
Lemma rise_both (h : position -> bool) vs e :
  In e (edges vs) -> rise h e = true ->
  (exists v, In v vs /\ h v = false) /\ (exists v, In v vs /\ h v = true).
Proof.
  destruct e as [a b]. intros He Hr. apply edges_In in He as [Ha Hb].
  unfold rise in Hr. simpl in Hr. apply andb_true_iff in Hr as [H1 H2].
  apply negb_true_iff in H1. split; [by exists a|by exists b].
Qed.

Lemma up_iff_down y vs :
  List.filter (upEdge y) (edges vs) <> [] <-> List.filter (downEdge y) (edges vs) <> [].
Proof.
  split; intros Hne.
  - destruct (List.filter (upEdge y) (edges vs)) as [|e l] eqn:E; [done|].
    assert (Hin : In e (List.filter (upEdge y) (edges vs))) by (rewrite E; by left).
    apply filter_In in Hin as [Hin Hup].
    destruct (rise_both (above y) vs e Hin Hup) as [(v & Hv & Hlo) (w & Hw & Hhi)].
    assert (Hr : List.filter (rise (fun v => negb (above y v))) (edges vs) <> []).
    { apply cycle_rises; [exists w|exists v]; by rewrite ?Hhi, ?Hlo. }
    intros Hnil. apply Hr. rewrite <- Hnil. apply List.filter_ext.
    intros e'. symmetry. apply downEdge_rise.
  - destruct (List.filter (downEdge y) (edges vs)) as [|e l] eqn:E; [done|].
    assert (Hin : In e (List.filter (downEdge y) (edges vs))) by (rewrite E; by left).
    apply filter_In in Hin as [Hin Hdown]. rewrite downEdge_rise in Hdown.
    destruct (rise_both _ vs e Hin Hdown) as [(v & Hv & Hlo) (w & Hw & Hhi)].
    apply negb_false_iff in Hlo. apply negb_true_iff in Hhi.
    apply (cycle_rises (above y)); [by exists w|by exists v].
Qed.

(** The crossings of a ring are those of its rising and of its falling
    edges. *)
Lemma crossings_split p (l : list (position * position)) :
  parity (map (crossesRay p) l) =
  xorb (parity (map (crossesRay p) (List.filter (upEdge (snd p)) l)))
       (parity (map (crossesRay p) (List.filter (downEdge (snd p)) l))).
Proof.
  induction l as [|[a b] l IH]; [done|].
  assert (Hcons : forall b0 l0, parity (b0 :: l0) = xorb b0 (parity l0)) by done.
  cbn [map List.filter]. rewrite Hcons, IH.
  pose proof (crossesRay_level p a b) as Hlevel.
  set (c := crossesRay p (a, b)) in *.
  set (U := parity (map (crossesRay p) (List.filter (upEdge (snd p)) l))).
  set (D := parity (map (crossesRay p) (List.filter (downEdge (snd p)) l))).
  destruct (upEdge (snd p) (a, b)) eqn:Eu, (downEdge (snd p) (a, b)) eqn:Ed;
    cbn [map]; rewrite ?Hcons; fold c U D.
  - exfalso. unfold upEdge, downEdge in *. simpl in *.
    by destruct (above (snd p) a), (above (snd p) b).
  - clearbody c U D. by destruct c, U, D.
  - clearbody c U D. by destruct c, U, D.
  - rewrite Hlevel by done. clearbody U D. by destruct U, D.
Qed.

(** *** A point strictly inside sees vertices above and below *)

Lemma edges_pred vs v : In v vs -> exists c, In (c, v) (edges vs).
Proof.
  intros Hv. rewrite <- (edges_snd vs) in Hv.
  apply in_map_iff in Hv as ([c v'] & Hs & Hin). simpl in Hs. subst v'. by exists c.
Qed.

Lemma edgesFrom_succ prev rest v :
  In v rest -> (exists b, In (v, b) (edgesFrom prev rest)) \/ v = List.last rest prev.
Proof.
  revert prev. induction rest as [|cur rest IH]; intros prev Hv; [done|].
  rewrite last_cons_shift. destruct Hv as [<-|Hv].
  - destruct rest as [|c2 rest]; [by right|]. left. exists c2. simpl. right. by left.
  - destruct (IH cur Hv) as [(b & Hb)|Hlast]; [|by right].
    left. exists b. simpl. by right.
Qed.

Lemma edges_succ vs v : In v vs -> exists b, In (v, b) (edges vs).
Proof.
  unfold edges. destruct vs as [|v0 vs]; [done|]. intros Hv.
  destruct (edgesFrom_succ (List.last (v0 :: vs) v0) (v0 :: vs) v Hv) as [H|Hlast];
    [done|].
  exists v0.
  change (edgesFrom (List.last (v0 :: vs) v0) (v0 :: vs))
    with ((List.last (v0 :: vs) v0, v0) :: edgesFrom v0 vs).
  left. rewrite Hlast. f_equal. by apply last_default_indep.
Qed.

Section RatioChain.

Variable p : position.

Lemma slope_step (a b : position) :
  0 < (snd a - snd p) * (snd b - snd p) -> 0 < cross a b p ->
  slopeFrom p b < slopeFrom p a.
Proof.
  destruct a as [ax ay], b as [bx by_]. unfold slopeFrom, cross. simpl.
  generalize (fst p), (snd p). intros x y Hside Hc.
  assert (Hay : ~ ay - y == 0) by nra.
  assert (Hby : ~ by_ - y == 0) by nra.
  assert (He : (ax - x) / (ay - y) - (bx - x) / (by_ - y) ==
               ((bx - ax) * (y - ay) - (by_ - ay) * (x - ax)) / ((ay - y) * (by_ - y)))
    by (field; split; done).
  assert (Hpos : 0 < (ax - x) / (ay - y) - (bx - x) / (by_ - y)).
  { rewrite He. by apply Qdiv_pos_iff. }
  clear He. revert Hpos.
  generalize ((ax - x) / (ay - y)), ((bx - x) / (by_ - y)). intros ra rb Hpos. lra.
Qed.

Lemma slope_chain prev rest :
  (forall u w, In u (prev :: rest) -> In w (prev :: rest) ->
     0 < (snd u - snd p) * (snd w - snd p)) ->
  (forall a b, In (a, b) (edgesFrom prev rest) -> 0 < cross a b p) ->
  rest <> [] ->
  slopeFrom p (List.last rest prev) < slopeFrom p prev.
Proof.
  revert prev. induction rest as [|cur rest IH]; intros prev Hside Hleft Hne; [done|].
  rewrite last_cons_shift.
  assert (Hstep : slopeFrom p cur < slopeFrom p prev).
  { apply slope_step; [apply Hside; simpl; auto|apply Hleft; by left]. }
  destruct rest as [|c2 rest]; [done|].
  apply Qlt_trans with (slopeFrom p cur); [|exact Hstep].
  apply IH; [| |done].
  - intros u w Hu Hw. apply Hside; by right.
  - intros a b Hab. apply Hleft. by right.
Qed.

Lemma inside_not_one_side vs :
  vs <> [] -> leftOfAllEdges p vs ->
  ~ (forall u w, In u vs -> In w vs -> 0 < (snd u - snd p) * (snd w - snd p)).
Proof.
  intros Hne Hleft Hside. destruct vs as [|v0 vs]; [done|].
  assert (Hlast : In (List.last (v0 :: vs) v0) (v0 :: vs)) by (by apply last_In).
  pose proof (slope_chain (List.last (v0 :: vs) v0) (v0 :: vs)) as Hchain.
  match type of Hchain with
  | context [slopeFrom p ?t < _] =>
      assert (Heq : t = List.last (v0 :: vs) v0) by (by apply last_default_indep);
      rewrite Heq in Hchain
  end.
  apply (Qlt_irrefl (slopeFrom p (List.last (v0 :: vs) v0))).
  apply Hchain; [| |done].
  - intros u w [<-|Hu] [<-|Hw]; by apply Hside.
  - intros a b Hab. by apply Hleft.
Qed.

Lemma inside_sees_both vs :
  vs <> [] -> leftOfAllEdges p vs ->
  (exists v, In v vs /\ above (snd p) v = false) /\
  (exists v, In v vs /\ above (snd p) v = true).
Proof.
  intros Hne Hleft. split.
  - destruct (existsb (fun v => negb (above (snd p) v)) vs) eqn:E.
    + apply existsb_exists in E as (v & Hv & Hlow). apply negb_true_iff in Hlow. eauto.
    + exfalso. apply (inside_not_one_side vs Hne Hleft). intros u w Hu Hw.
      assert (Hall : forall v, In v vs -> snd p < snd v).
      { intros v Hv. apply above_true.
        destruct (above (snd p) v) eqn:Ev; [done|].
        assert (existsb (fun v => negb (above (snd p) v)) vs = true)
          by (apply existsb_exists; exists v; by rewrite Ev).
        congruence. }
      pose proof (Hall u Hu). pose proof (Hall w Hw). nra.
  - destruct (existsb (above (snd p)) vs) eqn:E.
    + apply existsb_exists in E as (v & Hv & Hhigh). eauto.
    + exfalso.
      assert (Hall : forall v, In v vs -> snd v <= snd p).
      { intros v Hv. apply above_false.
        destruct (above (snd p) v) eqn:Ev; [|done].
        assert (existsb (above (snd p)) vs = true)
          by (apply existsb_exists; by exists v).
        congruence. }
      assert (Hstrict : forall v, In v vs -> snd v < snd p).
      { intros v Hv. destruct (Qlt_le_dec (snd v) (snd p)) as [|Hge]; [done|]. exfalso.
        destruct (edges_pred vs v Hv) as [c Hc], (edges_succ vs v Hv) as [b Hb].
        pose proof (Hleft _ _ Hc) as Hc1. pose proof (Hleft _ _ Hb) as Hb1.
        apply edges_In in Hc as [Hc _]. apply edges_In in Hb as [_ Hb].
        pose proof (Hall v Hv) as Lv. pose proof (Hall c Hc) as Lc.
        pose proof (Hall b Hb) as Lb.
        destruct v as [vx vy], c as [cx cy], b as [bx by_].
        unfold cross in *. simpl in *.
        revert Hge Hc1 Hb1 Lv Lc Lb. generalize (fst p), (snd p).
        intros x y Hge Hc1 Hb1 Lv Lc Lb.
        assert (Hvy : vy == y) by lra.
        assert (K1 : 0 < (y - cy) * (vx - x)) by nra.
        assert (K2 : 0 < (y - by_) * (x - vx)) by nra.
        destruct (Qlt_le_dec x vx) as [Hx|Hx]; nra. }
      apply (inside_not_one_side vs Hne Hleft). intros u w Hu Hw.
      pose proof (Hstrict u Hu). pose proof (Hstrict w Hw). nra.
Qed.

End RatioChain.

(** *** The chord cut by the horizontal line *)

(** The point of a straddling edge at height [y] is in every closed
    half-plane that holds both end points of the edge. *)
Lemma edge_point_left (y : Q) (a0 b0 a b : position) :
  xorb (above y b) (above y a) = true ->
  0 <= cross a0 b0 a -> 0 <= cross a0 b0 b ->
  0 <= cross a0 b0 (abscissaAt y b a, y).
Proof.
  intros Hx Ha Hb.
  destruct (abscissaAt_combination y b a Hx) as (t & Ht0 & Ht1 & HX & Hy).
  revert HX. generalize (abscissaAt y b a). intros X HX.
  assert (He : cross a0 b0 (X, y) == (1 - t) * cross a0 b0 b + t * cross a0 b0 a).
  { destruct a0 as [px py], b0 as [qx qy], a as [ax ay], b as [bx by_].
    unfold cross in *. simpl in *. rewrite HX. rewrite Hy at 1. ring. }
  rewrite He. nra.
Qed.

Lemma chord_left (p a0 b0 a1 b1 a2 b2 : position) :
  xorb (above (snd p) b1) (above (snd p) a1) = true ->
  xorb (above (snd p) b2) (above (snd p) a2) = true ->
  0 <= cross a0 b0 a1 -> 0 <= cross a0 b0 b1 ->
  0 <= cross a0 b0 a2 -> 0 <= cross a0 b0 b2 ->
  xorb (crossesRay p (a1, b1)) (crossesRay p (a2, b2)) = true ->
  0 <= cross a0 b0 p.
Proof.
  intros Hs1 Hs2 Ha1 Hb1 Ha2 Hb2 Hx.
  pose proof (edge_point_left (snd p) a0 b0 a1 b1 Hs1 Ha1 Hb1) as Hc1.
  pose proof (edge_point_left (snd p) a0 b0 a2 b2 Hs2 Ha2 Hb2) as Hc2.
  rewrite !crossesRay_unfold, Hs1, Hs2 in Hx. simpl in Hx.
  revert Hc1 Hc2 Hx.
  generalize (abscissaAt (snd p) b1 a1), (abscissaAt (snd p) b2 a2). intros X1 X2.
  destruct p as [x y], a0 as [px py], b0 as [qx qy]. unfold cross. simpl.
  intros Hc1 Hc2 Hx.
  assert (Hid : forall X, (X1 - X2) * ((qx - px) * (y - py) - (qy - py) * (X - px)) ==
                     (X1 - X) * ((qx - px) * (y - py) - (qy - py) * (X2 - px)) +
                     (X - X2) * ((qx - px) * (y - py) - (qy - py) * (X1 - px)))
    by (intros X; ring).
  specialize (Hid x).
  destruct (Qltb x X1) eqn:E1, (Qltb x X2) eqn:E2; try discriminate Hx.
  - apply Qltb_lt in E1. apply Qltb_ge in E2.
    assert (0 <= (X1 - X2) * ((qx - px) * (y - py) - (qy - py) * (x - px)))
      by (rewrite Hid; nra).
    nra.
  - apply Qltb_ge in E1. apply Qltb_lt in E2.
    assert (0 <= (X2 - X1) * ((qx - px) * (y - py) - (qy - py) * (x - px))).
    { assert (He : (X2 - X1) * ((qx - px) * (y - py) - (qy - py) * (x - px)) ==
                   - ((X1 - X2) * ((qx - px) * (y - py) - (qy - py) * (x - px))))
        by ring.
      rewrite He, Hid. nra. }
    nra.
Qed.

Lemma straddle_of_up y a b : upEdge y (a, b) = true -> xorb (above y b) (above y a) = true.
Proof. unfold upEdge. simpl. by destruct (above y a), (above y b). Qed.

Lemma straddle_of_down y a b :
  downEdge y (a, b) = true -> xorb (above y b) (above y a) = true.
Proof. unfold downEdge. simpl. by destruct (above y a), (above y b). Qed.

Lemma singleton_of_length {A} (l : list A) :
  l <> [] -> (length l <= 1)%nat -> exists e, l = [e].
Proof.
  destruct l as [|e [|e' l]]; simpl; intros Hne Hlen;
    [congruence | eexists; reflexivity | lia].
Qed.

(** *** Convex polygons: inside and outside *)

Lemma convex_inside vs p :
  convexCCW vs -> leftOfAllEdges p vs -> pointInRing p vs = true.
Proof.
  intros Hconvex Hleft.
  assert (Hne : vs <> []).
  { destruct Hconvex as [Hlen _]. destruct vs; [simpl in Hlen; lia|done]. }
  rewrite pointInRing_parity, crossings_split.
  destruct (inside_sees_both p vs Hne Hleft) as [Hlow Hhigh].
  destruct (singleton_of_length (List.filter (upEdge (snd p)) (edges vs)))
    as [[a b] Hup].
  { apply (cycle_rises (above (snd p))); done. }
  { by apply convex_one_up. }
  assert (Hin : In (a, b) (List.filter (upEdge (snd p)) (edges vs)))
    by (rewrite Hup; by left).
  apply filter_In in Hin as [Hin Hu].
  rewrite Hup. cbn [map parity fold_right].
  rewrite (crossesRay_up p a b Hu).
  assert (Qltb 0 (cross a b p) = true) as -> by (apply Qltb_lt; by apply Hleft).
  rewrite parity_all_false; [done|].
  intros [c d] Hcd. apply filter_In in Hcd as [Hcd Hd].
  rewrite (crossesRay_down p c d Hd). apply Qltb_ge.
  apply Qlt_le_weak. by apply Hleft.
Qed.

Lemma convex_outside vs p :
  convexCCW vs -> rightOfSomeEdge p vs -> pointInRing p vs = false.
Proof.
  intros Hconvex (a0 & b0 & He0 & Hright).
  pose proof Hconvex as (_ & Hleft & _ & _).
  rewrite pointInRing_parity, crossings_split.
  pose proof (convex_one_up vs Hconvex (snd p)) as Hu1.
  pose proof (convex_one_down vs Hconvex (snd p)) as Hd1.
  pose proof (up_iff_down (snd p) vs) as Hiff.
  destruct (List.filter (upEdge (snd p)) (edges vs)) as [|eu lu] eqn:Eu.
  - destruct (List.filter (downEdge (snd p)) (edges vs)) as [|ed ld] eqn:Ed; [done|].
    exfalso. by apply Hiff.
  - destruct (singleton_of_length (List.filter (downEdge (snd p)) (edges vs)))
      as [ed Ed]; [by apply Hiff|done|].
    destruct lu as [|? ?]; [|simpl in Hu1; lia].
    rewrite Ed. cbn [map parity fold_right].
    assert (Hinu : In eu (List.filter (upEdge (snd p)) (edges vs)))
      by (rewrite Eu; by left).
    assert (Hind : In ed (List.filter (downEdge (snd p)) (edges vs)))
      by (rewrite Ed; by left).
    apply filter_In in Hinu as [Hinu Hup], Hind as [Hind Hdown].
    destruct eu as [a1 b1], ed as [a2 b2].
    destruct (edges_In _ _ _ Hinu) as [Ha1 Hb1], (edges_In _ _ _ Hind) as [Ha2 Hb2].
    rewrite !xorb_false_r.
    destruct (xorb (crossesRay p (a1, b1)) (crossesRay p (a2, b2))) eqn:Ex; [|done].
    exfalso.
    assert (0 <= cross a0 b0 p); [|lra].
    apply (chord_left p a0 b0 a1 b1 a2 b2); try done.
    + by apply straddle_of_up.
    + by apply straddle_of_down.
    + by apply Hleft.
    + by apply Hleft.
    + by apply Hleft.
    + by apply Hleft.
Qed.

(** *** Closed rings and orientation *)

Lemma edgesFrom_app prev l1 l2 :
  edgesFrom prev (l1 ++ l2) = edgesFrom prev l1 ++ edgesFrom (List.last l1 prev) l2.
Proof.
  revert prev. induction l1 as [|x l1 IH]; intros prev; [done|].
  cbn [app edgesFrom]. by rewrite IH, last_cons_shift.
Qed.

Lemma crossesRay_degenerate p v : crossesRay p (v, v) = false.
Proof. rewrite crossesRay_unfold. by destruct (above (snd p) v). Qed.

(** Repeating the first vertex at the end does not change the test. *)
Lemma pointInRing_closed p v rest :
  pointInRing p ((v :: rest) ++ [v]) = pointInRing p (v :: rest).
Proof.
  rewrite !pointInRing_parity.
  assert (Hedges : forall l, edges (v :: l) = edgesFrom (List.last l v) (v :: l)).
  { intros l. unfold edges. by rewrite last_cons_shift. }
  change ((v :: rest) ++ [v]) with (v :: (rest ++ [v])).
  rewrite !Hedges, last_last.
  cbn [edgesFrom]. rewrite edgesFrom_app. cbn [edgesFrom].
  rewrite !map_cons, map_app. cbn [map].
  assert (Hcons : forall b0 l0, parity (b0 :: l0) = xorb b0 (parity l0)) by done.
  rewrite !Hcons, parity_app, crossesRay_degenerate. cbn [parity fold_right].
  by destruct (crossesRay p (List.last rest v, v)), (parity _).
Qed.

Lemma Qltb_compat x a b : a == b -> Qltb x a = Qltb x b.
Proof.
  intros H. apply eq_true_iff_eq. rewrite !Qltb_lt. by rewrite H.
Qed.

Lemma abscissaAt_sym y (a b : position) :
  ~ snd a == snd b -> abscissaAt y a b == abscissaAt y b a.
Proof.
  destruct a as [ax ay], b as [bx by_]. unfold abscissaAt. simpl.
  intros Hne. field. split; lra.
Qed.

(** The edge test does not depend on the direction of the edge. *)
Lemma crossesRay_swap p a b : crossesRay p (b, a) = crossesRay p (a, b).
Proof.
  rewrite !crossesRay_unfold, (xorb_comm (above (snd p) a)).
  destruct (xorb (above (snd p) b) (above (snd p) a)) eqn:Ex; [|done]. simpl.
  apply Qltb_compat, abscissaAt_sym.
  destruct (above (snd p) a) eqn:Ea, (above (snd p) b) eqn:Eb; try discriminate Ex;
    rewrite ?above_true, ?above_false in *; lra.
Qed.

Lemma chain_snoc l x :
  chain (l ++ [x]) =
  chain l ++ match l with [] => [] | y :: l' => [(List.last l' y, x)] end.
Proof.
  destruct l as [|y l']; [done|].
  cbn [app chain]. by rewrite edgesFrom_app.
Qed.

Lemma chain_rev l : chain (rev l) = rev (map swapEdge (chain l)).
Proof.
  induction l as [|x l IH]; [done|].
  cbn [rev]. rewrite chain_snoc, IH.
  destruct l as [|y l]; [done|].
  change (rev (map swapEdge (chain (x :: y :: l))))
    with (rev (map swapEdge (chain (y :: l))) ++ [(y, x)]).
  f_equal.
  destruct (rev (y :: l)) as [|z m] eqn:E.
  - apply (f_equal (@length _)) in E. rewrite length_rev in E. simpl in E. lia.
  - do 2 f_equal.
    rewrite <- (last_cons_shift z z m), <- E. cbn [rev]. apply last_last.
Qed.

Lemma edges_cons v l : edges (v :: l) = (List.last l v, v) :: chain (v :: l).
Proof. unfold edges. by rewrite last_cons_shift. Qed.

Lemma edges_rev vs : edges (rev vs) ≡ₚ map swapEdge (edges vs).
Proof.
  destruct vs as [|v l]; [done|].
  rewrite (edges_cons v l).
  change (map swapEdge ((List.last l v, v) :: chain (v :: l)))
    with ((v, List.last l v) :: map swapEdge (chain (v :: l))).
  transitivity ((v, List.last l v) :: rev (map swapEdge (chain (v :: l)))).
  2:{ constructor. symmetry. apply Permutation_rev. }
  rewrite <- chain_rev.
  destruct (rev (v :: l)) as [|z m] eqn:E.
  - apply (f_equal (@length _)) in E. rewrite length_rev in E. simpl in E. lia.
  - rewrite edges_cons.
    assert (Hz : z = List.last l v).
    { rewrite <- (last_cons_shift v v l).
      rewrite <- (rev_involutive (v :: l)), E. cbn [rev]. by rewrite last_last. }
    assert (Hm : List.last m z = v).
    { rewrite <- (last_cons_shift z z m), <- E. cbn [rev]. apply last_last. }
    by rewrite Hm, Hz.
Qed.

Lemma pointInRing_rev p vs : pointInRing p (rev vs) = pointInRing p vs.
Proof.
  rewrite !pointInRing_parity.
  change (map (crossesRay p) (edges (rev vs))) with (crossesRay p <$> edges (rev vs)).
  rewrite (parity_perm _ (crossesRay p <$> map swapEdge (edges vs)))
    by (by rewrite edges_rev).
  f_equal. change (crossesRay p <$> map swapEdge (edges vs))
    with (map (crossesRay p) (map swapEdge (edges vs))).
  rewrite map_map. apply map_ext. intros [a b]. apply crossesRay_swap.
Qed.

(** ** The containment test *)

Lemma outsideHoles_forallb p holes :
  outsideHoles p holes = forallb (fun h => negb (rayParity p h)) holes.
Proof.
  induction holes as [|h holes IH]; [done|].
  simpl. rewrite IH, pointInRing_rayParity. by destruct (rayParity p h).
Qed.

Lemma inHoleLoop_existsb p holes :
  inHoleLoop p holes = existsb (rayParity p) holes.
Proof.
  unfold inHoleLoop.
  assert (H : forall acc,
            fold_left (fun inHole h => if pointInRing p h then true else inHole) holes acc
            = acc || existsb (rayParity p) holes).
  { induction holes as [|h holes IH]; intros acc; simpl; [by destruct acc|].
    rewrite IH, pointInRing_rayParity. by destruct (rayParity p h), acc. }
  by rewrite H.
Qed.

Lemma negb_existsb_forallb {A} (f : A -> bool) l :
  negb (existsb f l) = forallb (fun x => negb (f x)) l.
Proof.
  induction l as [|x l IH]; [done|]. simpl. rewrite negb_orb, IH. done.
Qed.

Lemma pointInPolygonGeom_polygon p outer holes :
  pointInPolygonGeom p (Polygon (outer :: holes)) =
  Returns (insidePolygon p (outer :: holes)).
Proof.
  simpl. rewrite pointInRing_rayParity, outsideHoles_forallb.
  by destruct (rayParity p outer).
Qed.

Lemma multiPolygonLoop_existsb p polys :
  hasOuterRing (MultiPolygon polys) = true ->
  multiPolygonLoop p polys = Returns (existsb (insidePolygon p) polys).
Proof.
  simpl. induction polys as [|rings polys IH]; [done|].
  simpl. intros H. apply andb_true_iff in H as [H1 H2].
  destruct rings as [|outer holes]; [discriminate|]. simpl.
  rewrite pointInRing_rayParity, inHoleLoop_existsb, negb_existsb_forallb.
  destruct (rayParity p outer); simpl; [|by apply IH].
  destruct (forallb (fun h => negb (rayParity p h)) holes); simpl; [done|by apply IH].
Qed.

Lemma pointInRing_ringOfVertices p vs r :
  ringOfVertices vs r -> pointInRing p r = pointInRing p vs.
Proof.
  intros [->|(v & rest & -> & ->)]; [done|]. apply pointInRing_closed.
Qed.

Lemma strictlyInside_pointInRing p vs : strictlyInside p vs -> pointInRing p vs = true.
Proof.
  intros [[Hc Hl]|[Hc Hl]].
  - by apply convex_inside.
  - rewrite <- pointInRing_rev. by apply convex_inside.
Qed.

Lemma strictlyOutside_pointInRing p vs : strictlyOutside p vs -> pointInRing p vs = false.
Proof.
  intros [[Hc Hr]|[Hc Hr]].
  - by apply convex_outside.
  - rewrite <- pointInRing_rev. by apply convex_outside.
Qed.

(** With the crossing abscissa computed exactly and every polygon having
    a ring 0: [pointInRing] is the ray-casting parity test.  For a Polygon
    feature the containment test is true exactly when the point is inside
    ring 0 and inside no later ring; for a MultiPolygon feature exactly
    when this holds for at least one constituent polygon; so a point
    inside the outer ring and inside a hole is not contained; and for a
    convex polygon every point strictly inside is contained and every
    point strictly outside is not. *)
Lemma containment_exact (p : position) (f : Feature) :
  (forall r, pointInRing p r = rayParity p r) /\
  (forall outer holes, geometry f = Polygon (outer :: holes) ->
     pointInPolygon p f =
       Returns (rayParity p outer && forallb (fun h => negb (rayParity p h)) holes)) /\
  (forall polys, geometry f = MultiPolygon polys -> hasOuterRing (geometry f) = true ->
     pointInPolygon p f = Returns (existsb (insidePolygon p) polys)) /\
  (forall outer holes h, geometry f = Polygon (outer :: holes) ->
     In h holes -> rayParity p outer = true -> rayParity p h = true ->
     pointInPolygon p f = Returns false) /\
  (forall vs r, geometry f = Polygon [r] -> ringOfVertices vs r ->
     (strictlyInside p vs -> pointInPolygon p f = Returns true) /\
     (strictlyOutside p vs -> pointInPolygon p f = Returns false)).
Proof.
  unfold pointInPolygon.
  split; [apply pointInRing_rayParity|].
  split; [intros outer holes ->; apply pointInPolygonGeom_polygon|].
  split; [intros polys Hg; rewrite Hg; apply multiPolygonLoop_existsb|].
  split.
  - intros outer holes h -> Hh Ho Hin. rewrite pointInPolygonGeom_polygon.
    simpl. rewrite Ho. simpl. f_equal. apply not_true_is_false. intros Hall.
    rewrite forallb_forall in Hall. specialize (Hall h Hh). by rewrite Hin in Hall.
  - intros vs r -> Hr.
    rewrite pointInPolygonGeom_polygon. simpl. rewrite andb_true_r.
    rewrite <- pointInRing_rayParity, (pointInRing_ringOfVertices p vs r Hr).
    split; intros H; f_equal;
      [by apply strictlyInside_pointInRing | by apply strictlyOutside_pointInRing].
Qed.

Lemma triangle_convexCCW : convexCCW triangle.
Proof.
  unfold convexCCW, triangle. split; [simpl; lia|]. split; [|split].
  - intros a b v Hab Hv. simpl in Hab, Hv.
    destruct Hab as [[= <- <-]|[[= <- <-]|[[= <- <-]|[]]]];
      destruct Hv as [<-|[<-|[<-|[]]]]; vm_compute; discriminate.
  - intros i j u v Hi Hj [Hx Hy].
    destruct i as [|[|[|i]]], j as [|[|[|j]]]; simpl in Hi, Hj;
      try discriminate Hi; try discriminate Hj; try reflexivity;
      injection Hi as <-; injection Hj as <-; simpl in Hx, Hy;
      try discriminate Hx; discriminate Hy.
  - intros a b v Hab Hv [Hc Hd]. simpl in Hab, Hv.
    destruct Hab as [[= <- <-]|[[= <- <-]|[[= <- <-]|[]]]];
      destruct Hv as [<-|[<-|[<-|[]]]];
      try (left; split; reflexivity); try (right; split; reflexivity);
      exfalso; revert Hc; vm_compute; discriminate.
Qed.

Lemma containment_exact_examples :
  pointInPolygon (1, 1) (indexFeature (Polygon [triangle ++ [(0, 0)]]) ∅) = Returns true /\
  pointInPolygon (3, 3) (indexFeature (Polygon [triangle ++ [(0, 0)]]) ∅) = Returns false /\
  pointInPolygon (3 # 2, 3 # 2) holedFeature = Returns false.
Proof.
  split; [|split].
  - destruct (containment_exact (1, 1) (indexFeature (Polygon [triangle ++ [(0, 0)]]) ∅))
      as (_ & _ & _ & _ & Hconvex).
    apply (Hconvex triangle (triangle ++ [(0, 0)]) eq_refl).
    + right. exists (0, 0), [(4, 0); (0, 4)]. split; reflexivity.
    + left. split; [exact triangle_convexCCW|].
      intros a b Hab. simpl in Hab.
      destruct Hab as [[= <- <-]|[[= <- <-]|[[= <- <-]|[]]]]; reflexivity.
  - destruct (containment_exact (3, 3) (indexFeature (Polygon [triangle ++ [(0, 0)]]) ∅))
      as (_ & _ & _ & _ & Hconvex).
    apply (Hconvex triangle (triangle ++ [(0, 0)]) eq_refl).
    + right. exists (0, 0), [(4, 0); (0, 4)]. split; reflexivity.
    + left. split; [exact triangle_convexCCW|].
      exists (4, 0), (0, 4). split; [simpl; auto|reflexivity].
  - destruct (containment_exact (3 # 2, 3 # 2) holedFeature) as (_ & _ & _ & Hhole & _).
    apply (Hhole squareRing [holeRing] holeRing eq_refl); [by left| |]; reflexivity.
Qed.

Lemma polygonTest_cons p outer holes :
  polygonTest p (outer :: holes) =
  Returns (rayParity p outer && forallb (fun h => negb (rayParity p h)) holes).
Proof. reflexivity. Qed.

Lemma pointInPolygonGeom_polygonTest p rings :
  pointInPolygonGeom p (Polygon rings) = polygonTest p rings.
Proof.
  destruct rings as [|outer holes]; [done|]. apply pointInPolygonGeom_polygon.
Qed.

Lemma multiPolygonLoop_firstDecisive p polys :
  multiPolygonLoop p polys =
  match firstDecisive (polygonTest p) polys with
  | Throws => Throws
  | Returns found => Returns (bool_decide (is_Some found))
  end.
Proof.
  induction polys as [|rings polys IH]; [done|].
  cbn [multiPolygonLoop firstDecisive].
  destruct rings as [|outer holes]; [done|].
  rewrite polygonTest_cons. cbn [pointInRing0 tl].
  rewrite pointInRing_rayParity, inHoleLoop_existsb, negb_existsb_forallb.
  destruct (rayParity p outer); cbn [andb]; [|exact IH].
  destruct (forallb _ holes); [done|exact IH].
Qed.

(** C2: [pointInRing] is the ray-casting parity test: the parity of the
    edges for which the edge test is true, with the crossing abscissa
    computed exactly and in double precision alike.  For a Polygon
    feature with a ring 0 the containment test is true exactly when the
    point is inside ring 0 and inside no later ring, so a point inside
    the outer ring and inside a hole is not contained.  For a
    MultiPolygon feature the polygons are tested in stored order: the
    result is true when the first polygon whose test does not return
    false contains the point, and false when every polygon has a ring 0
    and none contains the point.  A polygon without a ring 0 makes the
    test raise: a Polygon without rings raises for every point, and a
    MultiPolygon of a square and a polygon without rings raises for a
    point outside the square, although no constituent polygon contains
    it.  In double precision the ring test places a point that lies
    strictly inside a triangle outside of it. *)
Theorem C2_containment (p : position) (f : Feature) :
  (forall r, pointInRing p r = rayParity p r) /\
  (forall outer holes, geometry f = Polygon (outer :: holes) ->
     pointInPolygon p f =
       Returns (rayParity p outer && forallb (fun h => negb (rayParity p h)) holes)) /\
  (forall outer holes h, geometry f = Polygon (outer :: holes) ->
     In h holes -> rayParity p outer = true -> rayParity p h = true ->
     pointInPolygon p f = Returns false) /\
  (forall polys, geometry f = MultiPolygon polys ->
     (pointInPolygon p f = Returns true <->
        exists i rings, decidesAt (polygonTest p) polys i rings (Returns true)) /\
     (pointInPolygon p f = Returns false <->
        forall rings, rings ∈ polys -> polygonTest p rings = Returns false) /\
     (pointInPolygon p f = Throws <->
        exists i rings, decidesAt (polygonTest p) polys i rings Throws)) /\
  (forall outer holes,
     polygonTest p (outer :: holes) =
       Returns (rayParity p outer && forallb (fun h => negb (rayParity p h)) holes)) /\
  polygonTest p [] = Throws /\
  (geometry f = Polygon [] -> pointInPolygon p f = Throws) /\
  (geometry twoPartFeature = MultiPolygon [[squareRing]; []] /\
   existsb (insidePolygon (9, 9)) [[squareRing]; []] = false /\
   pointInPolygon (9, 9) twoPartFeature = Throws) /\
  (forall (q : Double.position) (r : list Double.position),
     Double.pointInRing q r =
       Nat.odd (length (List.filter id (crossings (Double.intersect q) r)))) /\
  (leftOfAllEdges (Double.exact Double.insideLean) (map Double.exact Double.leanTriangle) /\
   Double.pointInRing Double.insideLean Double.leanTriangle = false).
Proof.
  unfold pointInPolygon.
  split; [apply pointInRing_rayParity|].
  split; [intros outer holes ->; apply pointInPolygonGeom_polygon|].
  split.
  { intros outer holes h -> Hh Ho Hin. rewrite pointInPolygonGeom_polygon.
    simpl. rewrite Ho. simpl. f_equal. apply not_true_is_false. intros Hall.
    rewrite forallb_forall in Hall. specialize (Hall h Hh). by rewrite Hin in Hall. }
  split.
  { intros polys ->. cbn [pointInPolygonGeom]. rewrite multiPolygonLoop_firstDecisive.
    pose proof (firstDecisive_Some (polygonTest p) polys) as HS.
    pose proof (firstDecisive_None (polygonTest p) polys) as HN.
    pose proof (firstDecisive_Throws (polygonTest p) polys) as HT.
    destruct (firstDecisive (polygonTest p) polys) as [[rings|]|].
    - assert (Hex : exists i rings', decidesAt (polygonTest p) polys i rings' (Returns true)).
      { destruct (proj1 (HS rings) eq_refl) as [i Hi]. by exists i, rings. }
      split; [|split].
      + done.
      + split; [done|]. intros Hall. by apply HN in Hall.
      + split; [done|]. intros Hex'. by apply HT in Hex'.
    - split; [|split].
      + split; [done|]. intros (i & rings & Hi).
        assert (Returns None = Returns (Some rings)) by (apply HS; by exists i).
        done.
      + split; [intros _; by apply HN|done].
      + split; [done|]. intros Hex'. by apply HT in Hex'.
    - split; [|split].
      + split; [done|]. intros (i & rings & Hi).
        assert (@Throws (option (list ring)) = Returns (Some rings)) by (apply HS; by exists i).
        done.
      + split; [done|]. intros Hall. by apply HN in Hall.
      + split; [intros _; by apply HT|done]. }
  split; [intros; apply polygonTest_cons|].
  split; [reflexivity|].
  split; [by intros ->|].
  split; [repeat split; reflexivity|].
  split.
  - intros q r. unfold Double.pointInRing. by rewrite ringScan_parity, parity_count.
  - destruct double_convex_misjudged as [(Hin & _ & Hd) _]. by split.
Qed.

Lemma C2_containment_witness :
  pointInPolygon (3 # 2, 3 # 2) holedFeature = Returns false /\
  pointInPolygon (9, 9) (indexFeature (Polygon []) ∅) = Throws.
Proof.
  destruct (C2_containment (3 # 2, 3 # 2) holedFeature) as (_ & _ & Hhole & _).
  destruct (C2_containment (9, 9) (indexFeature (Polygon []) ∅))
    as (_ & _ & _ & _ & _ & _ & Hempty & _).
  split.
  - apply (Hhole squareRing [holeRing] holeRing eq_refl); [by left| |]; reflexivity.
  - apply Hempty. reflexivity.
Defined.

(** * Further properties of the engine *)

(** ** Percentile ranker: range and order *)

Lemma Forall_take_index (P : Q -> Prop) (l : list Q) c i :
  Forall P (firstn c l) -> (i < c)%nat -> (i < length l)%nat -> P (at_index l i).
Proof.
  intros H Hi Hl. rewrite (Forall_nth P 0) in H.
  specialize (H i). rewrite length_firstn, nth_firstn in H.
  assert ((i <? c)%nat = true) as E by (apply Nat.ltb_lt; lia). rewrite E in H.
  apply H. lia.
Qed.

Lemma Forall_drop_index (P : Q -> Prop) (l : list Q) c i :
  Forall P (skipn c l) -> (c <= i < length l)%nat -> P (at_index l i).
Proof.
  intros H Hi. rewrite (Forall_nth P 0) in H.
  specialize (H (i - c)%nat). rewrite length_skipn, nth_skipn in H.
  replace (c + (i - c))%nat with i in H by lia. apply H. lia.
Qed.

(** Where a query strictly between the extremes falls: [f] entries lie
    below it, [e] is the last position not above it, and the rank is
    read off these two positions. *)
Lemma rankGeneral_bracket (s : list Q) (v : Q) :
  StronglySorted Qle s -> (2 <= length s)%nat ->
  at_index s 0 < v -> v < at_index s (length s - 1) ->
  exists (f e : nat) (r : Q),
    rankGeneral s (Fin v) = Some r /\
    (1 <= f)%nat /\ (f < length s)%nat /\ (e < length s)%nat /\
    (forall i, (i < f)%nat -> at_index s i < v) /\
    (forall i, (f <= i < length s)%nat -> v <= at_index s i) /\
    (forall i, (i <= e)%nat -> at_index s i <= v) /\
    (forall i, (e < i < length s)%nat -> v < at_index s i) /\
    (((f <= e)%nat /\ r == ((natQ f + natQ e) / 2) / natQ (length s - 1)) \/
     (S e = f /\ exists t, 0 < t /\ t < 1 /\
        t * (at_index s f - at_index s e) == v - at_index s e /\
        r == (natQ e + t) / natQ (length s - 1))).
Proof.
  intros Hs Hn Hlo Hhi.
  destruct (firstIndex_located s Hs Hn v Hlo Hhi)
    as (f & Hbs & Hwb & Hf1 & Hfn & Hbelow & Habove).
  assert (Hrank : rankGeneral s (Fin v) =
    if Qeqb (at_index s f) v then
      Some ((natQ f + natQ (walkForward s v f)) / 2 / natQ (length s - 1))
    else
      let prevValue := at_index s (f - 1) in
      let nextValue := at_index s f in
      let span := if Qeqb (nextValue - prevValue) 0 then 1 else nextValue - prevValue in
      Some ((natQ f - 1 + (v - prevValue) / span) / natQ (length s - 1))).
  { unfold rankGeneral.
    destruct (Qleb v (at_index s 0)) eqn:E1; [apply Qleb_le in E1; lra|].
    destruct (Qgeb v (at_index s (length s - 1))) eqn:E2; [apply Qgeb_ge in E2; lra|].
    cbv zeta. rewrite Hbs, Hwb. reflexivity. }
  destruct (Qeqb (at_index s f) v) eqn:Ef.
  - apply Qeqb_eq in Ef.
    set (rest := skipn (S f) s).
    destruct (countEq_split v rest) as (Hc & Hall & Hnone).
    { by apply StronglySorted_skipn. }
    { apply Forall_skipn_index. intros i Hi. apply Habove. lia. }
    assert (Hlen : length rest = (length s - S f)%nat) by apply length_skipn.
    set (c := countEq v rest) in *.
    assert (Hrest : forall j, at_index rest j = at_index s (S f + j)).
    { intros j. unfold at_index, rest. apply nth_skipn. }
    exists f, (f + c)%nat. eexists. split; [exact Hrank|].
    split; [done|]. split; [done|]. split; [lia|]. split; [done|]. split; [done|].
    split; [|split].
    + intros i Hi. destruct (decide (i < f)%nat) as [Hlt|Hge].
      * specialize (Hbelow i Hlt). lra.
      * destruct (decide (i = f)) as [->|Hne]; [lra|].
        assert (Hi' : at_index rest (i - S f) == v).
        { apply (Forall_take_index (fun x => x == v) rest c); [done|lia|lia]. }
        rewrite Hrest in Hi'. replace (S f + (i - S f))%nat with i in Hi' by lia. lra.
    + intros i Hi.
      assert (Hne : ~ at_index rest (i - S f) == v).
      { apply (Forall_drop_index (fun x => ~ x == v) rest c); [done|lia]. }
      rewrite Hrest in Hne. replace (S f + (i - S f))%nat with i in Hne by lia.
      specialize (Habove i ltac:(lia)).
      destruct (Qlt_le_dec v (at_index s i)) as [|Hle]; [done|].
      exfalso. apply Hne. lra.
    + left. split; [lia|]. unfold walkForward. fold rest. fold c. reflexivity.
  - apply Qeqb_neq in Ef.
    assert (Hgt : v < at_index s f).
    { specialize (Habove f ltac:(lia)).
      destruct (Qlt_le_dec v (at_index s f)) as [|Hle]; [done|]. exfalso. apply Ef. lra. }
    assert (Hprev : at_index s (f - 1) < v) by (apply Hbelow; lia).
    cbv zeta in Hrank.
    destruct (Qeqb (at_index s f - at_index s (f - 1)) 0) eqn:E3;
      [apply Qeqb_eq in E3; lra|].
    exists f, (f - 1)%nat. eexists. split; [exact Hrank|].
    split; [done|]. split; [done|]. split; [lia|]. split; [done|]. split; [done|].
    split; [|split].
    + intros i Hi. specialize (Hbelow i ltac:(lia)). lra.
    + intros i Hi.
      assert (at_index s f <= at_index s i) by (apply sorted_at_index_le; [done|lia|lia]).
      lra.
    + right. split; [lia|].
      exists ((v - at_index s (f - 1)) / (at_index s f - at_index s (f - 1))).
      assert (Hpos : 0 < at_index s f - at_index s (f - 1)) by lra.
      split; [|split; [|split]].
      * apply Qlt_shift_div_l; [done|]. lra.
      * apply Qlt_shift_div_r; [done|]. lra.
      * field. lra.
      * rewrite (natQ_pred f) by lia. reflexivity.
Qed.

Lemma natQ_le a b : (a <= b)%nat -> natQ a <= natQ b.
Proof. intros H. unfold natQ. rewrite <- Zle_Qle. lia. Qed.

Lemma Qdiv_le_mono a b d : 0 < d -> a <= b -> a / d <= b / d.
Proof.
  intros Hd Hab. apply Qle_shift_div_l; [done|].
  assert (a / d * d == a) as -> by (field; lra). done.
Qed.

Lemma Qdiv_unit a d : 0 < d -> 0 <= a -> a <= d -> 0 <= a / d /\ a / d <= 1.
Proof.
  intros Hd H0 H1. split.
  - apply Qle_shift_div_l; [done|]. lra.
  - apply Qle_shift_div_r; [done|]. lra.
Qed.

(** The three shapes of the ranker. *)
Lemma createPercentileRanker_cases (values : list jsnum) :
  let s := sortAsc (finiteValues values) in
  (s = [] /\ createPercentileRanker values = fun _ => None) \/
  (s <> [] /\ at_index s 0 == at_index s (length s - 1) /\
     createPercentileRanker values = rankConstant) \/
  ((2 <= length s)%nat /\ at_index s 0 < at_index s (length s - 1) /\
     createPercentileRanker values = rankGeneral s).
Proof.
  intros s. pose proof (sortAsc_sorted (finiteValues values)) as Hs. fold s in Hs.
  unfold createPercentileRanker. fold s.
  destruct s as [|x [|y s']] eqn:Es.
  - by left.
  - right; left. split; [done|]. split; [reflexivity|done].
  - rewrite <- Es in *.
    assert (Hx : x = at_index s 0) by (by rewrite Es). rewrite Hx.
    destruct (Qeqb (at_index s 0) (at_index s (length s - 1))) eqn:E.
    + apply Qeqb_eq in E. right; left. split; [by rewrite Es|]. done.
    + apply Qeqb_neq in E. right; right.
      assert (Hlen : (2 <= length s)%nat) by (rewrite Es; simpl; lia).
      split; [done|]. split; [|done].
      assert (at_index s 0 <= at_index s (length s - 1))
        by (apply sorted_at_index_le; [done|lia|lia]).
      destruct (Qlt_le_dec (at_index s 0) (at_index s (length s - 1))); [done|].
      exfalso. apply E. lra.
Qed.

Lemma rankGeneral_range (s : list Q) (v r : Q) :
  StronglySorted Qle s -> (2 <= length s)%nat ->
  rankGeneral s (Fin v) = Some r -> 0 <= r /\ r <= 1.
Proof.
  intros Hs Hn Hr.
  destruct (Qlt_le_dec (at_index s 0) v) as [Hlo|Hlo].
  2:{ unfold rankGeneral in Hr. apply Qleb_le in Hlo. rewrite Hlo in Hr.
      injection Hr as <-. lra. }
  destruct (Qlt_le_dec v (at_index s (length s - 1))) as [Hhi|Hhi].
  2:{ unfold rankGeneral in Hr. apply Qleb_gt in Hlo. rewrite Hlo in Hr.
      apply Qgeb_ge in Hhi. rewrite Hhi in Hr. injection Hr as <-. lra. }
  destruct (rankGeneral_bracket s v Hs Hn Hlo Hhi)
    as (f & e & r' & Hr' & Hf1 & Hfn & Hen & _ & _ & _ & _ & Hcase).
  rewrite Hr in Hr'. injection Hr' as <-.
  assert (Hd : 0 < natQ (length s - 1)) by (apply natQ_pos; lia).
  pose proof (natQ_nonneg f) as Hf0. pose proof (natQ_nonneg e) as He0.
  destruct Hcase as [[Hfe Hval]|(Hef & t & Ht0 & Ht1 & _ & Hval)]; rewrite Hval;
    apply Qdiv_unit; try exact Hd.
  - apply Qle_shift_div_l; lra.
  - pose proof (natQ_le f (length s - 1) ltac:(lia)).
    pose proof (natQ_le e (length s - 1) ltac:(lia)).
    apply Qle_shift_div_r; lra.
  - lra.
  - pose proof (natQ_le (S e) (length s - 1) ltac:(lia)) as H. rewrite natQ_S in H. lra.
Qed.

(** X1: every rank lies between 0 and 1, and a rank is missing exactly
    when the distribution has no finite value or the query is not
    finite. *)
Theorem X1_rank_in_unit_interval (values : list jsnum) (q : jsnum) :
  (forall r, createPercentileRanker values q = Some r -> 0 <= r /\ r <= 1) /\
  (createPercentileRanker values q = None <->
     finiteValues values = [] \/ isFinite q = false).
Proof.
  pose proof (sortAsc_sorted (finiteValues values)) as Hs.
  assert (Hnil : sortAsc (finiteValues values) = [] <-> finiteValues values = []).
  { split; [|by intros ->]. intros H.
    apply Permutation_nil. rewrite <- H. apply sortAsc_perm. }
  destruct (createPercentileRanker_cases values) as [[He ->]|[(Hne & _ & ->)|(Hn & Hlt & ->)]].
  - split; [done|]. split; [|done]. intros _. left. by apply Hnil.
  - unfold rankConstant. destruct (isFinite q) eqn:Eq.
    + split; [intros r [= <-]; lra|]. split; [done|].
      intros [H|H]; [|done]. by apply Hnil in H.
    + split; [done|]. split; [by right|done].
  - destruct q as [v| | |].
    + split; [intros r Hr; by apply (rankGeneral_range _ v r Hs Hn)|].
      split.
      * intros Hnone. exfalso. unfold rankGeneral in Hnone.
        destruct (Qleb v _); [done|]. destruct (Qgeb v _); [done|].
        cbv zeta in Hnone. by destruct (Qeqb _ v).
      * intros [H|H]; [|done]. apply Hnil in H. rewrite H in Hn. simpl in Hn. lia.
    + split; [done|]. split; [by right|done].
    + split; [done|]. split; [by right|done].
    + split; [done|]. split; [by right|done].
Qed.

Lemma X1_rank_in_unit_interval_witness :
  (0 <= (1 # 2) /\ (1 # 2) <= 1) /\
  createPercentileRanker [NaN; PosInf] (Fin 3) = None.
Proof.
  split.
  - apply (X1_rank_in_unit_interval [Fin 7] (Fin 3)). reflexivity.
  - apply (X1_rank_in_unit_interval [NaN; PosInf] (Fin 3)). left. reflexivity.
Defined.

Lemma rankGeneral_monotone (s : list Q) (v w r1 r2 : Q) :
  StronglySorted Qle s -> (2 <= length s)%nat ->
  at_index s 0 < at_index s (length s - 1) ->
  v <= w ->
  rankGeneral s (Fin v) = Some r1 -> rankGeneral s (Fin w) = Some r2 -> r1 <= r2.
Proof.
  intros Hs Hn Hrange Hvw H1 H2.
  destruct (rankGeneral_range s v r1 Hs Hn H1) as [H1lo H1hi].
  destruct (rankGeneral_range s w r2 Hs Hn H2) as [H2lo H2hi].
  destruct (Qlt_le_dec (at_index s 0) v) as [Hlo|Hlo].
  2:{ unfold rankGeneral in H1. apply Qleb_le in Hlo. rewrite Hlo in H1.
      injection H1 as <-. done. }
  destruct (Qlt_le_dec w (at_index s (length s - 1))) as [Hhi|Hhi].
  2:{ unfold rankGeneral in H2.
      assert (Qleb w (at_index s 0) = false) as Hb by (apply Qleb_gt; lra).
      rewrite Hb in H2. apply Qgeb_ge in Hhi. rewrite Hhi in H2. injection H2 as <-. done. }
  assert (Hlo' : at_index s 0 < w) by lra.
  assert (Hhi' : v < at_index s (length s - 1)) by lra.
  destruct (rankGeneral_bracket s v Hs Hn Hlo Hhi')
    as (f & e & r & Hr & Hf1 & Hfn & Hen & Hbelow & Habove & Hupto & Hafter & Hcase).
  rewrite H1 in Hr. injection Hr as <-.
  destruct (rankGeneral_bracket s w Hs Hn Hlo' Hhi)
    as (f' & e' & r & Hr & Hf1' & Hfn' & Hen' & Hbelow' & Habove' & Hupto' & Hafter' & Hcase').
  rewrite H2 in Hr. injection Hr as <-.
  assert (Hff : (f <= f')%nat).
  { destruct (decide (f <= f')%nat) as [|Hgt]; [done|]. exfalso.
    specialize (Hbelow f' ltac:(lia)). specialize (Habove' f' ltac:(lia)). lra. }
  assert (Hee : (e <= e')%nat).
  { destruct (decide (e <= e')%nat) as [|Hgt]; [done|]. exfalso.
    specialize (Hupto e ltac:(lia)). specialize (Hafter' e ltac:(lia)). lra. }
  assert (Hd : 0 < natQ (length s - 1)) by (apply natQ_pos; lia).
  pose proof (natQ_le f f' Hff) as Hqf. pose proof (natQ_le e e' Hee) as Hqe.
  destruct Hcase as [[Hfe Hval]|(Hef & t & Ht0 & Ht1 & Ht & Hval)];
    destruct Hcase' as [[Hfe' Hval']|(Hef' & t' & Ht0' & Ht1' & Ht' & Hval')];
    rewrite Hval, Hval'; apply Qdiv_le_mono; try exact Hd.
  - apply Qdiv_le_mono; lra.
  - pose proof (natQ_le f e Hfe). apply Qle_shift_div_r; lra.
  - pose proof (natQ_le (S e) f' ltac:(lia)) as H. rewrite natQ_S in H.
    pose proof (natQ_le f' e' Hfe'). apply Qle_shift_div_l; lra.
  - destruct (decide (e = e')) as [<-|Hne].
    + assert (f' = f) as -> by lia.
      assert (Hpos : 0 < at_index s f - at_index s e).
      { specialize (Hbelow e ltac:(lia)). specialize (Habove f ltac:(lia)).
        specialize (Hafter f ltac:(lia)). lra. }
      assert (t <= t'); [|lra].
      assert (Hle : t * (at_index s f - at_index s e) <= t' * (at_index s f - at_index s e))
        by lra.
      destruct (Qlt_le_dec t' t) as [Hlt|]; [|done]. exfalso.
      assert (t' * (at_index s f - at_index s e) < t * (at_index s f - at_index s e))
        by (apply Qmult_lt_compat_r; done).
      lra.
    + pose proof (natQ_le (S e) e' ltac:(lia)) as H. rewrite natQ_S in H. lra.
Qed.

(** X2: the ranker is monotone: a larger query never ranks lower. *)
Theorem X2_rank_monotone (values : list jsnum) (v w r1 r2 : Q) :
  v <= w ->
  createPercentileRanker values (Fin v) = Some r1 ->
  createPercentileRanker values (Fin w) = Some r2 ->
  r1 <= r2.
Proof.
  intros Hvw.
  pose proof (sortAsc_sorted (finiteValues values)) as Hs.
  destruct (createPercentileRanker_cases values) as [[He ->]|[(Hne & _ & ->)|(Hn & Hlt & ->)]].
  - done.
  - unfold rankConstant. simpl. intros [= <-] [= <-]. lra.
  - intros H1 H2. by apply (rankGeneral_monotone _ v w r1 r2 Hs Hn Hlt).
Qed.

Lemma X2_rank_monotone_witness :
  createPercentileRanker tiedMinimum (Fin 10) = Some 0 /\
  createPercentileRanker tiedMinimum (Fin 30) = Some 1 /\
  0 <= 1.
Proof.
  assert (H1 : createPercentileRanker tiedMinimum (Fin 10) = Some 0) by reflexivity.
  assert (H2 : createPercentileRanker tiedMinimum (Fin 30) = Some 1) by reflexivity.
  split; [exact H1|]. split; [exact H2|].
  apply (X2_rank_monotone tiedMinimum 10 30 0 1); [lra|exact H1|exact H2].
Defined.

(** X3: when all finite values of the distribution are equal (a single
    value included), every finite query ranks at one half, also a query
    below or above that value. *)
Theorem X3_rank_constant (values : list jsnum) (a : Q) :
  In (Fin a) values ->
  (forall b, In (Fin b) values -> b == a) ->
  forall v, createPercentileRanker values (Fin v) = Some (1 # 2).
Proof.
  intros Ha Hall v.
  pose proof (sortAsc_sorted (finiteValues values)) as Hs.
  assert (Hs_all : forall x, In x (sortAsc (finiteValues values)) -> x == a).
  { intros x Hx. apply (Permutation_in _ (sortAsc_perm _)) in Hx.
    apply list_elem_of_In, list_elem_of_omap in Hx as (y & Hy & Hyx).
    destruct y as [q| | |]; try discriminate Hyx. injection Hyx as <-.
    apply Hall. by apply list_elem_of_In. }
  apply finiteValues_In in Ha.
  destruct (createPercentileRanker_cases values) as [[He _]|[(Hne & _ & ->)|(Hn & Hlt & _)]].
  - rewrite He in Ha. done.
  - reflexivity.
  - exfalso.
    assert (at_index (sortAsc (finiteValues values)) 0 == a)
      by (apply Hs_all, at_index_In; lia).
    assert (at_index (sortAsc (finiteValues values))
              (length (sortAsc (finiteValues values)) - 1) == a)
      by (apply Hs_all, at_index_In; lia).
    lra.
Qed.

Lemma X3_rank_constant_witness :
  createPercentileRanker [Fin 5; NaN; Fin 5] (Fin 100) = Some (1 # 2).
Proof.
  apply (X3_rank_constant [Fin 5; NaN; Fin 5] 5).
  - left. reflexivity.
  - intros b [Hb|[Hb|[Hb|[]]]]; try discriminate Hb; injection Hb as <-; reflexivity.
Defined.

(** ** Bounding boxes and centroids *)

Lemma geometryBounds_walk g :
  geometryBounds g = boundsResult (walk1 boundsSeed (positionsOf g)).
Proof.
  unfold geometryBounds, boundsResult.
  destruct g; simpl positionsOf; rewrite ?walk2_concat, ?walk3_concat; reflexivity.
Qed.

Lemma boundsUpdate_seed c :
  boundsUpdate boundsSeed c = mkAcc (Fin (fst c)) (Fin (snd c)) (Fin (fst c)) (Fin (snd c)).
Proof. reflexivity. Qed.

Lemma boundsUpdate_finite a b c d x :
  exists a' b' c' d',
    boundsUpdate (mkAcc (Fin a) (Fin b) (Fin c) (Fin d)) x
      = mkAcc (Fin a') (Fin b') (Fin c') (Fin d') /\
    (a' = a \/ a' = fst x) /\ (b' = b \/ b' = snd x) /\
    (c' = c \/ c' = fst x) /\ (d' = d \/ d' = snd x).
Proof.
  unfold boundsUpdate, num_gtb. cbn [minLon minLat maxLon maxLat num_ltb].
  destruct (Qltb (fst x) a), (Qltb (snd x) b), (Qltb c (fst x)), (Qltb d (snd x));
    do 4 eexists; (split; [reflexivity|]); tauto.
Qed.

(** The walk over a list of positions: the seed is kept only by the empty
    list, and every bound of the result is attained. *)
Lemma walk1_attained cs : forall pre acc,
  (pre = [] /\ acc = boundsSeed) \/
  (pre <> [] /\ exists b, boundsResult acc = Some b /\ boxAttained b pre) ->
  (pre ++ cs = [] /\ walk1 acc cs = boundsSeed) \/
  (pre ++ cs <> [] /\ exists b, boundsResult (walk1 acc cs) = Some b /\ boxAttained b (pre ++ cs)).
Proof.
  unfold walk1. induction cs as [|x cs IH]; intros pre acc Hinv.
  - rewrite app_nil_r. exact Hinv.
  - cbn [fold_left]. replace (pre ++ x :: cs) with ((pre ++ [x]) ++ cs)
      by (by rewrite <- app_assoc).
    apply IH. right. split; [by destruct pre|].
    destruct Hinv as [[-> ->]|(Hne & [[[a b] c] d] & Hres & H1 & H2 & H3 & H4)].
    + rewrite boundsUpdate_seed. eexists. split; [reflexivity|].
      repeat split; exists x; (split; [by left|reflexivity]).
    + destruct acc as [[a0| | |] [b0| | |] [c0| | |] [d0| | |]]; try discriminate Hres.
      injection Hres as -> -> -> ->.
      destruct (boundsUpdate_finite a b c d x) as (a' & b' & c' & d' & -> & Ha & Hb & Hc & Hd).
      eexists. split; [reflexivity|].
      assert (Hin : forall P : position -> Prop,
                (exists c0, In c0 pre /\ P c0) -> exists c0, In c0 (pre ++ [x]) /\ P c0).
      { intros P (c0 & Hc0 & HP). exists c0. split; [|done]. apply in_app_iff. by left. }
      assert (Hx : In x (pre ++ [x])) by (apply in_app_iff; right; by left).
      repeat split.
      * destruct Ha as [->| ->]; [by apply Hin|by exists x].
      * destruct Hb as [->| ->]; [by apply Hin|by exists x].
      * destruct Hc as [->| ->]; [by apply Hin|by exists x].
      * destruct Hd as [->| ->]; [by apply Hin|by exists x].
Qed.

(** X4: a geometry has no bounding box exactly when it has no position
    (an empty coordinate array, or a type that is not handled). *)
Theorem X4_bounds_none_iff_empty (g : Geometry position) :
  geometryBounds g = None <-> positionsOf g = [].
Proof.
  rewrite geometryBounds_walk.
  destruct (walk1_attained (positionsOf g) [] boundsSeed) as [[He Hw]|(Hne & b & Hb & _)].
  - by left.
  - simpl in He. rewrite Hw. by split.
  - simpl in Hne. rewrite Hb. by split.
Qed.

Lemma X4_bounds_none_iff_empty_witness :
  geometryBounds (Polygon [[]; []]) = None /\
  positionsOf (LineString [(1, 2)]) <> [].
Proof.
  split.
  - apply (X4_bounds_none_iff_empty (Polygon [[]; []])). reflexivity.
  - intros H. apply (X4_bounds_none_iff_empty (LineString [(1, 2)])) in H. discriminate H.
Defined.

(** X5: the bounding box is tight: each of its four bounds is a
    coordinate of some position of the geometry, the lower bounds do not
    exceed the upper ones, and every box that holds all positions holds
    both corners of this one. *)
Theorem X5_bounds_tight (g : Geometry position) (minLon minLat maxLon maxLat : Q) :
  geometryBounds g = Some (minLon, minLat, maxLon, maxLat) ->
  boxAttained (minLon, minLat, maxLon, maxLat) (positionsOf g) /\
  minLon <= maxLon /\ minLat <= maxLat /\
  (forall b', (forall c, In c (positionsOf g) -> withinBox b' c) ->
     withinBox b' (minLon, minLat) /\ withinBox b' (maxLon, maxLat)).
Proof.
  intros Hb. pose proof (geometryBounds_covers g _ Hb) as Hcov.
  rewrite geometryBounds_walk in Hb.
  destruct (walk1_attained (positionsOf g) [] boundsSeed) as [[He Hw]|(Hne & b & Hb' & Hatt)].
  - by left.
  - rewrite Hw in Hb. discriminate Hb.
  - simpl in Hatt, Hne. rewrite Hb in Hb'. injection Hb' as <-.
    split; [exact Hatt|].
    destruct Hatt as ((c1 & Hc1 & E1) & (c2 & Hc2 & E2) & (c3 & Hc3 & E3) & (c4 & Hc4 & E4)).
    pose proof (Hcov c1 Hc1) as (? & ? & ? & ?).
    pose proof (Hcov c2 Hc2) as (? & ? & ? & ?).
    split; [lra|]. split; [lra|].
    intros [[[a' b'] c'] d'] Hall.
    pose proof (Hall c1 Hc1) as (? & ? & ? & ?).
    pose proof (Hall c2 Hc2) as (? & ? & ? & ?).
    pose proof (Hall c3 Hc3) as (? & ? & ? & ?).
    pose proof (Hall c4 Hc4) as (? & ? & ? & ?).
    unfold withinBox. simpl. subst. repeat split; lra.
Qed.

Lemma X5_bounds_tight_witness :
  boxAttained (0, 0, 4, 4) squareRing /\ 0 <= 4.
Proof.
  destruct (X5_bounds_tight (Polygon [squareRing]) 0 0 4 4) as (H1 & H2 & _).
  - reflexivity.
  - split; [exact H1|exact H2].
Defined.
(** X7: [geometryCentroid] raises only for a Polygon without rings; the
    only centroid with a component that is not finite is the one of the
    empty MultiPoint, which is [[NaN, NaN]] and not null; the holes of a
    Polygon play no part; and a MultiPolygon skips the polygons without an
    outer vertex. *)
Theorem X7_centroid_edge_cases (g : Geometry position) :
  (geometryCentroid g = Throws <-> g = Polygon []) /\
  (forall x y, geometryCentroid g = Returns (Some (x, y)) ->
     isFinite x && isFinite y = false -> g = MultiPoint [] /\ x = NaN /\ y = NaN) /\
  (forall outer holes, g = Polygon (outer :: holes) ->
     geometryCentroid g = geometryCentroid (LineString outer)) /\
  (forall holes polys, g = MultiPolygon (([] :: holes) :: polys) \/ g = MultiPolygon ([] :: polys) ->
     geometryCentroid g = geometryCentroid (MultiPolygon polys)).
Proof.
  split; [|split; [|split]].
  - split.
    + destruct g as [c|cs|cs|ls|rings|polys|t]; try discriminate.
      destruct rings; [done|discriminate].
    + by intros ->.
  - intros x y Hc Hfin.
    assert (Hmean : forall cs, finitePosition <$> vertexMean cs = Some (x, y) -> False).
    { intros cs Hm. destruct (vertexMean cs) as [[mx my]|]; [|discriminate Hm].
      injection Hm as <- <-. discriminate Hfin. }
    destruct g as [c|cs|cs|ls|rings|polys|t]; simpl in Hc.
    + injection Hc as <- <-. discriminate Hfin.
    + destruct cs as [|c0 cs0] eqn:Ecs.
      * injection Hc as <- <-. done.
      * exfalso. rewrite <- Ecs in *.
        assert (Hn : 0 < natQ (length cs)) by (apply natQ_pos; rewrite Ecs; simpl; lia).
        assert (Hz : Qeqb (natQ (length cs)) 0 = false) by (apply Qeqb_neq; lra).
        unfold num_div in Hc. rewrite Hz in Hc. injection Hc as <- <-. discriminate Hfin.
    + injection Hc as Hc. by apply Hmean in Hc.
    + discriminate Hc.
    + destruct rings; [discriminate Hc|]. injection Hc as Hc. by apply Hmean in Hc.
    + injection Hc as Hc. by apply Hmean in Hc.
    + discriminate Hc.
  - by intros outer holes ->.
  - by intros holes polys [-> | ->].
Qed.

Lemma X7_centroid_edge_cases_witness :
  geometryCentroid (Polygon []) = Throws /\
  geometryCentroid (Polygon [squareRing; holeRing]) = geometryCentroid (LineString squareRing).
Proof.
  split.
  - apply (X7_centroid_edge_cases (Polygon [])). reflexivity.
  - destruct (X7_centroid_edge_cases (Polygon [squareRing; holeRing])) as (_ & _ & H & _).
    apply (H squareRing [holeRing]). reflexivity.
Defined.

(** ** Presentation of a ring *)

(** X9: the ring test does not depend on the vertex the ring starts at,
    nor on whether the first vertex is repeated at the end.  This holds
    for any edge test that is false on an edge from a vertex to itself:
    with the crossing abscissa computed exactly, and with it computed in
    double precision. *)
Theorem X9_ring_presentation :
  (forall (p : position) (l1 l2 : list position) (v : position),
     pointInRing p (l2 ++ l1) = pointInRing p (l1 ++ l2) /\
     pointInRing p ((v :: l1) ++ [v]) = pointInRing p (v :: l1)) /\
  (forall (p : Double.position) (l1 l2 : list Double.position) (v : Double.position),
     Double.pointInRing p (l2 ++ l1) = Double.pointInRing p (l1 ++ l2) /\
     Double.pointInRing p ((v :: l1) ++ [v]) = Double.pointInRing p (v :: l1)).
Proof.
  split.
  - intros p l1 l2 v. rewrite !pointInRing_ringScan. split.
    + apply ringScan_rotate.
    + apply ringScan_closed, intersect_degenerate.
  - intros p l1 l2 v. unfold Double.pointInRing. split.
    + apply ringScan_rotate.
    + apply ringScan_closed, Double_intersect_degenerate.
Qed.

(** ** Parcel lookup by position *)

Lemma scanParcels_scanFeatures (M : MathLib) (p : position) (parcels : list Feature) :
  scanParcels M p parcels =
  match scanFeatures p parcels with
  | Throws => Throws
  | Returns r => Returns ((fun f => (f, parcelDistance M p f)) <$> r)
  end.
Proof.
  induction parcels as [|f rest IH]; [reflexivity|].
  cbn [scanParcels scanFeatures]. destruct (boundsReject p f); [exact IH|].
  destruct (pointInPolygon p f) as [[|]|]; [reflexivity|exact IH|reflexivity].
Qed.

(** X10: [findParcelAtPoint] returns the first parcel, in stored order,
    whose containment test is true, with the distance from the query
    point to the parcel's stored centroid (zero without one); it returns
    none when the collection is missing or no parcel contains the point. *)
Theorem X10_findParcelAtPoint_first (M : MathLib) (parcels : list Feature) (p : position) :
  layerWellFormed parcels ->
  findParcelAtPoint M None p = Returns None /\
  (exists r, findParcelAtPoint M (Some parcels) p = Returns r) /\
  (findParcelAtPoint M (Some parcels) p = Returns None <->
     forall f, f ∈ parcels -> contains p f <> Returns true) /\
  (forall f d, findParcelAtPoint M (Some parcels) p = Returns (Some (f, d)) <->
     firstContaining p parcels f /\ d = parcelDistance M p f).
Proof.
  intros Hwf. cbn [findParcelAtPoint]. rewrite scanParcels_scanFeatures.
  destruct (scanFeatures_total p parcels Hwf) as [r Hr].
  pose proof (scanFeatures_None p parcels Hwf) as HN.
  pose proof (fun f => scanFeatures_Some p parcels f Hwf) as HS.
  rewrite Hr in *. split; [done|]. split; [by eexists|]. split.
  - rewrite <- HN. destruct r; simpl; split; congruence.
  - intros f d. rewrite <- HS. destruct r as [g|]; simpl; split.
    + intros [= -> <-]. done.
    + intros [[= ->] ->]. done.
    + done.
    + intros [[=] _].
Qed.

Lemma X10_findParcelAtPoint_first_witness :
  exists f, findParcelAtPoint exampleMath (Some overlappingParcels) (1, 1) = Returns (Some (f, 0)) /\
            properties f !! "Name"%string = Some (JStr "Lot 1").
Proof.
  assert (Hwf : layerWellFormed overlappingParcels) by (repeat constructor).
  destruct (X10_findParcelAtPoint_first exampleMath overlappingParcels (1, 1) Hwf)
    as (_ & _ & _ & H).
  exists (indexFeature (Polygon [squareRing]) {[ "Name"%string := JStr "Lot 1" ]}). split.
  - apply H. split; [|reflexivity]. exists 0%nat. split; [reflexivity|].
    split; [vm_compute; reflexivity|]. intros j g Hj. lia.
  - reflexivity.
Defined.

(** ** Reference-system codes *)

Lemma isDigit_plain c : isDigit c = true -> upcase c = c /\ isSep c = false.
Proof.
  destruct c as [[] [] [] [] [] [] [] []]; vm_compute; intros H;
    try discriminate H; split; reflexivity.
Qed.

Lemma isDigit_upcase c : isDigit (upcase c) = isDigit c.
Proof. destruct c as [[] [] [] [] [] [] [] []]; reflexivity. Qed.

Lemma isSep_upcase c : isSep (upcase c) = isSep c.
Proof. destruct c as [[] [] [] [] [] [] [] []]; reflexivity. Qed.

Lemma isSep_plain c : isSep c = true -> upcase c = c.
Proof.
  destruct c as [[] [] [] [] [] [] [] []]; vm_compute; intros H;
    try discriminate H; reflexivity.
Qed.

Lemma upcase_idemp c : upcase (upcase c) = upcase c.
Proof. destruct c as [[] [] [] [] [] [] [] []]; reflexivity. Qed.

Lemma toUpperCase_idemp s : toUpperCase (toUpperCase s) = toUpperCase s.
Proof. induction s as [|c s IH]; [done|]. simpl. by rewrite upcase_idemp, IH. Qed.

Lemma takeDigits_digitsOnly s : digitsOnly (takeDigits s) = true.
Proof.
  induction s as [|c s IH]; [done|]. simpl.
  destruct (isDigit c) eqn:E; [|done]. simpl. by rewrite E.
Qed.

Lemma takeDigits_id s : digitsOnly s = true -> takeDigits s = s.
Proof.
  induction s as [|c s IH]; [done|]. simpl. intros H.
  apply andb_true_iff in H as [Hc Hs]. by rewrite Hc, IH.
Qed.

Lemma skipSeps_digits s : epsgNumber s -> skipSeps s = s.
Proof.
  intros [Hne Hd]. destruct s as [|c s]; [done|]. simpl in *.
  apply andb_true_iff in Hd as [Hc _]. by rewrite (proj2 (isDigit_plain c Hc)).
Qed.

Lemma takeDigits_upper s : takeDigits (toUpperCase s) = takeDigits s.
Proof.
  induction s as [|c s IH]; [done|]. simpl. rewrite isDigit_upcase.
  destruct (isDigit c) eqn:E; [|done].
  by rewrite (proj1 (isDigit_plain c E)), IH.
Qed.

Lemma skipSeps_upper s : skipSeps (toUpperCase s) = toUpperCase (skipSeps s).
Proof.
  induction s as [|c s IH]; [done|]. simpl. rewrite isSep_upcase.
  by destruct (isSep c).
Qed.

Lemma matchEpsgAt_upper s : matchEpsgAt (toUpperCase s) = matchEpsgAt s.
Proof.
  destruct s as [|e [|p [|s1 [|g rest]]]]; try reflexivity.
  cbn [toUpperCase matchEpsgAt]. rewrite !upcase_idemp.
  by rewrite skipSeps_upper, takeDigits_upper.
Qed.

Lemma matchEpsg_upper s : matchEpsg (toUpperCase s) = matchEpsg s.
Proof.
  induction s as [|c s IH]; [reflexivity|].
  change (toUpperCase (String c s)) with (String (upcase c) (toUpperCase s)).
  cbn [matchEpsg].
  change (String (upcase c) (toUpperCase s)) with (toUpperCase (String c s)).
  rewrite matchEpsgAt_upper. by rewrite IH.
Qed.

Lemma matchEpsgAt_digits s d : matchEpsgAt s = Some d -> epsgNumber d.
Proof.
  destruct s as [|e [|p [|s1 [|g rest]]]]; try discriminate.
  cbn [matchEpsgAt]. destruct (String.eqb _ "EPSG"); [|discriminate].
  destruct (String.eqb (takeDigits (skipSeps rest)) "") eqn:E; [discriminate|].
  intros [= <-]. split; [by apply String.eqb_neq in E|apply takeDigits_digitsOnly].
Qed.

Lemma matchEpsg_digits s d : matchEpsg s = Some d -> epsgNumber d.
Proof.
  induction s as [|c s IH]; cbn [matchEpsg].
  - destruct (matchEpsgAt "") eqn:E; [|done]. intros [= <-]. by apply matchEpsgAt_digits in E.
  - destruct (matchEpsgAt (String c s)) eqn:E; [|exact IH].
    intros [= <-]. by apply matchEpsgAt_digits in E.
Qed.

(** X11: [parseCrs] always yields a usable code: the default
    ["EPSG:4326"], ["CRS:84"], or ["EPSG:"] followed by a non-empty run of
    digits; a missing or empty name gives the default. *)
Theorem X11_parseCrs_codes (crs : option string) :
  (parseCrs crs = WGS84 \/ parseCrs crs = "CRS:84"%string \/
   exists d, epsgNumber d /\ parseCrs crs = ("EPSG:" ++ d)%string) /\
  parseCrs None = WGS84 /\ parseCrs (Some ""%string) = WGS84.
Proof.
  split; [|done]. destruct crs as [s|]; [|by left]. unfold parseCrs.
  destruct (String.eqb s ""); [by left|].
  destruct (matchEpsg s) as [d|] eqn:E.
  - right; right. exists d. split; [by apply matchEpsg_digits in E|done].
  - destruct (_ || _); [right; by left|by left].
Qed.

(** X12: for every EPSG number the plain code, the URN form and the
    slash form are read back as that code; in the URL form with a version
    segment the segment is what is captured. *)
Theorem X12_parseCrs_epsg_forms (d : string) :
  epsgNumber d ->
  parseCrs (Some ("EPSG:" ++ d)%string) = ("EPSG:" ++ d)%string /\
  parseCrs (Some ("urn:ogc:def:crs:EPSG::" ++ d)%string) = ("EPSG:" ++ d)%string /\
  parseCrs (Some ("epsg/" ++ d)%string) = ("EPSG:" ++ d)%string /\
  parseCrs (Some ("http://www.opengis.net/def/crs/EPSG/0/" ++ d)%string) = "EPSG:0"%string.
Proof.
  intros Hd.
  assert (Hread : takeDigits (skipSeps d) = d).
  { rewrite (skipSeps_digits d Hd). apply takeDigits_id, Hd. }
  assert (Hne : String.eqb d "" = false) by (apply String.eqb_neq, Hd).
  repeat split; unfold parseCrs; cbv [String.append]; cbn;
    rewrite ?Hread, ?Hne; reflexivity.
Qed.

Lemma X12_parseCrs_epsg_forms_witness :
  parseCrs (Some "urn:ogc:def:crs:EPSG::32161"%string) = "EPSG:32161"%string.
Proof.
  apply (X12_parseCrs_epsg_forms "32161"). split; [discriminate|reflexivity].
Defined.

(** X13: [parseCrs] does not depend on letter case: two names that agree
    after upper-casing give the same code. *)
Theorem X13_parseCrs_case_insensitive (s s' : string) :
  toUpperCase s = toUpperCase s' ->
  parseCrs (Some s) = parseCrs (Some s').
Proof.
  intros H. unfold parseCrs.
  assert (He : String.eqb s "" = String.eqb s' "").
  { destruct s, s'; try reflexivity; discriminate H. }
  rewrite He, <- (matchEpsg_upper s), <- (matchEpsg_upper s'), H. reflexivity.
Qed.

Lemma X13_parseCrs_case_insensitive_witness :
  parseCrs (Some "urn:ogc:def:crs:epsg::32161"%string)
    = parseCrs (Some "URN:OGC:DEF:CRS:EPSG::32161"%string).
Proof. apply X13_parseCrs_case_insensitive. reflexivity. Defined.

(** ** Normalisation of feature collections *)

Lemma transformGeometry_map (g : Geometry (list Q)) (t : list Q -> list Q) :
  transformGeometry (Some g) t = Some (mapGeometry t g).
Proof. by destruct g. Qed.

Lemma shapeOf_mapGeometry {P R : Type} (f : P -> R) (g : Geometry P) :
  shapeOf (mapGeometry f g) = shapeOf g.
Proof.
  unfold shapeOf. destruct g; simpl; f_equal; rewrite ?map_map; try reflexivity.
  - apply map_ext. intros l. by rewrite map_map.
  - apply map_ext. intros l. by rewrite map_map.
  - apply map_ext. intros l. rewrite map_map. apply map_ext. intros l'. by rewrite map_map.
Qed.

(** X14: normalisation keeps the features as they are listed: none is
    dropped, added or moved, attributes are untouched, a feature without
    geometry stays without, and a geometry keeps its type and the lengths
    of its coordinate arrays, whatever the reference system is.  The
    loaders' filter on the result removes exactly the features without
    geometry. *)
Theorem X14_normalize_keeps_structure (proj4Forward : string -> list Q -> list Q)
    (geojson : GeoJSON) :
  let out := normalizeFeatures proj4Forward geojson in
  length out = length (features geojson) /\
  (forall i f, features geojson !! i = Some f ->
     exists f', out !! i = Some f' /\
       raw_properties f' = raw_properties f /\
       shapeOf <$> raw_geometry f' = shapeOf <$> raw_geometry f) /\
  loadedFeatures proj4Forward geojson =
    normalizeFeatures proj4Forward
      (mkGeoJSON (crsName geojson)
         (filter (fun f => is_Some (raw_geometry f)) (features geojson))).
Proof.
  intros out. subst out. unfold loadedFeatures, normalizeFeatures. cbn [crsName features].
  set (t := createTransformer proj4Forward (parseCrs (crsName geojson))).
  split; [apply length_map|]. split.
  - intros i f Hf. eexists. split.
    + rewrite list_lookup_fmap, Hf. reflexivity.
    + split; [reflexivity|]. cbn [raw_geometry].
      destruct (raw_geometry f) as [g|]; [|reflexivity].
      rewrite transformGeometry_map. cbn. by rewrite shapeOf_mapGeometry.
  - induction (features geojson) as [|f fs IH]; [reflexivity|].
    cbn [map]. rewrite !filter_cons. cbn [raw_geometry].
    destruct (raw_geometry f) as [g|] eqn:Eg.
    + rewrite transformGeometry_map.
      destruct (decide (is_Some (Some (mapGeometry t g)))) as [_|Hn];
        [|exfalso; apply Hn; by eexists].
      destruct (decide (is_Some (Some g))) as [_|Hn];
        [|exfalso; apply Hn; by eexists].
      cbn [map]. rewrite Eg, transformGeometry_map, IH. reflexivity.
    + cbn [transformGeometry].
      destruct (decide (is_Some (@None (Geometry (list Q))))) as [[? Hs]|_]; [discriminate Hs|].
      exact IH.
Qed.

(** X15: for a canonical reference system the normaliser is idempotent:
    its output has positions of at most two components, and normalising
    the output again returns it unchanged. *)
Theorem X15_canonical_idempotent (proj4Forward : string -> list Q -> list Q)
    (geojson : GeoJSON) :
  keepsCoordinates (parseCrs (crsName geojson)) = true ->
  let out := normalizeFeatures proj4Forward geojson in
  Forall planar out /\
  normalizeFeatures proj4Forward (mkGeoJSON (crsName geojson) out) = out.
Proof.
  intros Hk out. subst out. unfold normalizeFeatures, createTransformer.
  cbn [crsName features]. rewrite Hk.
  assert (Hplanar : Forall planar
            (map (fun feature =>
                    mkRawFeature (transformGeometry (raw_geometry feature) slice02)
                                 (raw_properties feature)) (features geojson))).
  { apply Forall_forall. intros f' Hf'. apply list_elem_of_In, in_map_iff in Hf' as (f & <- & _).
    unfold planar. cbn [raw_geometry].
    destruct (raw_geometry f) as [g|]; [|done]. rewrite transformGeometry_map.
    assert (Hpos : positionsOf (mapGeometry slice02 g) = map slice02 (positionsOf g)).
    { apply positionsOf_transform. by rewrite transformGeometry_map. }
    rewrite Hpos. apply Forall_forall. intros c Hc.
    apply list_elem_of_In, in_map_iff in Hc as (c0 & <- & _).
    unfold slice02. rewrite length_firstn. lia. }
  split; [exact Hplanar|].
  induction Hplanar as [|f fs Hf _ IH]; [reflexivity|].
  cbn [map]. by rewrite transformGeometry_planar, IH.
Qed.

Lemma X15_canonical_idempotent_witness :
  normalizeFeatures exampleProj4
    (mkGeoJSON None (normalizeFeatures exampleProj4 elevatedPoint))
  = normalizeFeatures exampleProj4 elevatedPoint.
Proof.
  apply (X15_canonical_idempotent exampleProj4 elevatedPoint). reflexivity.
Defined.

Lemma X14_normalize_keeps_structure_witness :
  length (normalizeFeatures exampleProj4 mixedCollection) = 2%nat /\
  length (loadedFeatures exampleProj4 mixedCollection) = 1%nat.
Proof.
  destruct (X14_normalize_keeps_structure exampleProj4 mixedCollection) as (H1 & _ & H3).
  split; [exact H1|]. rewrite H3. reflexivity.
Defined.

(** ** Parcel values and premiums *)

(** X16: when the area of a parcel is missing, not a number, negative
    infinity, zero or negative, its value per square metre and its value
    per acre are both zero, whatever its land and improvement values are;
    they are zero as well for an infinite area and a finite total
    value. *)
Theorem X16_value_density (StringToNumber : string -> jsnum) (props : gmap string jsval) :
  let m := parcelMetrics StringToNumber props in
  let area := ToNumber StringToNumber (props !! "SHAPE_Area"%string) in
  ((props !! "SHAPE_Area"%string = None \/ area = NaN \/ area = NegInf \/
    exists a, area = Fin a /\ a <= 0) ->
     valuePerSqMeter m = Fin 0 /\ valuePerAcre m = Fin 0) /\
  (forall t, area = PosInf -> totalValue m = Fin t ->
     valuePerSqMeter m = Fin 0 /\ valuePerAcre m = Fin 0).
Proof.
  intros m area. subst m area. unfold parcelMetrics.
  cbn [totalValue valuePerSqMeter valuePerAcre].
  set (total := num_add _ _).
  set (area := ToNumber StringToNumber (props !! "SHAPE_Area"%string)).
  split.
  - intros [Ha|[Ha|[Ha|(a & Ha & Hle)]]].
    + subst area. rewrite Ha. split; reflexivity.
    + rewrite Ha. split; reflexivity.
    + rewrite Ha. split; reflexivity.
    + rewrite Ha.
      assert (Hgt : num_gtb (num_or_zero (Fin a)) (Fin 0) = false).
      { unfold num_or_zero, num_truthy. destruct (negb (Qeqb a 0)); [|reflexivity].
        unfold num_gtb. cbn [num_ltb]. by apply Qltb_ge. }
      rewrite Hgt. split; reflexivity.
  - intros t Ha Ht. rewrite Ha, Ht. split; reflexivity.
Qed.

Lemma X16_value_density_witness :
  valuePerSqMeter (parcelMetrics exampleStringToNumber
                     {[ "Land_Value"%string := JNum (Fin 30000);
                        "SHAPE_Area"%string := JNum (Fin 0) ]}) = Fin 0 /\
  valuePerAcre (parcelMetrics exampleStringToNumber
                  {[ "Land_Value"%string := JNum (Fin 30000);
                     "SHAPE_Area"%string := JNum (Fin 0) ]}) = Fin 0.
Proof.
  destruct (X16_value_density exampleStringToNumber
              {[ "Land_Value"%string := JNum (Fin 30000);
                 "SHAPE_Area"%string := JNum (Fin 0) ]}) as [H _].
  apply H. do 3 right. exists 0. split; [reflexivity|]. unfold Qle; simpl; lia.
Defined.

Lemma premiumRate_values (zoneId : string) :
  In (premiumRate zoneId) [18 # 1000; 15 # 1000; 12 # 1000; 6 # 1000; 4 # 1000].
Proof.
  unfold premiumRate, riskProfiles. cbn [list_to_map foldr uncurry curry fst snd].
  repeat (match goal with
          | |- context [<[?k := _]> _ !! zoneId] =>
              destruct (decide (k = zoneId)) as [->|?];
              [rewrite lookup_insert_eq; cbn; tauto|rewrite lookup_insert_ne by done]
          end).
  rewrite lookup_empty. cbn. tauto.
Qed.

Lemma premiumRate_nonneg zoneId : 0 <= premiumRate zoneId.
Proof.
  pose proof (premiumRate_values zoneId) as H. cbn in H.
  destruct H as [<-|[<-|[<-|[<-|[<-|[]]]]]]; discriminate.
Qed.

(** X17: the estimated premium and the recommended coverage never
    decrease when the property value grows, the coverage never exceeds the
    value, and for one and the same value a zone that the classifier
    prefers never gets a lower premium than a zone after it (with "none"
    last). *)
Theorem X17_premium_order (v v' : Q) :
  v <= v' ->
  (forall zoneId, estimatedPremium zoneId v <= estimatedPremium zoneId v') /\
  recommendedCoverage v <= recommendedCoverage v' /\
  recommendedCoverage v <= v /\
  (0 <= v -> forall i j zi zj, (i <= j)%nat ->
     zoneIdsByPriority !! i = Some zi -> zoneIdsByPriority !! j = Some zj ->
     estimatedPremium zj v <= estimatedPremium zi v).
Proof.
  intros Hv. split; [|split; [|split]].
  - intros zoneId. unfold estimatedPremium.
    apply Q.min_le_compat_r, Q.max_le_compat_r.
    pose proof (premiumRate_nonneg zoneId). nra.
  - unfold recommendedCoverage. by apply Q.min_le_compat_r.
  - unfold recommendedCoverage. apply Q.le_min_l.
  - intros H0 i j zi zj Hij Hi Hj. unfold estimatedPremium.
    apply Q.min_le_compat_r, Q.max_le_compat_r.
    assert (Hrate : premiumRate zj <= premiumRate zi).
    { unfold zoneIdsByPriority, zonePriority in Hi, Hj. cbn [app] in Hi, Hj.
      destruct i as [|[|[|[|[|[|i]]]]]]; cbn in Hi; try discriminate Hi; injection Hi as <-;
        destruct j as [|[|[|[|[|[|j]]]]]]; cbn in Hj; try discriminate Hj; injection Hj as <-;
        try lia; vm_compute; discriminate. }
    nra.
Qed.

Lemma X17_premium_order_witness :
  estimatedPremium "X" 100000 <= estimatedPremium "AE" 100000 /\
  estimatedPremium "AE" 100000 <= estimatedPremium "AE" 200000.
Proof.
  destruct (X17_premium_order 100000 200000) as (H1 & _ & _ & H4); [discriminate|].
  split.
  - apply (H4 ltac:(discriminate) 1%nat 4%nat); [lia|reflexivity|reflexivity].
  - apply H1.
Defined.

(** ** Meters and map styling *)

Lemma createPercentileRanker_unit (values : list jsnum) (q : jsnum) (r : Q) :
  createPercentileRanker values q = Some r -> 0 <= r /\ r <= 1.
Proof.
  pose proof (sortAsc_sorted (finiteValues values)) as Hs.
  destruct (createPercentileRanker_cases values) as [[He ->]|[(Hne & _ & ->)|(Hn & Hlt & ->)]].
  - done.
  - unfold rankConstant. destruct (isFinite q); [|done]. intros [= <-]. lra.
  - destruct q as [v| | |]; try done. by apply rankGeneral_range.
Qed.

Lemma marker_of_unit (c : Q) :
  15 # 10 <= Qmin (985 # 10) (Qmax (15 # 10) (c * 100)) /\
  Qmin (985 # 10) (Qmax (15 # 10) (c * 100)) <= 985 # 10.
Proof.
  split; [|apply Q.le_min_l].
  apply Q.min_glb; [discriminate|apply Q.le_max_l].
Qed.

Lemma clamp_unit_id (c : Q) : 0 <= c -> c <= 1 -> Qmin 1 (Qmax 0 c) == c.
Proof. intros H0 H1. rewrite Q.max_r by done. by apply Q.min_r. Qed.

Lemma clamp_unit_range (v : Q) : 0 <= Qmin 1 (Qmax 0 v) /\ Qmin 1 (Qmax 0 v) <= 1.
Proof. split; [apply Q.min_glb; [discriminate|apply Q.le_max_l]|apply Q.le_min_l]. Qed.

(** X18: a meter marker exists exactly for a finite percent; it lies
    between 1.5 and 98.5 and never moves left when the percent grows;
    clamping the percent first, as the meter card does, changes nothing;
    and for a rank of the percentile ranker the marker is the rank times
    100, kept in that interval. *)
Theorem X18_marker_position :
  (forall percent, markerPosition percent = None <-> forall v, percent <> Some (Fin v)) /\
  (forall percent m, markerPosition percent = Some m -> 15 # 10 <= m /\ m <= 985 # 10) /\
  (forall v w m m', v <= w ->
     markerPosition (Some (Fin v)) = Some m -> markerPosition (Some (Fin w)) = Some m' ->
     m <= m') /\
  (forall percent, gradientMarker percent = None <-> markerPosition percent = None) /\
  (forall percent m m', gradientMarker percent = Some m -> markerPosition percent = Some m' ->
     m == m') /\
  (forall values q r, createPercentileRanker values q = Some r ->
     exists m, gradientMarker (Some (Fin r)) = Some m /\
               m == Qmin (985 # 10) (Qmax (15 # 10) (r * 100))).
Proof.
  split; [|split; [|split; [|split; [|split]]]].
  - intros [[v| | |]|]; cbn; split; try done; try (intros _ v0 H; discriminate H).
    intros H. exfalso. by apply (H v).
  - intros [[v| | |]|] m; cbn; try done. intros [= <-]. apply marker_of_unit.
  - intros v w m m' Hvw. cbn. intros [= <-] [= <-].
    apply Q.min_le_compat_l, Q.max_le_compat_l.
    assert (Qmin 1 (Qmax 0 v) <= Qmin 1 (Qmax 0 w))
      by (by apply Q.min_le_compat_l, Q.max_le_compat_l).
    lra.
  - intros [[v| | |]|]; cbn; done.
  - intros [[v| | |]|] m m'; cbn; try done. intros [= <-] [= <-].
    destruct (clamp_unit_range v) as [H0 H1].
    rewrite (clamp_unit_id _ H0 H1). reflexivity.
  - intros values q r Hr. apply createPercentileRanker_unit in Hr as [H0 H1].
    eexists. split; [reflexivity|]. rewrite !(clamp_unit_id _ H0 H1). reflexivity.
Qed.

Lemma X18_marker_position_witness :
  (exists m, gradientMarker (Some (Fin 0)) = Some m /\ m == 15 # 10) /\
  markerPosition (Some NaN) = None.
Proof.
  destruct X18_marker_position as (H1 & _ & _ & _ & _ & H6). split.
  - destruct (H6 tiedMinimum (Fin 10) 0 eq_refl) as (m & Hm & Em).
    exists m. split; [exact Hm|]. rewrite Em. reflexivity.
  - apply H1. intros v H. discriminate H.
Defined.

Lemma colorLoop_sorted (v : Q) (breaks : list Q) :
  StronglySorted Qle breaks ->
  forall i, colorLoop v breaks i =
    if (colorClass breaks v <? length breaks)%nat then Some (i + colorClass breaks v)%nat
    else None.
Proof.
  unfold colorClass. induction 1 as [|b rest Hs IH Hall]; intros i; [reflexivity|].
  cbn [colorLoop List.filter length].
  destruct (Qleb v b) eqn:E.
  - apply Qleb_le in E.
    assert (Hb : Qltb b v = false) by (by apply Qltb_ge). rewrite Hb.
    assert (Hnone : List.filter (fun b0 => Qltb b0 v) rest = []).
    { apply filter_nil_iff. rewrite Forall_forall in Hall. intros x Hx.
      apply Qltb_ge. apply list_elem_of_In, Hall in Hx. lra. }
    rewrite Hnone. cbn. by rewrite Nat.add_0_r.
  - apply Qleb_gt in E. assert (Hb : Qltb b v = true) by (by apply Qltb_lt). rewrite Hb.
    cbn [length]. rewrite IH.
    change (S (length (List.filter (fun b0 => Qltb b0 v) rest)) <? S (length rest))%nat
      with (length (List.filter (fun b0 => Qltb b0 v) rest) <? length rest)%nat.
    destruct (_ <? _)%nat; [|reflexivity]. f_equal. lia.
Qed.

Lemma parcelBreaks_sorted (values : list Q) :
  StronglySorted Qle values -> values <> [] ->
  length (parcelBreaks values) = 4%nat /\ StronglySorted Qle (parcelBreaks values).
Proof.
  intros Hs Hne.
  assert (Hn : (0 < length values)%nat) by (destruct values; [done|simpl; lia]).
  assert (Hbreaks : parcelBreaks values =
            map (fun q => at_index values (breakIndex (length values) q)) quantiles)
    by (unfold parcelBreaks; by destruct values).
  rewrite Hbreaks. split; [reflexivity|]. unfold quantiles. cbn [map].
  assert (Hle : forall q1 q2, 0 <= q1 -> q1 <= q2 -> q2 <= 1 ->
            at_index values (breakIndex (length values) q1)
              <= at_index values (breakIndex (length values) q2)).
  { intros q1 q2 H0 H12 H1. apply sorted_at_index_le; [done| |].
    - by apply breakIndex_mono.
    - apply breakIndex_floor; [lra..|done]. }
  repeat (constructor; [|repeat constructor; apply Hle; unfold Qle; simpl; lia]).
  constructor.
Qed.

Lemma colorClass_mono (breaks : list Q) (v w : Q) :
  v <= w -> (colorClass breaks v <= colorClass breaks w)%nat.
Proof.
  intros Hvw. unfold colorClass. induction breaks as [|b rest IH]; [done|].
  cbn [List.filter]. destruct (Qltb b v) eqn:E.
  - apply Qltb_lt in E. assert (Qltb b w = true) as -> by (apply Qltb_lt; lra).
    cbn [length]. lia.
  - destruct (Qltb b w); cbn [length]; lia.
Qed.

Lemma colorClass_le (breaks : list Q) (v : Q) : (colorClass breaks v <= length breaks)%nat.
Proof. unfold colorClass. apply filter_length_le. Qed.

(** X19: with the quantile breaks of a non-empty distribution, a finite
    value gets the colour of the ramp whose index is the number of breaks
    strictly below the value: always one of the five colours, and never a
    lighter one for a larger value.  Without breaks, or for a value that
    is not finite, the colour is the middle one. *)
Theorem X19_parcel_color_class (dist : list Q) (v w : Q) :
  dist <> [] ->
  let breaks := parcelBreaks (sortAsc dist) in
  getParcelColor breaks (Fin v) = parcelColorRamp !! colorClass breaks v /\
  (colorClass breaks v < length parcelColorRamp)%nat /\
  (v <= w -> (colorClass breaks v <= colorClass breaks w)%nat) /\
  getParcelColor [] (Fin v) = Some "#6baed6"%string /\
  getParcelColor breaks NaN = Some "#6baed6"%string.
Proof.
  intros Hne breaks.
  destruct (parcelBreaks_sorted (sortAsc dist)) as [Hlen Hs].
  { apply sortAsc_sorted. }
  { intros H. apply Hne, Permutation_nil. rewrite <- H. apply sortAsc_perm. }
  fold breaks in Hlen, Hs.
  pose proof (colorClass_le breaks v) as Hle. rewrite Hlen in Hle.
  split; [|split; [|split; [|split]]].
  - unfold getParcelColor. destruct breaks as [|b0 rest] eqn:Eb; [discriminate Hlen|].
    rewrite <- Eb in *. rewrite (colorLoop_sorted v breaks Hs 0), Hlen.
    destruct (colorClass breaks v <? 4)%nat eqn:E; [reflexivity|].
    apply Nat.ltb_ge in E. assert (colorClass breaks v = 4%nat) as -> by lia. reflexivity.
  - cbn [parcelColorRamp length]. lia.
  - apply colorClass_mono.
  - reflexivity.
  - by destruct breaks.
Qed.

Lemma X19_parcel_color_class_witness :
  getParcelColor (parcelBreaks (sortAsc [3; 1; 2; 10; 9; 8; 7; 6; 5; 4])) (Fin 100)
    = Some "#08519c"%string.
Proof.
  destruct (X19_parcel_color_class [3; 1; 2; 10; 9; 8; 7; 6; 5; 4] 100 100) as (H & _);
    [discriminate|].
  rewrite H. reflexivity.
Defined.

(** X20: the stroke width of the parcel outlines stays between 0.04 and
    0.6, never shrinks when the zoom level grows, and is 0.6 when the zoom
    level is not a finite number. *)
Theorem X20_stroke_width (z z' : Q) :
  z <= z' ->
  4 # 100 <= getParcelStrokeWidth (Fin z) /\
  getParcelStrokeWidth (Fin z) <= 6 # 10 /\
  getParcelStrokeWidth (Fin z) <= getParcelStrokeWidth (Fin z') /\
  getParcelStrokeWidth NaN == 6 # 10.
Proof.
  intros Hz.
  assert (Hval : forall x,
            (x <= 10 /\ getParcelStrokeWidth (Fin x) == 4 # 100) \/
            (18 <= x /\ getParcelStrokeWidth (Fin x) == 6 # 10) \/
            (10 < x /\ x < 18 /\
             getParcelStrokeWidth (Fin x) == (7 # 100) * x - (66 # 100))).
  { intros x. unfold getParcelStrokeWidth.
    destruct (Qleb x 10) eqn:E1; [apply Qleb_le in E1; by left|]. apply Qleb_gt in E1.
    destruct (Qgeb x 18) eqn:E2; [apply Qgeb_ge in E2; right; by left|].
    apply Qgeb_lt in E2. right; right. split; [done|]. split; [done|]. field. }
  destruct (Hval z) as [[H1 E]|[[H1 E]|(H1 & H2 & E)]];
    destruct (Hval z') as [[H1' E']|[[H1' E']|(H1' & H2' & E')]];
    rewrite E, E'; repeat split; try reflexivity; try discriminate; lra.
Qed.

Lemma X20_stroke_width_witness :
  getParcelStrokeWidth (Fin 12) <= getParcelStrokeWidth (Fin 14).
Proof. apply (X20_stroke_width 12 14). discriminate. Defined.

(** ** Parcel search by name *)

Lemma compareCandidates_le (a b : Candidate) :
  (compareCandidates a b <=? 0)%Z = true <-> keyLe (candKey a) (candKey b).
Proof.
  unfold compareCandidates, keyLe, candKey. cbn [fst snd].
  rewrite Z.leb_le. destruct (Z.eqb_spec (cand_rank a) (cand_rank b)); cbn [negb]; lia.
Qed.

Lemma compareCandidates_gt (a b : Candidate) :
  (compareCandidates a b <=? 0)%Z = false <-> keyLt (candKey b) (candKey a).
Proof.
  unfold compareCandidates, keyLt, candKey. cbn [fst snd].
  rewrite Z.leb_gt. destruct (Z.eqb_spec (cand_rank a) (cand_rank b)); cbn [negb]; lia.
Qed.

Lemma keyLe_trans a b c : keyLe a b -> keyLe b c -> keyLe a c.
Proof. unfold keyLe. lia. Qed.

Lemma keyLt_le a b : keyLt a b -> keyLe a b.
Proof. unfold keyLt, keyLe. lia. Qed.

Lemma keyLe_lt_trans a b c : keyLe a b -> keyLt b c -> keyLt a c.
Proof. unfold keyLe, keyLt. lia. Qed.

Lemma keyLe_not_lt a b : keyLe a b -> keyLt b a -> False.
Proof. unfold keyLe, keyLt. lia. Qed.

Lemma head_insertCandidate (x : Candidate) (l : list Candidate) :
  head (insertCandidate x l) =
  match head l with
  | None => Some x
  | Some y => if (compareCandidates x y <=? 0)%Z then Some x else Some y
  end.
Proof. destruct l as [|y l]; [reflexivity|]. simpl. by destruct (_ <=? _)%Z. Qed.

Lemma searchKey_candidate q f name c :
  displayNameOf f = Returns name -> candidateOf q f name = Some c ->
  cand_feature c = f /\ searchKey q f = Some (candKey c).
Proof.
  intros Hn Hc. unfold searchKey. rewrite Hn, Hc. split; [|reflexivity].
  unfold candidateOf in Hc. destruct (String.eqb name ""); [discriminate|].
  destruct (indexOf _ _); [|discriminate]. by injection Hc as <-.
Qed.

Lemma searchKey_none q f name :
  displayNameOf f = Returns name -> candidateOf q f name = None -> searchKey q f = None.
Proof. intros Hn Hc. unfold searchKey. by rewrite Hn, Hc. Qed.

(** The head of the sorted candidates is the first stored feature with
    the least key. *)
Lemma sortCandidates_head (q : string) (features : list Feature) :
  forall cs, collectCandidates q features = Returns cs ->
  match head (sortCandidates cs) with
  | None => forall f, f ∈ features -> searchKey q f = None
  | Some b =>
      searchKey q (cand_feature b) = Some (candKey b) /\
      firstBestMatch q features (cand_feature b)
  end.
Proof.
  induction features as [|f rest IH]; intros cs Hcs.
  - injection Hcs as <-. cbn. intros f Hf. by apply not_elem_of_nil in Hf.
  - cbn [collectCandidates] in Hcs.
    destruct (displayNameOf f) as [name|] eqn:Hname; [|discriminate].
    destruct (collectCandidates q rest) as [cs'|] eqn:Hrest; [|discriminate].
    specialize (IH cs' eq_refl). injection Hcs as <-.
    destruct (candidateOf q f name) as [c|] eqn:Hc.
    + destruct (searchKey_candidate q f name c Hname Hc) as [Hcf Hkey].
      cbn [sortCandidates fold_right]. fold (sortCandidates cs').
      rewrite head_insertCandidate.
      assert (Hself : keyLe (candKey c) (candKey c)) by (unfold keyLe; lia).
      destruct (head (sortCandidates cs')) as [b|].
      * destruct IH as (Hb & k & kb & Hk & Hkb & Hall & Hbefore).
        rewrite Hb in Hkb. injection Hkb as <-.
        destruct (compareCandidates c b <=? 0)%Z eqn:E.
        -- apply compareCandidates_le in E. rewrite Hcf. split; [done|].
           exists 0%nat, (candKey c). split; [done|]. split; [done|]. split.
           ++ intros g kg Hg Hkg. apply elem_of_cons in Hg as [->|Hg].
              ** rewrite Hkey in Hkg. by injection Hkg as <-.
              ** eapply keyLe_trans; [exact E|]. by apply (Hall g).
           ++ intros j h kh Hj. lia.
        -- apply compareCandidates_gt in E. split; [done|].
           exists (S k), (candKey b). split; [done|]. split; [done|]. split.
           ++ intros g kg Hg Hkg. apply elem_of_cons in Hg as [->|Hg].
              ** rewrite Hkey in Hkg. injection Hkg as <-. by apply keyLt_le.
              ** by apply (Hall g).
           ++ intros [|j] h kh Hj Hh Hkh; cbn in Hh.
              ** injection Hh as <-. rewrite Hkey in Hkh. by injection Hkh as <-.
              ** apply (Hbefore j h); [lia|done|done].
      * rewrite Hcf. split; [done|].
        exists 0%nat, (candKey c). split; [done|]. split; [done|]. split.
        -- intros g kg Hg Hkg. apply elem_of_cons in Hg as [->|Hg].
           ++ rewrite Hkey in Hkg. by injection Hkg as <-.
           ++ rewrite (IH g Hg) in Hkg. discriminate.
        -- intros j h kh Hj. lia.
    + pose proof (searchKey_none q f name Hname Hc) as Hnone.
      destruct (head (sortCandidates cs')) as [b|].
      * destruct IH as (Hb & k & kb & Hk & Hkb & Hall & Hbefore). split; [done|].
        exists (S k), kb. split; [done|]. split; [done|]. split.
        -- intros g kg Hg Hkg. apply elem_of_cons in Hg as [->|Hg]; [congruence|].
           by apply (Hall g).
        -- intros [|j] h kh Hj Hh Hkh; cbn in Hh.
           ++ injection Hh as <-. congruence.
           ++ apply (Hbefore j h); [lia|done|done].
      * intros g Hg. apply elem_of_cons in Hg as [->|Hg]; [done|by apply IH].
Qed.

Lemma collectCandidates_total (q : string) (features : list Feature) :
  (forall f, f ∈ features -> displayNameOf f <> Throws) ->
  exists cs, collectCandidates q features = Returns cs.
Proof.
  induction features as [|f rest IH]; intros Hall; [by eexists|].
  cbn [collectCandidates].
  destruct (displayNameOf f) as [name|] eqn:E.
  - destruct IH as [cs ->]; [|by eexists].
    intros g Hg. apply Hall. by right.
  - exfalso. apply (Hall f); [by left|done].
Qed.

Lemma firstBestMatch_unique q features g g' :
  firstBestMatch q features g -> firstBestMatch q features g' -> g = g'.
Proof.
  intros (k & kg & Hk & Hkg & Hall & Hbefore) (k' & kg' & Hk' & Hkg' & Hall' & Hbefore').
  destruct (Nat.lt_trichotomy k k') as [Hlt|[->|Hlt]].
  - exfalso. apply (keyLe_not_lt kg kg').
    + apply (Hall g'); [|done]. apply list_elem_of_lookup. by exists k'.
    + by apply (Hbefore' k g).
  - congruence.
  - exfalso. apply (keyLe_not_lt kg' kg).
    + apply (Hall' g); [|done]. apply list_elem_of_lookup. by exists k.
    + by apply (Hbefore k' g').
Qed.

Lemma prefix_refl (s : string) : String.prefix s s = true.
Proof. induction s as [|c s IH]; [done|]. simpl. by destruct (ascii_dec c c). Qed.

Lemma candidateOf_rank q f name c :
  candidateOf q f name = Some c ->
  (-2 <= cand_rank c)%Z /\
  (cand_rank c = (-2)%Z <-> toLowerCase name = q).
Proof.
  unfold candidateOf. destruct (String.eqb name ""); [discriminate|]. cbv zeta.
  destruct (indexOf (toLowerCase name) q) as [i|]; [|discriminate].
  intros [= <-]. cbn [cand_rank].
  destruct (String.eqb_spec (toLowerCase name) q) as [He|Hne].
  - split; [lia|]. by split.
  - destruct (i =? 0)%nat; split; try lia; split; try lia; done.
Qed.

(** X21: the search by name ignores case and surrounding blanks; it
    returns none for a blank query or a missing collection, and none
    exactly when no parcel name holds the query; otherwise it returns the
    first stored parcel with the least key, an exact match before a name
    that starts with the query before any other name, a shorter name
    first; so when a name equals the query the result is such a parcel. *)
Theorem X21_findParcelByName (features : list Feature) (query : string) :
  let q := toLowerCase (trim query) in
  (forall f, f ∈ features -> displayNameOf f <> Throws) ->
  findParcelByName None query = Returns None /\
  (q = ""%string -> findParcelByName (Some features) query = Returns None) /\
  (q <> ""%string ->
     (findParcelByName (Some features) query = Returns None <->
        forall f, f ∈ features -> searchKey q f = None) /\
     (forall g, findParcelByName (Some features) query = Returns (Some g) <->
        firstBestMatch q features g) /\
     (forall f name, f ∈ features -> displayNameOf f = Returns name ->
        name <> ""%string -> toLowerCase name = q ->
        exists g gname, findParcelByName (Some features) query = Returns (Some g) /\
          displayNameOf g = Returns gname /\ toLowerCase gname = q)).
Proof.
  intros q Hnames.
  split; [unfold findParcelByName; by destruct (String.eqb query "")|].
  split.
  - intros Hq. unfold findParcelByName. destruct (String.eqb query ""); [done|].
    fold q. by rewrite Hq.
  - intros Hq.
    assert (Hfind : findParcelByName (Some features) query =
              match collectCandidates q features with
              | Throws => Throws
              | Returns cs => Returns (cand_feature <$> head (sortCandidates cs))
              end).
    { unfold findParcelByName. destruct (String.eqb_spec query "") as [->|_]; [done|].
      fold q. by destruct (String.eqb_spec q "") as [He|_]. }
    destruct (collectCandidates_total q features Hnames) as [cs Hcs].
    pose proof (sortCandidates_head q features cs Hcs) as Hhead.
    rewrite Hfind, Hcs. clear Hfind.
    destruct (head (sortCandidates cs)) as [b|]; cbn [fmap option_fmap option_map].
    + destruct Hhead as [Hkey Hbest].
      assert (Hiff : forall g, Returns (Some (cand_feature b)) = Returns (Some g) <->
                firstBestMatch q features g).
      { intros g. split; [by intros [= <-]|].
        intros Hg. by rewrite (firstBestMatch_unique _ _ _ _ Hbest Hg). }
      split; [|split; [exact Hiff|]].
      * split; [done|]. intros Hnone. exfalso.
        destruct Hbest as (k & kb & Hk & Hkb & _).
        rewrite Hnone in Hkb; [done|]. apply list_elem_of_lookup. by exists k.
      * intros f name Hf Hname Hne Hexact.
        destruct (candidateOf q f name) as [c|] eqn:Hc.
        2:{ exfalso. unfold candidateOf in Hc.
            apply String.eqb_neq in Hne. rewrite Hne in Hc. cbv zeta in Hc.
            rewrite Hexact in Hc. unfold indexOf in Hc.
            destruct q; [done|]. fold indexOf in Hc. by rewrite prefix_refl in Hc. }
        destruct (searchKey_candidate q f name c Hname Hc) as [_ Hkf].
        destruct (candidateOf_rank q f name c Hc) as [_ Hrank].
        destruct Hbest as (k & kb & Hk & Hkb & Hall & _).
        pose proof (Hall f _ Hf Hkf) as Hle.
        rewrite Hkey in Hkb. injection Hkb as <-.
        unfold searchKey in Hkey.
        destruct (displayNameOf (cand_feature b)) as [gname|] eqn:Hg; [|done].
        destruct (candidateOf q (cand_feature b) gname) as [c'|] eqn:Hc'; [|done].
        injection Hkey as Hr Hl.
        destruct (candidateOf_rank q _ gname c' Hc') as [Hlow Hrank'].
        exists (cand_feature b), gname. split; [done|]. split; [done|].
        apply Hrank'. apply proj2 in Hrank. specialize (Hrank Hexact).
        unfold keyLe, candKey in Hle. cbn [fst snd] in Hle. lia.
    + split; [|split].
      * by split.
      * intros g. split; [done|]. intros (k & kg & Hk & Hkg & _).
        rewrite Hhead in Hkg; [done|]. apply list_elem_of_lookup. by exists k.
      * intros f name Hf Hname Hne Hexact. exfalso.
        specialize (Hhead f Hf). unfold searchKey in Hhead. rewrite Hname in Hhead.
        unfold candidateOf in Hhead. apply String.eqb_neq in Hne. rewrite Hne in Hhead.
        cbv zeta in Hhead. rewrite Hexact in Hhead. unfold indexOf in Hhead.
        destruct q; [done|]. fold indexOf in Hhead. by rewrite prefix_refl in Hhead.
Qed.

Lemma X21_findParcelByName_witness :
  exists g gname,
    findParcelByName (Some searchParcels) " BOVONI " = Returns (Some g) /\
    displayNameOf g = Returns gname /\ toLowerCase gname = "bovoni"%string.
Proof.
  assert (Hnames : forall f, f ∈ searchParcels -> displayNameOf f <> Throws).
  { intros f Hf. unfold searchParcels in Hf.
    repeat (apply elem_of_cons in Hf as [->|Hf]; [discriminate|]).
    by apply not_elem_of_nil in Hf. }
  destruct (X21_findParcelByName searchParcels " BOVONI " Hnames) as (_ & _ & H).
  destruct (H ltac:(discriminate)) as (_ & _ & Hexact).
  apply (Hexact (namedParcel "bovoni") "bovoni"%string).
  - apply list_elem_of_lookup. by exists 2%nat.
  - reflexivity.
  - discriminate.
  - reflexivity.
Defined.

(** The search on the example: the first exact match wins over an earlier
    partial match and over a later exact match. *)
Lemma findParcelByName_example :
  findParcelByName (Some searchParcels) " BOVONI " = Returns (Some (namedParcel "Bovoni")) /\
  findParcelByName (Some searchParcels) "bay" = Returns (Some (namedParcel "Bovoni Bay")) /\
  findParcelByName (Some searchParcels) "   " = Returns None /\
  findParcelByName
    (Some [mkFeature (Polygon [squareRing]) {[ "displayName"%string := JNum (Fin 12) ]}
             None None]) "12" = Throws.
Proof. repeat split; vm_compute; reflexivity. Qed.

(** ** Shelter scan: ties and the missing station *)

Section ShelterScan.

Variable M : MathLib.
Variable p : position.

Let dist := shelterDistance M p.

(** The scan keeps the first shelter that attains the least distance. *)
Lemma keepCloser_fold_first (cands : list Shelter) :
  Forall singleCoordinate cands ->
  forall s0 d0 s d,
    fold_left (keepCloser M p) cands (Some (s0, Fin d0)) = Some (s, d) ->
    (s = s0 /\ d = Fin d0 /\ forall x dx, x ∈ cands -> dist x = Fin dx -> d0 <= dx) \/
    (exists k km, cands !! k = Some s /\ d = Fin km /\ dist s = Fin km /\ km < d0 /\
       (forall x dx, x ∈ cands -> dist x = Fin dx -> km <= dx) /\
       (forall j x dx, (j < k)%nat -> cands !! j = Some x -> dist x = Fin dx -> km < dx)).
Proof.
  induction 1 as [|x cands Hx Hall IH]; intros s0 d0 s d Hfold.
  - cbn in Hfold. injection Hfold as <- <-. left. split; [done|]. split; [done|].
    intros x dx Hin. by apply not_elem_of_nil in Hin.
  - cbn [fold_left] in Hfold. unfold keepCloser at 2 in Hfold.
    destruct Hx as [[lon lat] Hgeom].
    assert (Hdx : dist x = Fin (haversine M (fst p) (snd p) lon lat))
      by (unfold dist, shelterDistance; by rewrite Hgeom).
    fold dist in Hfold. rewrite Hdx in Hfold. cbn [num_ltb] in Hfold.
    set (qx := haversine M (fst p) (snd p) lon lat) in *.
    destruct (Qltb qx d0) eqn:E.
    + apply Qltb_lt in E.
      destruct (IH x qx s d Hfold) as [(-> & -> & Hmin)|(k & km & Hk & -> & Hd & Hlt & Hmin & Hfirst)].
      * right. exists 0%nat, qx. split; [done|]. split; [done|]. split; [done|].
        split; [done|]. split.
        -- intros y dy Hy Hdy. apply elem_of_cons in Hy as [->|Hy].
           ++ rewrite Hdx in Hdy. injection Hdy as <-. lra.
           ++ by apply (Hmin y).
        -- intros j y dy Hj. lia.
      * right. exists (S k), km. split; [done|]. split; [done|]. split; [done|].
        split; [lra|]. split.
        -- intros y dy Hy Hdy. apply elem_of_cons in Hy as [->|Hy].
           ++ rewrite Hdx in Hdy. injection Hdy as <-. lra.
           ++ by apply (Hmin y).
        -- intros [|j] y dy Hj Hy Hdy; cbn in Hy.
           ++ injection Hy as <-. rewrite Hdx in Hdy. injection Hdy as <-. done.
           ++ apply (Hfirst j y); [lia|done|done].
    + apply Qltb_ge in E.
      destruct (IH s0 d0 s d Hfold) as [(-> & -> & Hmin)|(k & km & Hk & -> & Hd & Hlt & Hmin & Hfirst)].
      * left. split; [done|]. split; [done|].
        intros y dy Hy Hdy. apply elem_of_cons in Hy as [->|Hy].
        -- rewrite Hdx in Hdy. by injection Hdy as <-.
        -- by apply (Hmin y).
      * right. exists (S k), km. split; [done|]. split; [done|]. split; [done|].
        split; [done|]. split.
        -- intros y dy Hy Hdy. apply elem_of_cons in Hy as [->|Hy].
           ++ rewrite Hdx in Hdy. injection Hdy as <-. lra.
           ++ by apply (Hmin y).
        -- intros [|j] y dy Hj Hy Hdy; cbn in Hy.
           ++ injection Hy as <-. rewrite Hdx in Hdy. injection Hdy as <-. lra.
           ++ apply (Hfirst j y); [lia|done|done].
Qed.

Lemma keepCloser_scan_first (cands : list Shelter) (s : Shelter) (d : jsnum) :
  Forall singleCoordinate cands ->
  fold_left (keepCloser M p) cands None = Some (s, d) ->
  exists k km, cands !! k = Some s /\ d = Fin km /\ dist s = Fin km /\
    (forall x dx, x ∈ cands -> dist x = Fin dx -> km <= dx) /\
    (forall j x dx, (j < k)%nat -> cands !! j = Some x -> dist x = Fin dx -> km < dx).
Proof.
  intros Hall Hfold. destruct cands as [|x cands]; [discriminate Hfold|].
  inversion Hall as [|? ? Hx Hrest]; subst.
  cbn [fold_left] in Hfold. unfold keepCloser at 2 in Hfold.
  destruct Hx as [[lon lat] Hgeom].
  assert (Hdx : dist x = Fin (haversine M (fst p) (snd p) lon lat))
    by (unfold dist, shelterDistance; by rewrite Hgeom).
  fold dist in Hfold. rewrite Hdx in Hfold.
  set (qx := haversine M (fst p) (snd p) lon lat) in *.
  destruct (keepCloser_fold_first cands Hrest x qx s d Hfold)
    as [(-> & -> & Hmin)|(k & km & Hk & -> & Hd & Hlt & Hmin & Hfirst)].
  - exists 0%nat, qx. split; [done|]. split; [done|]. split; [done|]. split.
    + intros y dy Hy Hdy. apply elem_of_cons in Hy as [->|Hy].
      * rewrite Hdx in Hdy. injection Hdy as <-. lra.
      * by apply (Hmin y).
    + intros j y dy Hj. lia.
  - exists (S k), km. split; [done|]. split; [done|]. split; [done|]. split.
    + intros y dy Hy Hdy. apply elem_of_cons in Hy as [->|Hy].
      * rewrite Hdx in Hdy. injection Hdy as <-. lra.
      * by apply (Hmin y).
    + intros [|j] y dy Hj Hy Hdy; cbn in Hy.
      * injection Hy as <-. rewrite Hdx in Hdy. injection Hdy as <-. done.
      * apply (Hfirst j y); [lia|done|done].
Qed.

End ShelterScan.

(** X22: whenever the scan decides the result (the parcel is outside the
    restricted region, or no shelter carries the station name), the
    shelter returned is the first one in stored order, among those the
    scan compares, that attains the least distance: a tie goes to the
    shelter stored first.  For a parcel of the restricted region without a
    listed station all shelters are compared. *)
Theorem X22_nearest_first_wins (M : MathLib) (shelters : list Shelter) (p : position)
    (parcel : option Feature) (s : Shelter) (d : jsnum) :
  let cands := scanned (isWaterIslandParcel parcel) shelters in
  Forall singleCoordinate cands ->
  isWaterIslandParcel parcel = false \/ List.filter isWaterIslandStation shelters = [] ->
  findNearestShelter M shelters p parcel = Some (s, d) ->
  (List.filter isWaterIslandStation shelters = [] -> cands = shelters) /\
  exists k km, cands !! k = Some s /\ d = Fin km /\ shelterDistance M p s = Fin km /\
    (forall x dx, x ∈ cands -> shelterDistance M p x = Fin dx -> km <= dx) /\
    (forall j x dx, (j < k)%nat -> cands !! j = Some x ->
       shelterDistance M p x = Fin dx -> km < dx).
Proof.
  intros cands Hall Hscan Hfind. split.
  - intros Hnone. subst cands. unfold scanned.
    assert (Hno : forall x, In x shelters -> isWaterIslandStation x = false).
    { intros x Hx. destruct (isWaterIslandStation x) eqn:E; [|done]. exfalso.
      assert (Hin : In x (List.filter isWaterIslandStation shelters))
        by (apply filter_In; by split).
      by rewrite Hnone in Hin. }
    clear -Hno. induction shelters as [|x l IH]; [done|].
    cbn [List.filter]. unfold compared at 1. rewrite (Hno x) by (by left).
    cbn. rewrite IH; [done|]. intros y Hy. apply Hno. by right.
  - rewrite findNearestShelter_unfold in Hfind.
    assert (Hres : fold_left (keepCloser M p) cands None = Some (s, d)).
    { subst cands. unfold scanned in *.
      destruct shelters as [|x0 l]; [discriminate Hfind|]. cbv zeta in Hfind.
      destruct Hscan as [Hno|Hnone].
      - rewrite Hno in Hfind |- *.
        destruct (last _); [|exact Hfind]. by destruct (fold_left _ _ _).
      - rewrite Hnone in Hfind. cbn [last] in Hfind.
        by destruct (isWaterIslandParcel parcel). }
    by apply keepCloser_scan_first.
Qed.

Lemma X22_nearest_first_wins_witness :
  exists d k,
    findNearestShelter exampleMath [shelterW; shelterA; shelterTwin] (0, 0)
      (Some mainlandParcel) = Some (shelterA, d) /\
    scanned false [shelterW; shelterA; shelterTwin] !! k = Some shelterA.
Proof.
  assert (Hfind : findNearestShelter exampleMath [shelterW; shelterA; shelterTwin] (0, 0)
                    (Some mainlandParcel) = Some (shelterA, _)) by (vm_compute; reflexivity).
  edestruct (X22_nearest_first_wins exampleMath [shelterW; shelterA; shelterTwin] (0, 0)
               (Some mainlandParcel) shelterA) as (_ & k & km & Hk & _);
    [| |exact Hfind|].
  - repeat constructor; by eexists.
  - by left.
  - eexists. exists k. split; [exact Hfind|exact Hk].
Defined.

Lemma keepCloser_fold_own (M : MathLib) (p : position) (cands : list Shelter) :
  forall c s d,
    fold_left (keepCloser M p) cands c = Some (s, d) ->
    c = Some (s, d) \/ (In s cands /\ d = shelterDistance M p s).
Proof.
  induction cands as [|x cands IH]; intros c s d Hfold; [by left|].
  cbn [fold_left] in Hfold. apply IH in Hfold as [Hc|[Hin Hd]].
  - unfold keepCloser in Hc. destruct c as [[s0 d0]|].
    + destruct (num_ltb _ d0).
      * injection Hc as <- <-. right. by split; [left|].
      * by left.
    + injection Hc as <- <-. right. by split; [left|].
  - right. by split; [right|].
Qed.

(** X23: whatever the geometries are, a result of [findNearestShelter]
    is one of the stored shelters together with its own distance; for a
    Point shelter that distance is measured to the coordinate that
    [getShelterLonLat] gives, and it is NaN exactly for a MultiPoint
    shelter, for which [getShelterLonLat] gives the first position. *)
Theorem X23_result_is_stored_shelter (M : MathLib) (shelters : list Shelter) (p : position)
    (parcel : option Feature) (s : Shelter) (d : jsnum) :
  findNearestShelter M shelters p parcel = Some (s, d) ->
  In s shelters /\ d = shelterDistance M p s /\
  (forall c, shelterGeometry s = ShelterPoint c ->
     getShelterLonLat s = Some c /\
     d = Fin (haversine M (fst p) (snd p) (fst c) (snd c))) /\
  (d = NaN <-> exists cs, shelterGeometry s = ShelterMultiPoint cs) /\
  (forall c cs, shelterGeometry s = ShelterMultiPoint (c :: cs) ->
     getShelterLonLat s = Some c).
Proof.
  intros Hfind.
  assert (Hown : In s shelters /\ d = shelterDistance M p s).
  { rewrite findNearestShelter_unfold in Hfind.
    destruct shelters as [|x0 l] eqn:Esh; [discriminate Hfind|]. rewrite <- Esh in *.
    cbv zeta in Hfind.
    assert (Hscan : forall b, fold_left (keepCloser M p) (List.filter (compared b) shelters) None
                      = Some (s, d) -> In s shelters /\ d = shelterDistance M p s).
    { intros b Hb. apply keepCloser_fold_own in Hb as [Hb|[Hin Hd]]; [discriminate Hb|].
      split; [|done]. by apply filter_In in Hin as [Hin _]. }
    destruct (isWaterIslandParcel parcel).
    - destruct (last (List.filter isWaterIslandStation shelters)) as [station|] eqn:El.
      + injection Hfind as <- <-. split; [|done].
        apply last_Some_elem_of, list_elem_of_In, filter_In in El. tauto.
      + by apply (Hscan true).
    - apply (Hscan false).
      destruct (last _); [|done]. by destruct (fold_left _ _ _). }
  destruct Hown as [Hin Hd]. split; [done|]. split; [done|].
  unfold shelterDistance in Hd. unfold getShelterLonLat.
  destruct (shelterGeometry s) as [[lon lat]|cs].
  - split; [|split].
    + intros c [= <-]. by split.
    + split; [by rewrite Hd|]. intros [cs Hcs]. discriminate Hcs.
    + intros c cs Hcs. discriminate Hcs.
  - split; [|split].
    + intros c Hc. discriminate Hc.
    + split; [by eexists|done].
    + intros c cs' [= ->]. done.
Qed.

Lemma X23_result_is_stored_shelter_witness :
  In shelterM [shelterM; shelterA] /\
  getShelterLonLat shelterM = Some (7, 7).
Proof.
  destruct (X23_result_is_stored_shelter exampleMath [shelterM; shelterA] (1, 1)
              (Some mainlandParcel) shelterM NaN) as (H1 & _ & _ & _ & H5).
  - vm_compute. reflexivity.
  - split; [exact H1|]. by apply (H5 (7, 7) []).
Defined.

(** ** Parcel loader *)

Lemma geometryCentroid_throws (g : Geometry position) :
  geometryCentroid g = Throws -> g = Polygon [].
Proof.
  destruct g as [c|cs|cs|ls|rings|polys|t]; try discriminate.
  destruct rings; [done|discriminate].
Qed.

(** X24: the parcel loader raises exactly for a Polygon without rings.
    Otherwise the record it builds keeps the geometry, carries the
    bounding box of that geometry, and stores as centroid the geometry's
    centroid when finite and else the pair of the LONGITUDE and LATITUDE
    attributes when both are finite; and [getParcelLonLat] on that record
    returns the stored centroid without raising. *)
Theorem X24_loaded_parcel_position (StringToNumber : string -> jsnum)
    (g : Geometry position) (props : gmap string jsval) :
  (loadParcel StringToNumber g props = Throws <-> g = Polygon []) /\
  (forall f, loadParcel StringToNumber g props = Returns f ->
     geometry f = g /\ bounds f = geometryBounds g /\
     (forall x y, geometryCentroid g = Returns (Some (Fin x, Fin y)) ->
        centroid f = Some (x, y)) /\
     ((forall x y, geometryCentroid g <> Returns (Some (Fin x, Fin y))) ->
        centroid f = fallbackLonLat StringToNumber props) /\
     getParcelLonLat StringToNumber (Some f) = Returns (centroid f)).
Proof.
  split.
  - unfold loadParcel, centroidCoords. split.
    + destruct (geometryCentroid g) eqn:E; [discriminate|]. intros _.
      by apply geometryCentroid_throws.
    + by intros ->.
  - intros f. unfold loadParcel, centroidCoords.
    destruct (geometryCentroid g) as [computed|] eqn:Ec; [|discriminate].
    intros [= <-]. cbn [geometry bounds centroid].
    split; [done|]. split; [done|]. split; [|split].
    + intros x y [= ->]. reflexivity.
    + intros Hnot. destruct computed as [[[x| | |] [y| | |]]|]; try reflexivity.
      by destruct (Hnot x y).
    + unfold getParcelLonLat, fallbackLonLat. cbn [centroid properties geometry].
      rewrite !lookup_insert_ne by done. rewrite Ec.
      destruct (computed ≫= finitePair) as [c|] eqn:Ef; [done|].
      by destruct (finitePair _).
Qed.

Lemma X24_loaded_parcel_position_witness :
  exists f, loadParcel exampleStringToNumber (Point (1, 2)) surveyedParcel = Returns f /\
            getParcelLonLat exampleStringToNumber (Some f) = Returns (Some (1, 2)).
Proof.
  assert (Hload : exists f, loadParcel exampleStringToNumber (Point (1, 2)) surveyedParcel
                              = Returns f) by (by eexists).
  destruct Hload as [f Hf]. exists f. split; [exact Hf|].
  destruct (X24_loaded_parcel_position exampleStringToNumber (Point (1, 2)) surveyedParcel)
    as [_ H].
  destruct (H f Hf) as (_ & _ & Hc & _ & Hg).
  rewrite Hg, (Hc 1 2 eq_refl). reflexivity.
Defined.

Lemma loadParcel_totalValue (StringToNumber : string -> jsnum) (g : Geometry position)
    (props : gmap string jsval) (f : Feature) :
  loadParcel StringToNumber g props = Returns f ->
  ToNumber StringToNumber (properties f !! "totalValue"%string)
    = totalValue (parcelMetrics StringToNumber props).
Proof.
  unfold loadParcel. destruct (centroidCoords StringToNumber g props); [|discriminate].
  intros [= <-]. cbn [properties].
  rewrite !lookup_insert_ne by done. by rewrite lookup_insert_eq.
Qed.

(** X25: the premium of a loaded parcel is computed from the sum of its
    defaulted [Land_Value] and [Improved_V]: with finite values whose sum
    is positive the estimate and the coverage are those of the sum, and a
    parcel whose two values are both missing or not numeric gets the
    placeholder. *)
Theorem X25_loaded_parcel_premium (StringToNumber : string -> jsnum)
    (g : Geometry position) (props : gmap string jsval) (f : Feature)
    (zoneResult : option (string * Feature)) :
  loadParcel StringToNumber g props = Returns f ->
  let zoneId := match zoneResult with Some (z, _) => z | None => "none"%string end in
  (forall l i, ToNumber StringToNumber (props !! "Land_Value"%string) = Fin l ->
     ToNumber StringToNumber (props !! "Improved_V"%string) = Fin i ->
     0 <= l -> 0 <= i -> 0 < l + i ->
     exists t, t == l + i /\
       renderInsuranceInfo StringToNumber zoneResult (Some f)
         = Some (estimatedPremium zoneId t, recommendedCoverage t)) /\
  (notNumeric StringToNumber props "Land_Value" ->
   notNumeric StringToNumber props "Improved_V" ->
   renderInsuranceInfo StringToNumber zoneResult (Some f) = None).
Proof.
  intros Hload zoneId. pose proof (loadParcel_totalValue _ _ _ _ Hload) as Htotal.
  unfold renderInsuranceInfo. rewrite Htotal. fold zoneId.
  unfold parcelMetrics. cbn [totalValue]. split.
  - intros l i Hl Hi Hl0 Hi0 Hpos. rewrite Hl, Hi.
    assert (Hz : forall x, 0 <= x -> exists x', num_or_zero (Fin x) = Fin x' /\ x' == x).
    { intros x Hx. unfold num_or_zero, num_truthy.
      destruct (Qeqb x 0) eqn:E; cbn [negb].
      - apply Qeqb_eq in E. exists 0. split; [done|]. by rewrite E.
      - by exists x. }
    destruct (Hz l Hl0) as (l' & -> & El). destruct (Hz i Hi0) as (i' & -> & Ei).
    cbn [num_add]. exists (l' + i'). split; [by rewrite El, Ei|].
    assert (Hgt : Qleb (l' + i') 0 = false) by (apply Qleb_gt; lra).
    by rewrite Hgt.
  - intros Hl Hi. rewrite (notNumeric_NaN _ _ _ Hl), (notNumeric_NaN _ _ _ Hi).
    reflexivity.
Qed.

Lemma X25_loaded_parcel_premium_witness :
  exists f t, loadParcel exampleStringToNumber (Point (1, 2)) surveyedParcel = Returns f /\
    t == 80000 /\
    renderInsuranceInfo exampleStringToNumber None (Some f)
      = Some (estimatedPremium "none" t, recommendedCoverage t).
Proof.
  assert (Hload : exists f, loadParcel exampleStringToNumber (Point (1, 2)) surveyedParcel
                              = Returns f) by (by eexists).
  destruct Hload as [f Hf].
  destruct (X25_loaded_parcel_premium exampleStringToNumber (Point (1, 2)) surveyedParcel f
              None Hf) as [H _].
  destruct (H 30000 50000) as (t & Et & Hr); try reflexivity; try discriminate.
  exists f, t. split; [exact Hf|]. split; [by rewrite Et|exact Hr].
Defined.

Lemma rankGeneral_defined (s : list Q) (v : Q) : exists r, rankGeneral s (Fin v) = Some r.
Proof.
  unfold rankGeneral. destruct (Qleb v _); [by eexists|].
  destruct (Qgeb v _); [by eexists|]. cbv zeta. destruct (Qeqb _ v); by eexists.
Qed.

(** The rank of a value that belongs to the distribution. *)
Lemma createPercentileRanker_member (values : list jsnum) (v : Q) :
  In (Fin v) values ->
  exists r, createPercentileRanker values (Fin v) = Some r /\ 0 <= r /\ r <= 1 /\
    ((forall w, In (Fin w) values -> v <= w) ->
     (exists w, In (Fin w) values /\ ~ w == v) -> r = 0) /\
    ((forall w, In (Fin w) values -> w <= v) ->
     (exists w, In (Fin w) values /\ ~ w == v) -> r = 1) /\
    ((forall w, In (Fin w) values -> w == v) -> r = 1 # 2).
Proof.
  intros Hv. set (s := sortAsc (finiteValues values)).
  pose proof (sortAsc_sorted (finiteValues values)) as Hs. fold s in Hs.
  assert (Hvs : In v s) by (by apply finiteValues_In).
  assert (Hback : forall x, In x s -> In (Fin x) values).
  { intros x Hx. apply (Permutation_in _ (sortAsc_perm _)) in Hx.
    apply list_elem_of_In, list_elem_of_omap in Hx as (y & Hy & Hyx).
    destruct y as [q| | |]; try discriminate Hyx. injection Hyx as <-.
    by apply list_elem_of_In. }
  assert (Hex : exists r, createPercentileRanker values (Fin v) = Some r).
  { destruct (createPercentileRanker_cases values) as [[He _]|[(_ & _ & ->)|(_ & _ & ->)]].
    - fold s in He. rewrite He in Hvs. done.
    - by eexists.
    - apply rankGeneral_defined. }
  destruct Hex as [r Hr]. exists r. split; [done|].
  destruct (createPercentileRanker_unit values (Fin v) r Hr) as [H0 H1].
  split; [done|]. split; [done|].
  assert (Hdistinct : (exists w, In (Fin w) values /\ ~ w == v) -> twoDistinct values).
  { intros (w & Hw & Hne). exists w, v. by split; [|split]. }
  split; [|split].
  - intros Hmin Hex. destruct (twoDistinct_general values (Hdistinct Hex)) as (Hn & Hlt & Heq).
    fold s in Hn, Hlt, Heq. rewrite Heq in Hr. unfold rankGeneral in Hr.
    assert (Hle : Qleb v (at_index s 0) = true).
    { apply Qleb_le, Hmin, Hback, at_index_In. lia. }
    rewrite Hle in Hr. by injection Hr as <-.
  - intros Hmax (w & Hw & Hne).
    destruct (twoDistinct_general values (Hdistinct (ex_intro _ w (conj Hw Hne))))
      as (Hn & Hlt & Heq).
    fold s in Hn, Hlt, Heq. rewrite Heq in Hr. unfold rankGeneral in Hr.
    assert (Hw' : w < v).
    { specialize (Hmax w Hw). destruct (Qlt_le_dec w v); [done|]. exfalso. apply Hne. lra. }
    assert (Hlo : Qleb v (at_index s 0) = false).
    { apply Qleb_gt. apply finiteValues_In in Hw. fold s in Hw.
      destruct (sorted_bounds s w Hs Hw) as [Hb _]. lra. }
    assert (Hhi : Qgeb v (at_index s (length s - 1)) = true).
    { apply Qgeb_ge, Hmax, Hback, at_index_In. lia. }
    rewrite Hlo, Hhi in Hr. by injection Hr as <-.
  - intros Hall.
    destruct (createPercentileRanker_cases values) as [[He _]|[(_ & _ & Heq)|(Hn & Hlt & _)]].
    + fold s in He. rewrite He in Hvs. done.
    + rewrite Heq in Hr. by injection Hr as <-.
    + exfalso. fold s in Hn, Hlt.
      assert (at_index s 0 == v) by (apply Hall, Hback, at_index_In; lia).
      assert (at_index s (length s - 1) == v) by (apply Hall, Hback, at_index_In; lia).
      lra.
Qed.


(** ** Great-circle distance *)

(** X27: if the functions of [Math] respect equality, the sine is odd,
    the square root fixes 0 and 1 and the arctangent of 0 over a positive
    number is 0, then the haversine distance is symmetric in its two
    points and is zero from a point to itself. *)
Theorem X27_haversine_symmetric (M : MathLib) (lon1 lat1 lon2 lat2 : Q) :
  MathLaws M ->
  haversine M lon1 lat1 lon2 lat2 == haversine M lon2 lat2 lon1 lat1 /\
  haversine M lon1 lat1 lon1 lat1 == 0.
Proof.
  intros [Hsin Hcos Hsqrt Hatan Hodd Hsqrt0 Hsqrt1 Hatan0].
  assert (Hsq : forall a b, a == - b -> Math_sin M a ^ 2 == Math_sin M b ^ 2).
  { intros a b Hab. rewrite (Hsin a (- b) Hab), Hodd. ring. }
  assert (Hsin0 : Math_sin M 0 == 0).
  { pose proof (Hodd 0) as H. rewrite (Hsin (- 0) 0) in H by ring. lra. }
  split.
  - unfold haversine. cbv zeta.
    assert (Ha :
      Math_sin M (toRad M (lat2 - lat1) / 2) ^ 2 +
      Math_cos M (toRad M lat1) * Math_cos M (toRad M lat2) *
        Math_sin M (toRad M (lon2 - lon1) / 2) ^ 2 ==
      Math_sin M (toRad M (lat1 - lat2) / 2) ^ 2 +
      Math_cos M (toRad M lat2) * Math_cos M (toRad M lat1) *
        Math_sin M (toRad M (lon1 - lon2) / 2) ^ 2).
    { rewrite (Hsq (toRad M (lat2 - lat1) / 2) (toRad M (lat1 - lat2) / 2))
        by (unfold toRad; field).
      rewrite (Hsq (toRad M (lon2 - lon1) / 2) (toRad M (lon1 - lon2) / 2))
        by (unfold toRad; field).
      ring. }
    apply Qmult_comp; [reflexivity|]. apply Qmult_comp; [reflexivity|].
    apply Hatan; apply Hsqrt; [exact Ha|]. by rewrite Ha.
  - unfold haversine. cbv zeta.
    assert (Hz : forall x, Math_sin M (toRad M (x - x) / 2) ^ 2 == 0).
    { intros x. rewrite (Hsin _ 0) by (unfold toRad; field). rewrite Hsin0. ring. }
    assert (Ha :
      Math_sin M (toRad M (lat1 - lat1) / 2) ^ 2 +
      Math_cos M (toRad M lat1) * Math_cos M (toRad M lat1) *
        Math_sin M (toRad M (lon1 - lon1) / 2) ^ 2 == 0).
    { rewrite !Hz. ring. }
    rewrite (Hatan _ _ 0 1).
    + rewrite Hatan0 by reflexivity. ring.
    + rewrite (Hsqrt _ 0 Ha). exact Hsqrt0.
    + rewrite (Hsqrt _ 1); [exact Hsqrt1|]. rewrite Ha. ring.
Qed.

Lemma X27_haversine_symmetric_witness :
  haversine exampleMath 1 2 3 4 == haversine exampleMath 3 4 1 2.
Proof.
  apply (X27_haversine_symmetric exampleMath 1 2 3 4).
  split; cbn; intros; try done; reflexivity.
Defined.

(** ** Legend of the parcel layer *)

Lemma parcelBreaks_members (values : list Q) (b : Q) :
  values <> [] -> In b (parcelBreaks values) ->
  exists i, (i < length values)%nat /\ b = at_index values i.
Proof.
  intros Hne Hb.
  assert (Hn : (0 < length values)%nat) by (destruct values; [done|simpl; lia]).
  assert (Hbreaks : parcelBreaks values =
            map (fun q => at_index values (breakIndex (length values) q)) quantiles)
    by (unfold parcelBreaks; by destruct values).
  rewrite Hbreaks in Hb. apply in_map_iff in Hb as (q & <- & Hq).
  exists (breakIndex (length values) q). split; [|done].
  assert (Hq01 : 0 <= q /\ q <= 1).
  { unfold quantiles in Hq. cbn in Hq.
    destruct Hq as [<-|[<-|[<-|[<-|[]]]]]; split; discriminate. }
  apply breakIndex_floor; [tauto..|done].
Qed.

Lemma StronglySorted_snoc (l : list Q) (x : Q) :
  StronglySorted Qle l -> Forall (fun y => y <= x) l -> StronglySorted Qle (l ++ [x]).
Proof.
  induction 1 as [|y l Hs IH Hall]; intros Hle; cbn.
  - repeat constructor.
  - inversion Hle as [|? ? Hy Hl]; subst. constructor; [by apply IH|].
    apply Forall_app. split; [done|]. by constructor.
Qed.

Lemma plausibleValues_range (perSqMeter : list jsnum) (s : Q) :
  In s (plausibleValues perSqMeter) -> 1 # 10 <= s /\ s <= 5000.
Proof.
  unfold plausibleValues. intros Hs.
  apply (Permutation_in _ (sortAsc_perm _)) in Hs.
  apply list_elem_of_In, list_elem_of_omap in Hs as (v & _ & Hv).
  unfold plausible in Hv. destruct (num_or_zero v) as [q| | |]; try discriminate Hv.
  destruct (Qgtb q 0 && Qgeb q (1 # 10) && Qleb q 5000) eqn:E; [|discriminate Hv].
  injection Hv as <-. apply andb_true_iff in E as [E E3]. apply andb_true_iff in E as [_ E2].
  apply Qgeb_ge in E2. apply Qleb_le in E3. by split.
Qed.

(** X28: when some parcel has a plausible value per square metre, the
    legend has six stops (the least value, the four breaks, the greatest
    value); they are in ascending order, each is one of the plausible
    values, and each lies between 0.1 and 5000.  Without a plausible
    value there are neither stops nor breaks. *)
Theorem X28_legend_stops (perSqMeter : list jsnum) :
  let values := plausibleValues perSqMeter in
  (values = [] -> legendStops values = None /\ parcelBreaks values = []) /\
  (values <> [] ->
     exists stops, legendStops values = Some stops /\
       length stops = 6%nat /\ StronglySorted Qle stops /\
       Forall (fun s => In s values /\ 1 # 10 <= s /\ s <= 5000) stops).
Proof.
  intros values.
  assert (Hs : StronglySorted Qle values) by apply sortAsc_sorted.
  assert (Hrange : forall s, In s values -> 1 # 10 <= s /\ s <= 5000)
    by apply plausibleValues_range.
  clearbody values. split; [by intros ->|]. intros Hne.
  assert (Hn : (0 < length values)%nat) by (destruct values; [done|simpl; lia]).
  destruct (parcelBreaks_sorted values Hs Hne) as [Hlen Hsorted].
  assert (Hmem : forall b, In b (parcelBreaks values) ->
            In b values /\ at_index values 0 <= b /\ b <= at_index values (length values - 1)).
  { intros b Hb. destruct (parcelBreaks_members values b Hne Hb) as (i & Hi & ->).
    split; [by apply at_index_In|]. split; apply sorted_at_index_le; try done; lia. }
  exists (at_index values 0 :: parcelBreaks values ++ [at_index values (length values - 1)]).
  split; [unfold legendStops; by destruct values|].
  split; [|split].
  - cbn [length]. rewrite length_app, Hlen. reflexivity.
  - constructor.
    + apply StronglySorted_snoc; [done|]. apply Forall_forall. intros b Hb.
      apply list_elem_of_In, Hmem in Hb. tauto.
    + apply Forall_app. split.
      * apply Forall_forall. intros b Hb. apply list_elem_of_In, Hmem in Hb. tauto.
      * constructor; [|constructor]. apply sorted_at_index_le; [done|lia|lia].
  - assert (Hin : forall s, In s values -> In s values /\ 1 # 10 <= s /\ s <= 5000).
    { intros s Hsin. split; [done|]. by apply Hrange. }
    constructor; [apply Hin, at_index_In; lia|].
    apply Forall_app. split.
    + apply Forall_forall. intros b Hb. apply Hin.
      apply list_elem_of_In, Hmem in Hb. tauto.
    + constructor; [|constructor]. apply Hin, at_index_In. lia.
Qed.

Lemma X28_legend_stops_witness :
  exists stops,
    legendStops (plausibleValues [Fin 3; NaN; Fin 0; Fin 12; Fin 7; Fin 9000]) = Some stops /\
    length stops = 6%nat.
Proof.
  destruct (X28_legend_stops [Fin 3; NaN; Fin 0; Fin 12; Fin 7; Fin 9000]) as [_ H].
  destruct H as (stops & Hs & Hlen & _); [discriminate|].
  exists stops. split; [exact Hs|exact Hlen].
Defined.
